(** * Voice-chat relay: synthesis queue, completion client and session handlers

    A shallow embedding of the relay's three source files:
    - the speech module (azureTTS): markup generation, the request queue
      around the one shared synthesizer, stop handles, forced cleanup;
    - the completion client (openrouter): [getTherapistResponse];
    - the socket handlers of the server: sessions, history, barge-in,
      session end and disconnect.

    JavaScript strings are sequences of UTF-16 code units, modelled as
    [list N].  Module-level [let] variables become fields of a state record
    and every function that touches them takes and returns that record. *)

From stdpp Require Import gmap strings list fin_maps sorting.
From Stdlib Require Import ZArith NArith Ascii.

Local Open Scope N_scope.

(* ===================================================================== *)
(** * Part I.  The model                                                  *)
(* ===================================================================== *)

(** ** JavaScript strings *)

Abbreviation jsstring := (list N).

(** An ASCII literal of the source, as code units. *)
Definition lit (s : string) : jsstring :=
  N_of_ascii <$> String.list_ascii_of_string s.

(** The same for literals of the source that contain double quotes: they
    are written here with an apostrophe in place of each double quote
    (none of these literals contains an apostrophe of its own). *)
Definition tpl (s : string) : jsstring :=
  (λ c, if decide (c = 39) then 34 else c) <$> lit s.

(** A line break of a template literal followed by its indentation. *)
Definition nl (indent : nat) : jsstring := 10 :: replicate indent 32.

(** [s.replace(/c/g, r)] for a one-character pattern [c] and a replacement
    [r] without [$] patterns. *)
Definition replaceAll (c : N) (r : jsstring) (s : jsstring) : jsstring :=
  s ≫= (λ x, if decide (x = c) then r else [x]).

(** [s.replace(/c/, r)]: without the [g] flag only the first match is
    replaced. *)
Fixpoint replaceFirst (c : N) (r : jsstring) (s : jsstring) : jsstring :=
  match s with
  | [] => []
  | x :: s' => if decide (x = c) then r ++ s' else x :: replaceFirst c r s'
  end.

(** [s.substring(0, n)] *)
Definition substring0 (n : nat) (s : jsstring) : jsstring := take n s.

(** WhiteSpace and LineTerminator code points, the ones [trim] strips. *)
Definition isWhiteSpace (c : N) : bool :=
  bool_decide (c ∈ [9; 10; 11; 12; 13; 32; 160; 5760; 8232; 8233; 8239; 8287;
                    12288; 65279])
  || ((8192 <=? c) && (c <=? 8202)).

Fixpoint trimStart (s : jsstring) : jsstring :=
  match s with
  | c :: s' => if isWhiteSpace c then trimStart s' else s
  | [] => []
  end.

Definition trim (s : jsstring) : jsstring :=
  reverse (trimStart (reverse (trimStart s))).

(** ** Voice configuration (azureTTS, lines 19-74) *)

Inductive gender := female | male.
Inductive performanceMode := FAST | BALANCED | QUALITY.

#[global] Instance gender_eq_dec : EqDecision gender.
Proof. solve_decision. Defined.
#[global] Instance performanceMode_eq_dec : EqDecision performanceMode.
Proof. solve_decision. Defined.

Definition voiceNameOf (g : gender) : jsstring :=
  match g with
  | female => lit "en-US-AvaNeural"
  | male => lit "en-US-AndrewNeural"
  end.

(** ** Markup generation (azureTTS, lines 118-168) *)

Definition AMP : N := 38.
Definition LT : N := 60.
Definition GT : N := 62.

Definition escapeXml (text : jsstring) : jsstring :=
  replaceAll GT (lit "&gt;")
    (replaceAll LT (lit "&lt;")
       (replaceAll AMP (lit "&amp;") text)).

(** The pause markers of quality mode: the question mark is replaced once
    (its pattern has no [g] flag), the other three everywhere. *)
Definition processText (escapedText : jsstring) : jsstring :=
  replaceAll 33 (tpl "<break time='150ms'/>!")
    (replaceAll 44 (tpl "<break time='100ms'/>,")
       (replaceAll 46 (tpl "<break time='150ms'/>.")
          (replaceFirst 63 (tpl "<break time='200ms'/>?") escapedText))).

Definition ssmlPrefix (g : gender) (m : performanceMode) : jsstring :=
  let isFemale := bool_decide (g = female) in
  match m with
  | FAST =>
      tpl "<speak version='1.0' xml:lang='en-US'><voice name='"
      ++ voiceNameOf g ++ tpl "'>"
  | BALANCED =>
      tpl "<speak version='1.0' xml:lang='en-US'>"
      ++ nl 8 ++ tpl "<voice name='" ++ voiceNameOf g ++ tpl "'>"
      ++ nl 10 ++ tpl "<prosody rate='"
      ++ (if isFemale then lit "0.95" else lit "0.9")
      ++ tpl "' pitch='" ++ (if isFemale then lit "+2%" else lit "+1%")
      ++ tpl "' volume='+5%'>"
      ++ nl 12
  | QUALITY =>
      tpl "<speak version='1.0' xmlns='http://www.w3.org/2001/10/synthesis'"
      ++ nl 13 ++ tpl "xmlns:mstts='http://www.w3.org/2001/mstts' xml:lang='en-US'>"
      ++ nl 8 ++ tpl "<voice name='" ++ voiceNameOf g ++ tpl "'>"
      ++ nl 10 ++ tpl "<mstts:express-as style='"
      ++ (if isFemale then lit "warm" else lit "friendly")
      ++ tpl "' styledegree='1.3'>"
      ++ nl 12 ++ tpl "<prosody rate='"
      ++ (if isFemale then lit "0.95" else lit "0.9")
      ++ tpl "' pitch='" ++ (if isFemale then lit "+3%" else lit "+2%")
      ++ tpl "' volume='+8%'>"
      ++ nl 14 ++ tpl "<break time='50ms'/>"
      ++ nl 14
  end.

Definition ssmlSuffix (m : performanceMode) : jsstring :=
  match m with
  | FAST => lit "</voice></speak>"
  | BALANCED =>
      nl 10 ++ lit "</prosody>" ++ nl 8 ++ lit "</voice>"
      ++ nl 6 ++ lit "</speak>"
  | QUALITY =>
      nl 14 ++ tpl "<break time='200ms'/>"
      ++ nl 12 ++ lit "</prosody>"
      ++ nl 10 ++ lit "</mstts:express-as>"
      ++ nl 8 ++ lit "</voice>"
      ++ nl 6 ++ lit "</speak>"
  end.

Definition generateOptimizedSSML
    (g : gender) (m : performanceMode) (text : jsstring) : jsstring :=
  let escapedText := escapeXml text in
  match m with
  | FAST => ssmlPrefix g FAST ++ escapedText ++ ssmlSuffix FAST
  | BALANCED => ssmlPrefix g BALANCED ++ escapedText ++ ssmlSuffix BALANCED
  | QUALITY =>
      let processedText := processText escapedText in
      ssmlPrefix g QUALITY ++ processedText ++ ssmlSuffix QUALITY
  end.

(** *** A structural check of the generated markup

    A one-pass scanner over the code units: tags must nest, every
    ampersand must start one of the predefined entity references, and no
    angle bracket may stand in character data. *)

Inductive scanMode :=
| InText
| InTag (acc : jsstring)       (* the tag read so far, most recent first *)
| InEntity (acc : jsstring).   (* the entity name read so far, most recent first *)

Record scanState := ScanState {
  openTags : list jsstring;    (* innermost first *)
  rootsSeen : nat;
  scanMode_ : scanMode
}.

Definition isXmlSpace (c : N) : bool := bool_decide (c ∈ [9; 10; 13; 32]).

Fixpoint tagName (body : jsstring) : jsstring :=
  match body with
  | c :: body' =>
      if isXmlSpace c || bool_decide (c = 47) then [] else c :: tagName body'
  | [] => []
  end.

Definition closeTag (acc : jsstring) (st : scanState) : option scanState :=
  let body := reverse acc in
  match body with
  | 47 :: name =>                                 (* </name> *)
      match openTags st with
      | top :: rest =>
          if decide (name = top)
          then Some (ScanState rest (rootsSeen st) InText)
          else None
      | [] => None
      end
  | _ =>
      let name := tagName body in
      if decide (name = []) then None
      else if decide (last body = Some 47)        (* <name ... /> *)
      then Some (ScanState (openTags st)
                   (if decide (openTags st = []) then S (rootsSeen st)
                    else rootsSeen st) InText)
      else Some (ScanState (name :: openTags st)
                   (if decide (openTags st = []) then S (rootsSeen st)
                    else rootsSeen st) InText)
  end.

Definition entityNames : list jsstring :=
  [lit "amp"; lit "lt"; lit "gt"; lit "quot"; lit "apos"].

Definition scanStep (st : scanState) (c : N) : option scanState :=
  match scanMode_ st with
  | InText =>
      if decide (c = LT) then Some (ScanState (openTags st) (rootsSeen st) (InTag []))
      else if decide (c = GT) then None
      else if decide (c = AMP) then
        if decide (openTags st = []) then None
        else Some (ScanState (openTags st) (rootsSeen st) (InEntity []))
      else if decide (openTags st = []) then
        (if isXmlSpace c then Some st else None)
      else Some st
  | InTag acc =>
      if decide (c = GT) then closeTag acc st
      else if decide (c = LT) then None
      else Some (ScanState (openTags st) (rootsSeen st) (InTag (c :: acc)))
  | InEntity acc =>
      if decide (c = 59) then
        if bool_decide (reverse acc ∈ entityNames)
        then Some (ScanState (openTags st) (rootsSeen st) InText)
        else None
      else if decide (c = LT) then None
      else if decide (c = GT) then None
      else if decide (c = AMP) then None
      else Some (ScanState (openTags st) (rootsSeen st) (InEntity (c :: acc)))
  end.

Definition scanFrom (st : option scanState) (s : jsstring) : option scanState :=
  foldl (λ o c, o ≫= (λ st, scanStep st c)) st s.

Definition wellFormed (s : jsstring) : bool :=
  match scanFrom (Some (ScanState [] 0 InText)) s with
  | Some (ScanState [] 1 InText) => true
  | _ => false
  end.

(** The per-character escape the three replacements are meant to compute. *)
Definition escapeChar (c : N) : jsstring :=
  if decide (c = AMP) then lit "&amp;"
  else if decide (c = LT) then lit "&lt;"
  else if decide (c = GT) then lit "&gt;"
  else [c].

(** Character data as the generator writes it: characters other than the
    three reserved ones, the three entity references, and pause markers. *)
Definition entityRefs : list jsstring := [lit "&amp;"; lit "&lt;"; lit "&gt;"].

Definition breakTags : list jsstring :=
  [tpl "<break time='200ms'/>"; tpl "<break time='150ms'/>";
   tpl "<break time='100ms'/>"].

(** The four punctuation marks that receive a pause marker occur in no
    entity reference and in no pause marker. *)
Definition pauseChars : list N := [33; 44; 46; 63].

Inductive charData : jsstring → Prop :=
| charData_nil : charData []
| charData_char c s :
    c ≠ LT → c ≠ GT → c ≠ AMP → charData s → charData (c :: s)
| charData_token t s :
    t ∈ entityRefs ++ breakTags → charData s → charData (t ++ s).

(** ** JavaScript values

    What a socket payload, an environment variable or a parsed JSON body can
    hold.  Numbers are kept to the integers: the code tests a number for
    truthiness and nothing else.  An object is the list of its own
    properties, with the binding that a lookup finds first. *)

Inductive jsval :=
| VUndefined
| VNull
| VBool (b : bool)
| VNumber (x : Z)
| VString (s : jsstring)
| VArray (items : list jsval)
| VObject (props : list (jsstring * jsval)).

(** ToBoolean *)
Definition truthy (v : jsval) : bool :=
  match v with
  | VUndefined | VNull => false
  | VBool b => b
  | VNumber x => negb (x =? 0)%Z
  | VString s => negb (bool_decide (s = []))
  | VArray _ | VObject _ => true
  end.

(** ** The speech module: queue, handles, cleanup (azureTTS, lines 19-305) *)

(** [Buffer.from(bytes).toString('base64')] *)
Definition base64Alphabet : jsstring :=
  lit "ABCDEFGHIJKLMNOPQRSTUVWXYZabcdefghijklmnopqrstuvwxyz0123456789+/".

Definition base64Char (i : N) : N := nth (N.to_nat i) base64Alphabet 0.

Fixpoint base64 (bytes : list N) : jsstring :=
  match bytes with
  | a :: b :: c :: rest =>
      let n := a * 65536 + b * 256 + c in
      base64Char (n / 262144) :: base64Char ((n / 4096) mod 64)
        :: base64Char ((n / 64) mod 64) :: base64Char (n mod 64) :: base64 rest
  | [a; b] =>
      let n := a * 65536 + b * 256 in
      [base64Char (n / 262144); base64Char ((n / 4096) mod 64);
       base64Char ((n / 64) mod 64); 61]
  | [a] =>
      let n := a * 65536 in
      [base64Char (n / 262144); base64Char ((n / 4096) mod 64); 61; 61]
  | [] => []
  end.

(** The three functions a caller passes along with the text.  [cb_id]
    names the caller's closures; a flag is [false] when the caller passed
    nothing in that position (the module guards every call with
    [if (onX)]). *)
Record callbacks := Callbacks {
  cb_id : nat;
  onAudioChunk : bool;
  onError : bool;
  onComplete : bool
}.

(** One invocation of a caller's function, as the caller observes it. *)
Inductive call :=
| AudioChunk (id : nat) (base64Audio : jsstring)
| Error (id : nat) (message : jsstring)
| Complete (id : nat).

Definition callId (c : call) : nat :=
  match c with AudioChunk id _ | Error id _ | Complete id => id end.

Definition isComplete (c : call) : bool :=
  match c with Complete _ => true | _ => false end.
Definition isAudioChunk (c : call) : bool :=
  match c with AudioChunk _ _ => true | _ => false end.
Definition isError (c : call) : bool :=
  match c with Error _ _ => true | _ => false end.

(** An entry of [requestQueue]. *)
Record request := Request {
  text : jsstring;
  cbs : callbacks
}.

(** The variables one call of [textToSpeechInternal] closes over: its
    callbacks, the synthesizer it obtained, and its [isInterrupted] flag. *)
Record closure := Closure {
  cl_cbs : callbacks;
  cl_synthesizer : nat;
  isInterrupted : bool
}.

(** What [textToSpeech] hands back: an object whose [stop] does nothing, or
    the object made by call number [k] of [textToSpeechInternal]. *)
Inductive handle :=
| NoopHandle
| StopHandle (k : nat).

(** The [result] the SDK passes to the first callback of [speakSsmlAsync].
    Of the SDK's reasons only [SynthesizingAudioCompleted] is named by the
    code; any other carries the text the template literal prints for it. *)
Inductive resultReason :=
| SynthesizingAudioCompleted
| OtherReason (printed : jsstring).

Record speakResult := SpeakResult {
  reason : resultReason;
  audioData : option (list N)
}.

(** Calls into the speech SDK, in the order they are made. *)
Inductive sdkCall :=
| NewSynthesizer (y : nat) (voiceName : jsstring)
| SpeakSsmlAsync (y : nat) (ssml : jsstring) (k : nat)
| StopSpeakingAsync (y : nat)
| Close (y : nat).

Record ttsState := TtsState {
  (* the module's variables *)
  currentVoiceGender : gender;
  persistentSynthesizer : option nat;
  isSynthesizerBusy : bool;
  requestQueue : list request;
  isProcessingQueue : bool;
  currentPerformanceMode : performanceMode;
  (* the closures made by textToSpeechInternal, by call number *)
  closures : gmap nat closure;
  nextClosure : nat;
  (* the environment: synthesizer objects made so far, timers set and not
     yet run, speak operations the SDK has accepted and not yet answered,
     the calls made into the SDK, the callbacks invoked *)
  nextSynthesizer : nat;
  timers : nat;
  outstanding : list nat;
  sdkLog : list sdkCall;
  (* each invocation with the call number of textToSpeechInternal that made
     it; None for the two made by textToSpeech itself *)
  calls : list (option nat * call)
}.

Definition initialTts : ttsState :=
  TtsState female None false [] false BALANCED ∅ 0 0 0 [] [] [].

Definition setGender (g : gender) (s : ttsState) : ttsState :=
  TtsState g (persistentSynthesizer s) (isSynthesizerBusy s) (requestQueue s)
    (isProcessingQueue s) (currentPerformanceMode s) (closures s)
    (nextClosure s) (nextSynthesizer s) (timers s) (outstanding s) (sdkLog s)
    (calls s).
Definition setSynthesizer (y : option nat) (s : ttsState) : ttsState :=
  TtsState (currentVoiceGender s) y (isSynthesizerBusy s) (requestQueue s)
    (isProcessingQueue s) (currentPerformanceMode s) (closures s)
    (nextClosure s) (nextSynthesizer s) (timers s) (outstanding s) (sdkLog s)
    (calls s).
Definition setBusy (b : bool) (s : ttsState) : ttsState :=
  TtsState (currentVoiceGender s) (persistentSynthesizer s) b (requestQueue s)
    (isProcessingQueue s) (currentPerformanceMode s) (closures s)
    (nextClosure s) (nextSynthesizer s) (timers s) (outstanding s) (sdkLog s)
    (calls s).
Definition setQueue (q : list request) (s : ttsState) : ttsState :=
  TtsState (currentVoiceGender s) (persistentSynthesizer s)
    (isSynthesizerBusy s) q (isProcessingQueue s) (currentPerformanceMode s)
    (closures s) (nextClosure s) (nextSynthesizer s) (timers s)
    (outstanding s) (sdkLog s) (calls s).
Definition setProcessing (b : bool) (s : ttsState) : ttsState :=
  TtsState (currentVoiceGender s) (persistentSynthesizer s)
    (isSynthesizerBusy s) (requestQueue s) b (currentPerformanceMode s)
    (closures s) (nextClosure s) (nextSynthesizer s) (timers s)
    (outstanding s) (sdkLog s) (calls s).
Definition setMode (m : performanceMode) (s : ttsState) : ttsState :=
  TtsState (currentVoiceGender s) (persistentSynthesizer s)
    (isSynthesizerBusy s) (requestQueue s) (isProcessingQueue s) m
    (closures s) (nextClosure s) (nextSynthesizer s) (timers s)
    (outstanding s) (sdkLog s) (calls s).
Definition setClosures (c : gmap nat closure) (n : nat) (s : ttsState) : ttsState :=
  TtsState (currentVoiceGender s) (persistentSynthesizer s)
    (isSynthesizerBusy s) (requestQueue s) (isProcessingQueue s)
    (currentPerformanceMode s) c n (nextSynthesizer s) (timers s)
    (outstanding s) (sdkLog s) (calls s).
Definition setNextSynthesizer (n : nat) (s : ttsState) : ttsState :=
  TtsState (currentVoiceGender s) (persistentSynthesizer s)
    (isSynthesizerBusy s) (requestQueue s) (isProcessingQueue s)
    (currentPerformanceMode s) (closures s) (nextClosure s) n (timers s)
    (outstanding s) (sdkLog s) (calls s).
Definition setTimers (n : nat) (s : ttsState) : ttsState :=
  TtsState (currentVoiceGender s) (persistentSynthesizer s)
    (isSynthesizerBusy s) (requestQueue s) (isProcessingQueue s)
    (currentPerformanceMode s) (closures s) (nextClosure s)
    (nextSynthesizer s) n (outstanding s) (sdkLog s) (calls s).
Definition setOutstanding (o : list nat) (s : ttsState) : ttsState :=
  TtsState (currentVoiceGender s) (persistentSynthesizer s)
    (isSynthesizerBusy s) (requestQueue s) (isProcessingQueue s)
    (currentPerformanceMode s) (closures s) (nextClosure s)
    (nextSynthesizer s) (timers s) o (sdkLog s) (calls s).
Definition sdk (c : sdkCall) (s : ttsState) : ttsState :=
  TtsState (currentVoiceGender s) (persistentSynthesizer s)
    (isSynthesizerBusy s) (requestQueue s) (isProcessingQueue s)
    (currentPerformanceMode s) (closures s) (nextClosure s)
    (nextSynthesizer s) (timers s) (outstanding s) (sdkLog s ++ [c]) (calls s).

(** [if (f) f(args)]: the caller's function runs when it was passed. *)
Definition invoke (by_ : option nat) (present : bool) (c : call) (s : ttsState)
    : ttsState :=
  if present then
    TtsState (currentVoiceGender s) (persistentSynthesizer s)
      (isSynthesizerBusy s) (requestQueue s) (isProcessingQueue s)
      (currentPerformanceMode s) (closures s) (nextClosure s)
      (nextSynthesizer s) (timers s) (outstanding s) (sdkLog s)
      (calls s ++ [(by_, c)])
  else s.

(** [getPersistentSynthesizer] (lines 103-113) *)
Definition getPersistentSynthesizer (s : ttsState) : nat * ttsState :=
  match persistentSynthesizer s with
  | Some y => (y, s)
  | None =>
      let y := nextSynthesizer s in
      (y, setSynthesizer (Some y)
            (setNextSynthesizer (S y)
               (sdk (NewSynthesizer y (voiceNameOf (currentVoiceGender s))) s)))
  end.

(** The [cleanup] closure of [textToSpeechInternal] (lines 227-235): clears
    the busy flag, reports completion, and sets the 50 ms timer whose body
    is [timerBody] below. *)
Definition cleanup (k : nat) (c : callbacks) (s : ttsState) : ttsState :=
  let s := setBusy false s in
  let s := invoke (Some k) (onComplete c) (Complete (cb_id c)) s in
  setTimers (S (timers s)) s.

(** [textToSpeechInternal] (lines 222-277).  [throws] says what the SDK does
    with this [speakSsmlAsync] call: [None] when it accepts it, [Some m]
    when it throws an error whose message is [m]. *)
Definition textToSpeechInternal (throws : option jsstring) (text : jsstring)
    (c : callbacks) (s : ttsState) : handle * ttsState :=
  let s := setBusy true s in
  let '(synthesizer, s) := getPersistentSynthesizer s in
  let ssml :=
    generateOptimizedSSML (currentVoiceGender s) (currentPerformanceMode s) text in
  let k := nextClosure s in
  let s := setClosures (<[k := Closure c synthesizer false]> (closures s)) (S k) s in
  let s := sdk (SpeakSsmlAsync synthesizer ssml k) s in
  match throws with
  | None => (StopHandle k, setOutstanding (outstanding s ++ [k]) s)
  | Some m =>
      let s :=
        invoke (Some k) (onError c) (Error (cb_id c) (lit "Exception: " ++ m)) s in
      (NoopHandle, cleanup k c s)
  end.

(** The first callback given to [speakSsmlAsync] (lines 242-252), run for
    call number [k]. *)
Definition onSpeakResult (k : nat) (result : speakResult) (s : ttsState) : ttsState :=
  match closures s !! k with
  | None => s
  | Some cl =>
      let c := cl_cbs cl in
      let completed :=
        match reason result with SynthesizingAudioCompleted => true | _ => false end in
      let s :=
        if negb (isInterrupted cl) && completed then
          match audioData result with
          | Some bytes =>
              if (0 <? length bytes)%nat
              then invoke (Some k) (onAudioChunk c)
                     (AudioChunk (cb_id c) (base64 bytes)) s
              else s
          | None => s
          end
        else
          match reason result with
          | SynthesizingAudioCompleted => s
          | OtherReason printed =>
              invoke (Some k) (onError c)
                (Error (cb_id c) (lit "Speech synthesis failed: " ++ printed)) s
          end in
      cleanup k c s
  end.

(** The second callback given to [speakSsmlAsync] (lines 253-256). *)
Definition onSpeakError (k : nat) (error : jsstring) (s : ttsState) : ttsState :=
  match closures s !! k with
  | None => s
  | Some cl =>
      let c := cl_cbs cl in
      let s :=
        invoke (Some k) (onError c) (Error (cb_id c) (lit "TTS Error: " ++ error)) s in
      cleanup k c s
  end.

(** [handle.stop()] (lines 260-269).  Whatever [stopSpeakingAsync] throws is
    swallowed by the [try] around it. *)
Definition stop (h : handle) (s : ttsState) : ttsState :=
  match h with
  | NoopHandle => s
  | StopHandle k =>
      match closures s !! k with
      | None => s
      | Some cl =>
          if isInterrupted cl then s
          else
            let s :=
              setClosures
                (<[k := Closure (cl_cbs cl) (cl_synthesizer cl) true]> (closures s))
                (nextClosure s) s in
            let s := sdk (StopSpeakingAsync (cl_synthesizer cl)) s in
            cleanup k (cl_cbs cl) s
      end
  end.

(** [processQueue] (lines 173-186) *)
Definition processQueue (throws : option jsstring) (s : ttsState) : ttsState :=
  if isProcessingQueue s || (length (requestQueue s) =? 0)%nat || isSynthesizerBusy s
  then s
  else
    let s := setProcessing true s in
    match requestQueue s with
    | nextRequest :: rest =>
        let s := setQueue rest s in
        snd (textToSpeechInternal throws (text nextRequest) (cbs nextRequest) s)
    | [] => setProcessing false s
    end.

(** The body of the timer set by [cleanup] (lines 231-234). *)
Definition timerBody (throws : option jsstring) (s : ttsState) : ttsState :=
  processQueue throws (setProcessing false s).

(** [queueRequest] (lines 191-194).  It has no [return]: the call yields
    [undefined], modelled as [None]. *)
Definition queueRequest (throws : option jsstring) (text : jsstring)
    (c : callbacks) (s : ttsState) : option handle * ttsState :=
  let s := setQueue (requestQueue s ++ [Request text c]) s in
  (None, processQueue throws s).

(** [checkCredentials] (lines 79-81) over the two environment variables. *)
Definition envTruthy (v : option jsstring) : bool :=
  match v with Some (_ :: _) => true | _ => false end.

Definition checkCredentials (SPEECH_KEY SPEECH_REGION : option jsstring) : bool :=
  envTruthy SPEECH_KEY && envTruthy SPEECH_REGION.

(** [textToSpeech] (lines 199-217).  The result is [None] where the source
    returns [undefined]. *)
Definition textToSpeech (credentials : bool) (throws : option jsstring)
    (text : jsval) (c : callbacks) (s : ttsState) : option handle * ttsState :=
  match text with
  | VString (ch :: t) =>
      if negb credentials then
        (Some NoopHandle,
         invoke None (onError c)
           (Error (cb_id c) (lit "Azure credentials not configured")) s)
      else if isSynthesizerBusy s then queueRequest throws (ch :: t) c s
      else
        let '(h, s) := textToSpeechInternal throws (ch :: t) c s in
        (Some h, s)
  | _ =>
      (Some NoopHandle,
       invoke None (onError c) (Error (cb_id c) (lit "Invalid text input")) s)
  end.

(** [cleanupSynthesizer] (lines 282-294) *)
Definition cleanupSynthesizer (s : ttsState) : ttsState :=
  let s :=
    match persistentSynthesizer s with
    | Some y => setSynthesizer None (sdk (Close y) s)
    | None => s
    end in
  let s := setBusy false s in
  let s := setQueue [] s in
  setProcessing false s.

(** [setVoiceGender] (lines 52-65) *)
Definition setVoiceGender (g : jsval) (s : ttsState) : ttsState :=
  let parsed :=
    match g with
    | VString n =>
        if decide (n = lit "male") then Some male
        else if decide (n = lit "female") then Some female
        else None
    | _ => None
    end in
  match parsed with
  | Some g' =>
      let s := setGender g' s in
      match persistentSynthesizer s with
      | Some y => setSynthesizer None (sdk (Close y) s)
      | None => s
      end
  | None => s
  end.

(** [setPerformanceMode] (lines 70-74) *)
Definition setPerformanceMode (m : jsval) (s : ttsState) : ttsState :=
  match m with
  | VString n =>
      if decide (n = lit "fast") then setMode FAST s
      else if decide (n = lit "balanced") then setMode BALANCED s
      else if decide (n = lit "quality") then setMode QUALITY s
      else s
  | _ => s
  end.

(** [getQueueStatus] (lines 299-305) *)
Definition getQueueStatus (s : ttsState) : nat * bool * bool :=
  (length (requestQueue s), isSynthesizerBusy s, isProcessingQueue s).

(** *** The module as a transition system

    Everything that can happen to the module: calls of its exported
    functions, [stop] on a handle, an answer of the SDK to an accepted
    speak operation, and a timer running.  An answer for a call number that
    is not outstanding, and a timer when none is set, do nothing. *)

Inductive ttsEvent :=
| Submit (throws : option jsstring) (text : jsval) (c : callbacks)
| StopEv (h : handle)
| SdkResult (k : nat) (result : speakResult)
| SdkError (k : nat) (error : jsstring)
| TimerFires (throws : option jsstring)
| CleanupSynthesizer
| SetVoiceGender (g : jsval)
| SetPerformanceMode (m : jsval).

Definition answered (k : nat) (l : list nat) : list nat :=
  filter (λ x, x ≠ k) l.

Definition ttsStep (credentials : bool) (s : ttsState) (e : ttsEvent) : ttsState :=
  match e with
  | Submit throws text c => snd (textToSpeech credentials throws text c s)
  | StopEv h => stop h s
  | SdkResult k result =>
      if bool_decide (k ∈ outstanding s)
      then onSpeakResult k result (setOutstanding (answered k (outstanding s)) s)
      else s
  | SdkError k error =>
      if bool_decide (k ∈ outstanding s)
      then onSpeakError k error (setOutstanding (answered k (outstanding s)) s)
      else s
  | TimerFires throws =>
      match timers s with
      | S n => timerBody throws (setTimers n s)
      | O => s
      end
  | CleanupSynthesizer => cleanupSynthesizer s
  | SetVoiceGender g => setVoiceGender g s
  | SetPerformanceMode m => setPerformanceMode m s
  end.

Definition ttsRun (credentials : bool) (s : ttsState) (es : list ttsEvent) : ttsState :=
  foldl (ttsStep credentials) s es.

(** The requests being synthesized: accepted by the SDK, not yet answered,
    and not stopped. *)
Definition synthesizing (s : ttsState) : list nat :=
  filter (λ k, (isInterrupted <$> closures s !! k) = Some false) (outstanding s).

(** ** The completion client (openrouter-clean.js, lines 73-152) *)

(** A statement either completes with a value or throws. *)
Inductive completion (A : Type) :=
| Return (a : A)
| Throw.
Arguments Return {A} a.
Arguments Throw {A}.

Definition andThen {A B} (c : completion A) (k : A → completion B) : completion B :=
  match c with
  | Return a => k a
  | Throw => Throw
  end.

#[global] Instance completion_bind : MBind completion :=
  λ A B k c, andThen c k.

(** [try { body } catch (error) { handler }] *)
Definition tryCatch {A} (body handler : completion A) : completion A :=
  match body with
  | Return a => Return a
  | Throw => handler
  end.

Inductive role := system | user | assistant.

Record message := Message {
  role_ : role;
  content : jsval
}.

(** [a.slice(-n)] *)
Definition sliceLast {A} (n : nat) (a : list A) : list A :=
  drop (length a - n) a.

(** [v.name] for a property name that no built-in prototype defines
    (here: choices, message, content).  Reading a property of [undefined]
    or [null] throws. *)
Fixpoint lookupProp (name : jsstring) (props : list (jsstring * jsval)) : jsval :=
  match props with
  | (n, v) :: rest => if decide (n = name) then v else lookupProp name rest
  | [] => VUndefined
  end.

Definition getProp (v : jsval) (name : jsstring) : completion jsval :=
  match v with
  | VUndefined | VNull => Throw
  | VObject props => Return (lookupProp name props)
  | _ => Return VUndefined
  end.

(** [v[0]] *)
Definition getIndex0 (v : jsval) : completion jsval :=
  match v with
  | VUndefined | VNull => Throw
  | VArray items => Return (default VUndefined (head items))
  | VString s => Return (match s with c :: _ => VString [c] | [] => VUndefined end)
  | VObject props => Return (lookupProp (lit "0") props)
  | _ => Return VUndefined
  end.

(** [v.trim()]: only a string has the method. *)
Definition callTrim (v : jsval) : completion jsval :=
  match v with
  | VString s => Return (VString (trim s))
  | _ => Throw
  end.

(** [v.substring(0, n)]: only a string has the method. *)
Definition callSubstring0 (n : nat) (v : jsval) : completion jsval :=
  match v with
  | VString s => Return (VString (substring0 n s))
  | _ => Throw
  end.

(** [xs[i]] on an array of strings: [undefined] past the end. *)
Definition arrayAt (xs : list jsstring) (i : nat) : jsval :=
  match xs !! i with
  | Some s => VString s
  | None => VUndefined
  end.

(** Rounding to a double, on the integers: the integer nearest to [n] whose
    binary form has at most 53 significant bits, a tie going to the one
    whose 53-bit significand is even.  For a product [n / 2^53] that is
    neither subnormal nor out of range, the nearest double is
    [roundToDouble n / 2^53]. *)
Definition roundToDouble (n : N) : N :=
  (let extra := N.size n - 53 in
   let q := n / 2 ^ extra in
   let r := n mod 2 ^ extra in
   let half := 2 ^ extra / 2 in
   if extra =? 0 then n
   else if (half <? r) || ((r =? half) && N.odd q) then (q + 1) * 2 ^ extra
   else q * 2 ^ extra)%N.

(** [Math.floor(Math.random() * len)].  [Math.random()] is the double
    [(random mod 2^53) / 2^53] and [len], the length of an array, is a
    double as it stands; their product is the double nearest to the exact
    product, which can be the next integer where the exact product lies
    just below it. *)
Definition floorRandomTimes (random : N) (len : nat) : nat :=
  N.to_nat (roundToDouble ((random mod 2 ^ 53) * N.of_nat len) / 2 ^ 53).

(** What the network does with the request: [fetch] rejects (failure, or
    the abort of the 8 second timer), or it resolves with a response whose
    body can in turn fail to be read ([None]). *)
Inductive fetchOutcome :=
| FetchRejects
| RespondsNotOk (body : option jsstring)
| RespondsOk (json : option jsval).

Definition noKeyFallback : jsstring :=
  lit "I'm here to listen. Could you tell me more about that?".
Definition notOkFallback : jsstring :=
  lit "I understand you're sharing something important. Please continue.".
Definition badShapeFallback : jsstring :=
  lit "I'm listening. Could you elaborate on that?".

Definition fallbackResponses : list jsstring := [
  lit "I feel like there's something really important you're sharing with me. I want to make sure I understand - can you tell me more?";
  lit "What you're saying really resonates with me. I can sense there's a lot going on beneath the surface. How are you holding up with all of this?";
  lit "I'm right here with you. Sometimes the connection gets a bit wonky, but I'm still listening. What's been weighing on your heart?";
  lit "I can feel that this means a lot to you. I don't want to miss anything important - can you walk me through what's happening?";
  lit "You know what? I think what you're sharing is really significant. I want to give it the attention it deserves. Can you help me understand better?";
  lit "I'm sensing there's so much depth to what you're experiencing. I really want to be here for you - can you share more about how this feels?";
  lit "Something tells me there's a story here that matters deeply to you. I'm here to listen - what's going on in your world right now?"
].

(** The [messages] array of the request (lines 82-86). *)
Definition requestMessages (THERAPIST_PROMPT : jsstring) (userInput : jsval)
    (conversationHistory : list message) : completion (list message) :=
  input ← callSubstring0 500 userInput;
  Return ([Message system (VString THERAPIST_PROMPT)]
          ++ sliceLast 10 conversationHistory
          ++ [Message user input]).

(** The body of the [try] (lines 81-132). *)
Definition therapistTry (THERAPIST_PROMPT : jsstring) (userInput : jsval)
    (conversationHistory : list message) (net : fetchOutcome) : completion jsval :=
  _ ← requestMessages THERAPIST_PROMPT userInput conversationHistory;
  match net with
  | FetchRejects => Throw
  | RespondsNotOk None => Throw
  | RespondsNotOk (Some errorText) => Return (VString notOkFallback)
  | RespondsOk None => Throw
  | RespondsOk (Some data) =>
      choices ← getProp data (lit "choices");
      if negb (truthy choices) then Return (VString badShapeFallback)
      else
        first ← getIndex0 choices;
        if negb (truthy first) then Return (VString badShapeFallback)
        else
          msg ← getProp first (lit "message");
          if negb (truthy msg) then Return (VString badShapeFallback)
          else
            c ← getProp msg (lit "content");
            callTrim c
  end.

Definition getTherapistResponse (OPENROUTER_API_KEY : option jsstring)
    (THERAPIST_PROMPT : jsstring) (userInput : jsval)
    (conversationHistory : list message) (net : fetchOutcome) (random : N)
    : completion jsval :=
  if negb (envTruthy OPENROUTER_API_KEY) then Return (VString noKeyFallback)
  else
    tryCatch
      (therapistTry THERAPIST_PROMPT userInput conversationHistory net)
      (Return (arrayAt fallbackResponses
                 (floorRandomTimes random (length fallbackResponses)))).

(** The wait for the body.  The abort timer set at line 90 is cleared at
    line 113, as soon as [fetch] has resolved with the response, that is,
    once the status line and the headers are in.  The reads of the body
    that follow, [await response.text()] (line 116) and
    [await response.json()] (line 122), have no timer of their own and
    the signal is never aborted any more: when the body never ends, they
    never settle.  So the network either lets the call settle, in one of
    the ways of [fetchOutcome], or it delivers a response, [ok] or not,
    whose body never ends. *)
Inductive network :=
| Settles (net : fetchOutcome)
| BodyNeverEnds (ok : bool).

(** The promise [getTherapistResponse] returns, as its caller sees it: what
    it settles with, or [None] when it never settles.  Without a key, and
    when building the messages throws, the function is done before the
    network matters. *)
Definition getTherapistResponsePromise (OPENROUTER_API_KEY : option jsstring)
    (THERAPIST_PROMPT : jsstring) (userInput : jsval)
    (conversationHistory : list message) (net : network) (random : N)
    : option (completion jsval) :=
  match net with
  | Settles net =>
      Some (getTherapistResponse OPENROUTER_API_KEY THERAPIST_PROMPT userInput
              conversationHistory net random)
  | BodyNeverEnds ok =>
      if negb (envTruthy OPENROUTER_API_KEY) then Some (Return (VString noKeyFallback))
      else
        match requestMessages THERAPIST_PROMPT userInput conversationHistory with
        | Throw =>
            Some (Return (arrayAt fallbackResponses
                            (floorRandomTimes random (length fallbackResponses))))
        | Return _ => None
        end
  end.

(** The strings the client answers with when it has no model reply. *)
Definition predefinedFallbacks : list jsstring :=
  noKeyFallback :: notOkFallback :: badShapeFallback :: fallbackResponses.

(** [data.choices[0].message.content], read without the guards. *)
Definition contentOf (data : jsval) : completion jsval :=
  choices ← getProp data (lit "choices");
  first ← getIndex0 choices;
  msg ← getProp first (lit "message");
  getProp msg (lit "content").

(** ** The socket handlers (server, lines 103-327) *)

Record session := Session {
  conversationHistory : list message;
  isActive : bool
}.

(** Events sent to a client. *)
Inductive emitted :=
| AiResponse (text : jsval)
| AiAudio (audio : jsstring)
| ErrorEvent (message : jsstring)
| ReadyToListen.

(** The three places that call [textToSpeech], each with its own three
    callbacks (lines 140-156, 215-228, 240-252). *)
Inductive callSite := GreetingSite | ReplySite | FallbackSite.

(** A [userSpeech] handler suspended at [await getTherapistResponse(...)]:
    its socket, the session object it holds, and the arguments of the
    call. *)
Record awaitingReply := AwaitingReply {
  aw_socket : string;
  aw_session : nat;
  aw_input : jsval;
  aw_history : list message
}.

Record serverState := ServerState {
  sessions : gmap string nat;            (* Map: socket id to session object *)
  sessionObjs : gmap nat session;        (* the session objects *)
  nextObj : nat;
  activeSynthesizers : gmap string (option handle);
  tts : ttsState;                        (* the speech module *)
  cbTable : gmap nat (string * callSite);(* the callbacks handed to it *)
  nextCb : nat;
  awaiting : gmap nat awaitingReply;
  nextAwait : nat;
  clientCalls : list (jsval * list message);
  emittedLog : list (string * emitted);
  unhandledRejections : nat              (* handlers that ended by throwing *)
}.

Definition initialServer : serverState :=
  ServerState ∅ ∅ 0 ∅ initialTts ∅ 0 ∅ 0 [] [] 0.

Definition setSessions (m : gmap string nat) (st : serverState) : serverState :=
  ServerState m (sessionObjs st) (nextObj st) (activeSynthesizers st) (tts st)
    (cbTable st) (nextCb st) (awaiting st) (nextAwait st) (clientCalls st)
    (emittedLog st) (unhandledRejections st).
Definition setSessionObjs (m : gmap nat session) (n : nat) (st : serverState)
    : serverState :=
  ServerState (sessions st) m n (activeSynthesizers st) (tts st)
    (cbTable st) (nextCb st) (awaiting st) (nextAwait st) (clientCalls st)
    (emittedLog st) (unhandledRejections st).
Definition setActiveSynthesizers (m : gmap string (option handle))
    (st : serverState) : serverState :=
  ServerState (sessions st) (sessionObjs st) (nextObj st) m (tts st)
    (cbTable st) (nextCb st) (awaiting st) (nextAwait st) (clientCalls st)
    (emittedLog st) (unhandledRejections st).
Definition setTts (t : ttsState) (st : serverState) : serverState :=
  ServerState (sessions st) (sessionObjs st) (nextObj st)
    (activeSynthesizers st) t (cbTable st) (nextCb st) (awaiting st)
    (nextAwait st) (clientCalls st) (emittedLog st) (unhandledRejections st).
Definition setCbTable (m : gmap nat (string * callSite)) (n : nat)
    (st : serverState) : serverState :=
  ServerState (sessions st) (sessionObjs st) (nextObj st)
    (activeSynthesizers st) (tts st) m n (awaiting st) (nextAwait st)
    (clientCalls st) (emittedLog st) (unhandledRejections st).
Definition setAwaiting (m : gmap nat awaitingReply) (n : nat)
    (st : serverState) : serverState :=
  ServerState (sessions st) (sessionObjs st) (nextObj st)
    (activeSynthesizers st) (tts st) (cbTable st) (nextCb st) m n
    (clientCalls st) (emittedLog st) (unhandledRejections st).
Definition logClientCall (c : jsval * list message) (st : serverState)
    : serverState :=
  ServerState (sessions st) (sessionObjs st) (nextObj st)
    (activeSynthesizers st) (tts st) (cbTable st) (nextCb st) (awaiting st)
    (nextAwait st) (clientCalls st ++ [c]) (emittedLog st)
    (unhandledRejections st).
Definition emit (id : string) (e : emitted) (st : serverState) : serverState :=
  ServerState (sessions st) (sessionObjs st) (nextObj st)
    (activeSynthesizers st) (tts st) (cbTable st) (nextCb st) (awaiting st)
    (nextAwait st) (clientCalls st) (emittedLog st ++ [(id, e)])
    (unhandledRejections st).
Definition reject (st : serverState) : serverState :=
  ServerState (sessions st) (sessionObjs st) (nextObj st)
    (activeSynthesizers st) (tts st) (cbTable st) (nextCb st) (awaiting st)
    (nextAwait st) (clientCalls st) (emittedLog st)
    (S (unhandledRejections st)).

(** What the callbacks written in the handlers do when the module invokes
    them. *)
Definition deliver (st : serverState) (made : option nat * call) : serverState :=
  let c := snd made in
  match cbTable st !! callId c with
  | None => st
  | Some (id, site) =>
      match c with
      | AudioChunk _ audioChunk => emit id (AiAudio audioChunk) st
      | Error _ error =>
          match site with
          | FallbackSite => st
          | _ => emit id (ErrorEvent (lit "Voice synthesis failed: " ++ error)) st
          end
      | Complete _ =>
          let st := setActiveSynthesizers (delete id (activeSynthesizers st)) st in
          match site with
          | GreetingSite => emit id ReadyToListen st
          | _ => st
          end
      end
  end.

(** Runs an operation of the speech module.  The callbacks it invokes touch
    the server's maps and the socket only, never the module's variables, so
    their effects are applied, in order, once the operation returns. *)
Definition withTts {A} (op : ttsState → A * ttsState) (st : serverState)
    : A * serverState :=
  let before := length (calls (tts st)) in
  let '(a, t) := op (tts st) in
  (a, foldl deliver (setTts t st) (drop before (calls t))).

(** [getRandomConversationStarter] (azureTTS, lines 86-98) *)
Definition starters : list jsstring := [
  lit "Hi there. I'm really glad you reached out today. What's been on your mind?";
  lit "Hello. It's good to connect with you. How are you feeling right now?";
  lit "Hi. Thank you for being here. What's bringing you in today?";
  lit "Hello. I'm here to listen. What would you like to share with me?";
  lit "Hi there. I appreciate you taking this step. How has your day been treating you?";
  lit "Hello. It's nice to meet you. What's been weighing on your heart lately?";
  lit "Hi. I'm glad we're having this conversation. What feels most important to talk about right now?";
  lit "Hello. Thank you for trusting me with your time. How are you holding up today?"
].

Definition getRandomConversationStarter (random : N) : jsval :=
  arrayAt starters (floorRandomTimes random (length starters)).

Definition localFallback : jsstring :=
  lit "I'm having trouble processing that. Could you please try again?".

Section Handlers.

(** The process environment: whether both speech credentials are set, the
    completion key, and the system prompt. *)
Variable credentials : bool.
Variable OPENROUTER_API_KEY : option jsstring.
Variable THERAPIST_PROMPT : jsstring.

(** [textToSpeech(text, ...)] from a handler of socket [id], followed by
    [activeSynthesizers.set(socket.id, synthesizer)]. *)
Definition speak (id : string) (site : callSite) (throws : option jsstring)
    (text : jsval) (st : serverState) : serverState :=
  let c := Callbacks (nextCb st) true true true in
  let st := setCbTable (<[nextCb st := (id, site)]> (cbTable st)) (S (nextCb st)) st in
  let '(synthesizer, st) := withTts (textToSpeech credentials throws text c) st in
  setActiveSynthesizers (<[id := synthesizer]> (activeSynthesizers st)) st.

(** [io.on('connection')] (lines 112-117) *)
Definition connection (id : string) (st : serverState) : serverState :=
  let o := nextObj st in
  let st := setSessionObjs (<[o := Session [] false]> (sessionObjs st)) (S o) st in
  setSessions (<[id := o]> (sessions st)) st.

(** [startSession] (lines 120-164) *)
Definition startSession (id : string) (random : N) (throws : option jsstring)
    (st : serverState) : serverState :=
  let '(o, st) :=
    match sessions st !! id with
    | Some o => (o, st)
    | None =>
        let o := nextObj st in
        let st :=
          setSessionObjs (<[o := Session [] false]> (sessionObjs st)) (S o) st in
        (o, setSessions (<[id := o]> (sessions st)) st)
    end in
  let st :=
    match sessionObjs st !! o with
    | Some ses =>
        setSessionObjs (<[o := Session (conversationHistory ses) true]> (sessionObjs st))
          (nextObj st) st
    | None => st
    end in
  let greetingMessage := getRandomConversationStarter random in
  let st := emit id (AiResponse greetingMessage) st in
  speak id GreetingSite throws greetingMessage st.

(** [synthesizer.stop()] on the handle stored for the socket, when there
    is one (lines 181-189). *)
Definition stopCurrent (id : string) (st : serverState) : serverState :=
  match activeSynthesizers st !! id with
  | Some (Some h) => snd (withTts (λ t, (tt, stop h t)) st)
  | _ => st
  end.

(** The argument of the [log] call that opens [userSpeech] (line 167),
    [text?.substring(0, 100)]: the optional chain stops at [undefined] and
    [null]; for any other value that is not a string, [substring] is not a
    function and the call throws. *)
Definition userSpeechLogLine (payload : jsval) : completion unit :=
  match payload with
  | VUndefined | VNull | VString _ => Return tt
  | _ => Throw
  end.

(** [userSpeech] up to its [await] (lines 166-202).  When the log line
    throws, the handler's promise rejects with nothing else done. *)
Definition userSpeech (id : string) (payload : jsval) (st : serverState)
    : serverState :=
  match userSpeechLogLine payload with
  | Throw => reject st
  | Return _ =>
  match sessions st !! id with
  | None => st
  | Some o =>
      match payload with
      | VString t =>
          if (length (trim t) =? 0)%nat || (1000 <? length t)%nat then st
          else
            let cleanText := trim t in
            if (length cleanText <? 2)%nat then st
            else
              let st := stopCurrent id st in
              match sessionObjs st !! o with
              | None => st
              | Some ses =>
                  let pushed :=
                    conversationHistory ses
                    ++ [Message user (VString (substring0 500 cleanText))] in
                  let history :=
                    if (12 <? length pushed)%nat then sliceLast 12 pushed
                    else pushed in
                  let st :=
                    setSessionObjs (<[o := Session history (isActive ses)]> (sessionObjs st))
                      (nextObj st) st in
                  let input := VString (substring0 500 cleanText) in
                  let st := logClientCall (input, history) st in
                  setAwaiting
                    (<[nextAwait st := AwaitingReply id o input history]> (awaiting st))
                    (S (nextAwait st)) st
              end
      | _ => st
      end
  end
  end.

(** The [catch] of [userSpeech] (lines 232-255). *)
Definition userSpeechCatch (id : string) (throws : option jsstring)
    (st : serverState) : serverState :=
  let st := emit id (AiResponse (VString localFallback)) st in
  speak id FallbackSite throws (VString localFallback) st.

(** [userSpeech] from the point where the awaited call number [n] settles
    (lines 202-231); [net] and [random] are what the completion client
    meets on the way. *)
Definition userSpeechResume (n : nat) (net : fetchOutcome) (random : N)
    (throws : option jsstring) (st : serverState) : serverState :=
  match awaiting st !! n with
  | None => st
  | Some a =>
      let st := setAwaiting (delete n (awaiting st)) (nextAwait st) st in
      let id := aw_socket a in
      match getTherapistResponse OPENROUTER_API_KEY THERAPIST_PROMPT
              (aw_input a) (aw_history a) net random with
      | Return aiResponse =>
          if negb (truthy aiResponse) then userSpeechCatch id throws st
          else
            let st := emit id (AiResponse aiResponse) st in
            let st :=
              match sessionObjs st !! aw_session a with
              | Some ses =>
                  setSessionObjs
                    (<[aw_session a :=
                         Session (conversationHistory ses ++ [Message assistant aiResponse])
                           (isActive ses)]> (sessionObjs st))
                    (nextObj st) st
              | None => st
              end in
            speak id ReplySite throws aiResponse st
      | Throw => userSpeechCatch id throws st
      end
  end.

(** [interruptAI] and [speechDetected] (lines 259-285) *)
Definition interruptAI (id : string) (st : serverState) : serverState :=
  match activeSynthesizers st !! id with
  | Some (Some h) =>
      let st := snd (withTts (λ t, (tt, stop h t)) st) in
      setActiveSynthesizers (delete id (activeSynthesizers st)) st
  | _ => st
  end.

Definition speechDetected (id : string) (st : serverState) : serverState :=
  interruptAI id st.

(** [endSession] and [disconnect] (lines 288-326) *)
Definition endSession (id : string) (st : serverState) : serverState :=
  let st := interruptAI id st in
  let st := snd (withTts (λ t, (tt, cleanupSynthesizer t)) st) in
  setSessions (delete id (sessions st)) st.

Definition disconnect (id : string) (st : serverState) : serverState :=
  endSession id st.

Inductive serverEvent :=
| Connection (id : string)
| StartSession (id : string) (random : N) (throws : option jsstring)
| UserSpeech (id : string) (payload : jsval)
| ReplySettles (n : nat) (net : fetchOutcome) (random : N) (throws : option jsstring)
| InterruptAI (id : string)
| SpeechDetected (id : string)
| EndSession (id : string)
| Disconnect (id : string)
| SdkAnswers (k : nat) (result : speakResult)
| SdkFails (k : nat) (error : jsstring)
| Timer (throws : option jsstring).

Definition serverStep (st : serverState) (e : serverEvent) : serverState :=
  match e with
  | Connection id => connection id st
  | StartSession id random throws => startSession id random throws st
  | UserSpeech id payload => userSpeech id payload st
  | ReplySettles n net random throws => userSpeechResume n net random throws st
  | InterruptAI id => interruptAI id st
  | SpeechDetected id => speechDetected id st
  | EndSession id => endSession id st
  | Disconnect id => disconnect id st
  | SdkAnswers k result =>
      snd (withTts (λ t, (tt, ttsStep credentials t (SdkResult k result))) st)
  | SdkFails k error =>
      snd (withTts (λ t, (tt, ttsStep credentials t (SdkError k error))) st)
  | Timer throws =>
      snd (withTts (λ t, (tt, ttsStep credentials t (TimerFires throws))) st)
  end.

Definition serverRun (st : serverState) (es : list serverEvent) : serverState :=
  foldl serverStep st es.

(** The history of the session registered for a socket. *)
Definition historyOf (id : string) (st : serverState) : option (list message) :=
  o ← sessions st !! id; conversationHistory <$> sessionObjs st !! o.

End Handlers.

(** ** Notions used in the proofs

    A summary of what one event does to the closures, the queue and the
    record of invocations, and the predicates the invariants are stated
    with. *)

Local Open Scope nat_scope.

(** The callbacks a call of [textToSpeechInternal] invokes before it
    returns. *)
Definition startCalls (throws : option jsstring) (c : callbacks) (k : nat)
    : list (option nat * call) :=
  match throws with
  | None => []
  | Some m =>
      (if onError c then [(Some k, Error (cb_id c) (lit "Exception: " ++ m))] else [])
      ++ (if onComplete c then [(Some k, Complete (cb_id c))] else [])
  end.

Definition completeCall (k : nat) (c : callbacks) : list (option nat * call) :=
  if onComplete c then [(Some k, Complete (cb_id c))] else [].

Definition resultCalls (k : nat) (cl : closure) (r : speakResult)
    : list (option nat * call) :=
  match reason r with
  | SynthesizingAudioCompleted =>
      if isInterrupted cl then []
      else match audioData r with
           | Some (b :: bytes) =>
               if onAudioChunk (cl_cbs cl)
               then [(Some k, AudioChunk (cb_id (cl_cbs cl)) (base64 (b :: bytes)))]
               else []
           | _ => []
           end
  | OtherReason printed =>
      if onError (cl_cbs cl)
      then [(Some k, Error (cb_id (cl_cbs cl)) (lit "Speech synthesis failed: " ++ printed))]
      else []
  end.

Definition errorCalls (k : nat) (cl : closure) (error : jsstring)
    : list (option nat * call) :=
  if onError (cl_cbs cl)
  then [(Some k, Error (cb_id (cl_cbs cl)) (lit "TTS Error: " ++ error))]
  else [].

(** What one event does to the closures, the queue and the record of
    invocations. *)
Inductive coreStep (s s' : ttsState) : ttsEvent → Prop :=
| core_quiet e :
    closures s' = closures s → nextClosure s' = nextClosure s →
    requestQueue s' = requestQueue s → calls s' = calls s →
    coreStep s s' e
| core_refuse throws text c msg :
    closures s' = closures s → nextClosure s' = nextClosure s →
    requestQueue s' = requestQueue s →
    calls s' = calls s ++ [(None, Error (cb_id c) msg)] →
    coreStep s s' (Submit throws text c)
| core_enqueue throws t c :
    closures s' = closures s → nextClosure s' = nextClosure s →
    requestQueue s' = requestQueue s ++ [Request t c] → calls s' = calls s →
    coreStep s s' (Submit throws (VString t) c)
| core_start throws text c y :
    closures s' = <[nextClosure s := Closure c y false]> (closures s) →
    nextClosure s' = S (nextClosure s) →
    requestQueue s' = requestQueue s →
    calls s' = calls s ++ startCalls throws c (nextClosure s) →
    coreStep s s' (Submit throws text c)
| core_promote throws q rest y :
    requestQueue s = q :: rest →
    closures s' = <[nextClosure s := Closure (cbs q) y false]> (closures s) →
    nextClosure s' = S (nextClosure s) →
    requestQueue s' = rest →
    calls s' = calls s ++ startCalls throws (cbs q) (nextClosure s) →
    coreStep s s' (TimerFires throws)
| core_stop k cl :
    closures s !! k = Some cl → isInterrupted cl = false →
    closures s' = <[k := Closure (cl_cbs cl) (cl_synthesizer cl) true]> (closures s) →
    nextClosure s' = nextClosure s →
    requestQueue s' = requestQueue s →
    calls s' = calls s ++ completeCall k (cl_cbs cl) →
    coreStep s s' (StopEv (StopHandle k))
| core_result k cl r :
    closures s !! k = Some cl →
    closures s' = closures s → nextClosure s' = nextClosure s →
    requestQueue s' = requestQueue s →
    calls s' = calls s ++ resultCalls k cl r ++ completeCall k (cl_cbs cl) →
    coreStep s s' (SdkResult k r)
| core_error k cl error :
    closures s !! k = Some cl →
    closures s' = closures s → nextClosure s' = nextClosure s →
    requestQueue s' = requestQueue s →
    calls s' = calls s ++ errorCalls k cl error ++ completeCall k (cl_cbs cl) →
    coreStep s s' (SdkError k error)
| core_clear :
    closures s' = closures s → nextClosure s' = nextClosure s →
    requestQueue s' = [] → calls s' = calls s →
    coreStep s s' CleanupSynthesizer.

(** Closures are numbered in the order they are made. *)
Definition closuresFresh (s : ttsState) : Prop :=
  ∀ k, is_Some (closures s !! k) → k < nextClosure s.

(** [stop] has run on the handle of call number [k]. *)
Definition stopped (k : nat) (s : ttsState) : Prop :=
  ∃ cl, closures s !! k = Some cl ∧ isInterrupted cl = true.

(** The SDK reports a failure for call number [k]: its error callback, or
    a result whose reason is not [SynthesizingAudioCompleted]. *)
Definition reportsFailure (k : nat) (e : ttsEvent) : Prop :=
  match e with
  | SdkError k' _ => k' = k
  | SdkResult k' r => k' = k ∧ reason r ≠ SynthesizingAudioCompleted
  | _ => False
  end.

(** Sample inputs for the concrete runs. *)
Definition sampleCallbacks (id : nat) : callbacks := Callbacks id true true true.

Definition completedWithAudio : speakResult :=
  SpeakResult SynthesizingAudioCompleted (Some [73; 68; 51]%N).

(** The SDK's [Canceled] reason, which a template literal prints as 1. *)
Definition canceledResult : speakResult :=
  SpeakResult (OtherReason (lit "1")) None.

(** A well-shaped body of the completion API. *)
Definition okReply (reply : string) : fetchOutcome :=
  RespondsOk (Some (VObject [(lit "choices",
    VArray [VObject [(lit "message",
      VObject [(lit "content", VString (lit reply))])]])])).

(** One exchange on socket [a]: an utterance, then the reply of the
    completion API for the call it made. *)
Definition exchange (n : nat) : list serverEvent :=
  [UserSpeech "a" (VString (lit "I feel anxious today"));
   ReplySettles n (okReply "That sounds heavy.") 0%N None].

Definition sevenExchanges : list serverEvent :=
  Connection "a"
  :: exchange 0 ++ exchange 1 ++ exchange 2 ++ exchange 3 ++ exchange 4
  ++ exchange 5 ++ exchange 6.

(** No closure and no invocation carries the callbacks numbered [a]. *)
Definition unstarted (a : nat) (s : ttsState) : Prop :=
  (∀ k cl, closures s !! k = Some cl → cb_id (cl_cbs cl) ≠ a)
  ∧ (∀ x, x ∈ calls s → callId x.2 ≠ a).

(** The callbacks numbered [a] are nowhere in the module. *)
Definition cbIdAbsent (a : nat) (s : ttsState) : Prop :=
  unstarted a s ∧ ∀ q, q ∈ requestQueue s → cb_id (cbs q) ≠ a.

(** Callbacks are numbered below [n]; the queued requests carry distinct
    callbacks, none of which has been started or invoked. *)
Definition queueInv (n : nat) (s : ttsState) : Prop :=
  (∀ k cl, closures s !! k = Some cl → cb_id (cl_cbs cl) < n)
  ∧ (∀ x, x ∈ calls s → callId x.2 < n)
  ∧ (∀ q, q ∈ requestQueue s → cb_id (cbs q) < n ∧ unstarted (cb_id (cbs q)) s)
  ∧ NoDup ((λ q, cb_id (cbs q)) <$> requestQueue s).

Definition notSubmit (e : ttsEvent) : Prop :=
  match e with Submit _ _ _ => False | _ => True end.

Definition submitsOtherThan (a : nat) (e : ttsEvent) : Prop :=
  match e with Submit _ _ c => cb_id c ≠ a | _ => True end.
(** What a handler does to the module: a run of events without a
    submission, or one submission with callbacks of the next number. *)
Definition moduleTrace (creds : bool) (st st' : serverState) : Prop :=
  (∃ es, Forall notSubmit es ∧ tts st' = ttsRun creds (tts st) es
         ∧ nextCb st' = nextCb st)
  ∨ (∃ throws text,
       tts st' = ttsStep creds (tts st)
                   (Submit throws text (Callbacks (nextCb st) true true true))
       ∧ nextCb st' = S (nextCb st)).

(** The inverse of the escape, used to show that escaping loses nothing:
    an entity reference is read back as its character. *)
Fixpoint unescapeXml (s : jsstring) : jsstring :=
  match s with
  | 38 :: 97 :: 109 :: 112 :: 59 :: rest => AMP :: unescapeXml rest
  | 38 :: 108 :: 116 :: 59 :: rest => LT :: unescapeXml rest
  | 38 :: 103 :: 116 :: 59 :: rest => GT :: unescapeXml rest
  | c :: rest => c :: unescapeXml rest
  | [] => []
  end%N.

(** The synthesizer a call of [textToSpeechInternal] obtains in state [s]:
    the persistent one, or the next to be made. *)
Definition synthesizerFor (s : ttsState) : nat :=
  default (nextSynthesizer s) (persistentSynthesizer s).

(** What one event does to the synthesizer objects: the calls it adds to the
    record of SDK calls, with the persistent synthesizer, the voice and the
    object counter before and after. *)
Inductive sdkStep (s s' : ttsState) : Prop :=
| sdk_quiet :
    sdkLog s' = sdkLog s →
    persistentSynthesizer s' = persistentSynthesizer s →
    currentVoiceGender s' = currentVoiceGender s →
    nextSynthesizer s' = nextSynthesizer s →
    sdkStep s s'
| sdk_stopSpeaking y :
    sdkLog s' = sdkLog s ++ [StopSpeakingAsync y] →
    persistentSynthesizer s' = persistentSynthesizer s →
    currentVoiceGender s' = currentVoiceGender s →
    nextSynthesizer s' = nextSynthesizer s →
    sdkStep s s'
| sdk_speak_reused y m text k :
    persistentSynthesizer s = Some y →
    sdkLog s'
    = sdkLog s ++ [SpeakSsmlAsync y (generateOptimizedSSML (currentVoiceGender s) m text) k] →
    persistentSynthesizer s' = Some y →
    currentVoiceGender s' = currentVoiceGender s →
    nextSynthesizer s' = nextSynthesizer s →
    sdkStep s s'
| sdk_speak_new m text k :
    persistentSynthesizer s = None →
    sdkLog s'
    = sdkLog s
      ++ [NewSynthesizer (nextSynthesizer s) (voiceNameOf (currentVoiceGender s));
          SpeakSsmlAsync (nextSynthesizer s)
            (generateOptimizedSSML (currentVoiceGender s) m text) k] →
    persistentSynthesizer s' = Some (nextSynthesizer s) →
    currentVoiceGender s' = currentVoiceGender s →
    nextSynthesizer s' = S (nextSynthesizer s) →
    sdkStep s s'
| sdk_discard y :
    persistentSynthesizer s = Some y →
    sdkLog s' = sdkLog s ++ [Close y] →
    persistentSynthesizer s' = None →
    nextSynthesizer s' = nextSynthesizer s →
    sdkStep s s'
| sdk_revoice :
    persistentSynthesizer s = None →
    sdkLog s' = sdkLog s →
    persistentSynthesizer s' = None →
    nextSynthesizer s' = nextSynthesizer s →
    sdkStep s s'.

(** Every speak operation in a record of SDK calls was issued on a
    synthesizer that had been made with the voice its markup names, and that
    had not been closed. *)
Definition speaksMatchVoice (log : list sdkCall) : Prop :=
  ∀ before y ssml k after,
    log = before ++ SpeakSsmlAsync y ssml k :: after →
    ∃ g m text,
      ssml = generateOptimizedSSML g m text
      ∧ NewSynthesizer y (voiceNameOf g) ∈ before
      ∧ Close y ∉ before.

(** The invariant behind it: synthesizer objects are numbered in the order
    they are made, each is made once, and the persistent one was made with
    the current voice and has not been closed. *)
Definition voiceInv (s : ttsState) : Prop :=
  (∀ y v, NewSynthesizer y v ∈ sdkLog s → y < nextSynthesizer s)
  ∧ (∀ y, Close y ∈ sdkLog s → y < nextSynthesizer s)
  ∧ (∀ y, persistentSynthesizer s = Some y →
       NewSynthesizer y (voiceNameOf (currentVoiceGender s)) ∈ sdkLog s
       ∧ Close y ∉ sdkLog s)
  ∧ speaksMatchVoice (sdkLog s)
  ∧ (∀ y v v', NewSynthesizer y v ∈ sdkLog s → NewSynthesizer y v' ∈ sdkLog s →
       v = v').

(** The parts of the server's state that no callback and no operation of
    the speech module can change. *)
Definition registry (st : serverState)
    : gmap string nat * gmap nat session * nat * gmap nat awaitingReply * nat
      * list (jsval * list message) * nat :=
  (sessions st, sessionObjs st, nextObj st, awaiting st, nextAwait st,
   clientCalls st, unhandledRejections st).

(** The socket an event of the server belongs to: the socket whose handler
    runs; for the settling of a completion call, the socket whose handler
    awaits it.  The SDK's answers and the timers belong to no socket. *)
Definition eventSocket (st : serverState) (e : serverEvent) : option string :=
  match e with
  | Connection id | StartSession id _ _ | UserSpeech id _ | InterruptAI id
  | SpeechDetected id | EndSession id | Disconnect id => Some id
  | ReplySettles n _ _ _ => aw_socket <$> awaiting st !! n
  | SdkAnswers _ _ | SdkFails _ _ | Timer _ => None
  end.

(** What one event does to the sessions: nothing; a new session object for
    a socket; a change of the object registered for a socket, possibly with
    a completion call now awaited; the settling of an awaited call, which
    changes at most the object its handler holds; the removal of a socket's
    entry. *)
Inductive regStep (st st' : serverState) : option string → Prop :=
| reg_frame w :
    sessions st' = sessions st → sessionObjs st' = sessionObjs st →
    nextObj st' = nextObj st → awaiting st' = awaiting st →
    regStep st st' w
| reg_create id :
    sessions st' = <[id := nextObj st]> (sessions st) →
    (∀ o, o ≠ nextObj st → sessionObjs st' !! o = sessionObjs st !! o) →
    nextObj st' = S (nextObj st) → awaiting st' = awaiting st →
    regStep st st' (Some id)
| reg_update id o :
    sessions st !! id = Some o →
    sessions st' = sessions st →
    (∀ o', o' ≠ o → sessionObjs st' !! o' = sessionObjs st !! o') →
    nextObj st' = nextObj st →
    (awaiting st' = awaiting st
     ∨ ∃ k input hist,
         awaiting st' = <[k := AwaitingReply id o input hist]> (awaiting st)) →
    regStep st st' (Some id)
| reg_settle n a :
    awaiting st !! n = Some a →
    sessions st' = sessions st →
    (∀ o', o' ≠ aw_session a → sessionObjs st' !! o' = sessionObjs st !! o') →
    nextObj st' = nextObj st →
    awaiting st' = delete n (awaiting st) →
    regStep st st' (Some (aw_socket a))
| reg_remove id :
    sessions st' = delete id (sessions st) →
    sessionObjs st' = sessionObjs st →
    nextObj st' = nextObj st → awaiting st' = awaiting st →
    regStep st st' (Some id).

(** Session objects are never shared: every registered object was made
    before now, no two sockets are registered with the same object, and the
    object held by a handler that awaits a completion call is registered,
    if at all, for that handler's socket. *)
Definition sessionsInv (st : serverState) : Prop :=
  (∀ id o, sessions st !! id = Some o → o < nextObj st)
  ∧ (∀ id id' o,
       sessions st !! id = Some o → sessions st !! id' = Some o → id = id')
  ∧ (∀ n a, awaiting st !! n = Some a → aw_session a < nextObj st)
  ∧ (∀ n a id,
       awaiting st !! n = Some a → sessions st !! id = Some (aw_session a) →
       id = aw_socket a).

(** ** The rate limiter of the HTTP endpoints (server, lines 345-364)

    [requestCounts] maps a client address to the times of its accepted
    requests; times are what [Date.now()] returns, in milliseconds. *)

Definition RATE_LIMIT_WINDOW : Z := 60000.
Definition RATE_LIMIT_MAX : nat := 10.

(** [checkRateLimit(ip)] at time [now]: the verdict and the map afterwards. *)
Definition checkRateLimit (ip : string) (now : Z)
    (requestCounts : gmap string (list Z)) : bool * gmap string (list Z) :=
  let userRequests := default [] (requestCounts !! ip) in
  let validRequests :=
    filter (λ time, (now - time < RATE_LIMIT_WINDOW)%Z) userRequests in
  if RATE_LIMIT_MAX <=? length validRequests then (false, requestCounts)
  else (true, <[ip := validRequests ++ [now]]> requestCounts).

(** A run of the limiter: the map, and the requests it accepted so far. *)
Definition rateStep (st : gmap string (list Z) * list (string * Z))
    (req : string * Z) : gmap string (list Z) * list (string * Z) :=
  let '(ok, requestCounts) := checkRateLimit req.1 req.2 st.1 in
  (requestCounts, if ok then st.2 ++ [req] else st.2).

Definition rateRun (reqs : list (string * Z))
    : gmap string (list Z) * list (string * Z) :=
  foldl rateStep (∅, []) reqs.

Definition acceptedTimes (ip : string) (log : list (string * Z)) : list Z :=
  (filter (λ r, r.1 = ip) log).*2.

(** What the limiter remembers of an address agrees with the accepted
    requests of that address, as far as a request at [c] or later can
    tell. *)
Definition rateInv (ip : string) (c : Z)
    (st : gmap string (list Z) * list (string * Z)) : Prop :=
  (∀ now, (c ≤ now)%Z →
     filter (λ t, (now - t < RATE_LIMIT_WINDOW)%Z) (default [] (st.1 !! ip))
     = filter (λ t, (now - t < RATE_LIMIT_WINDOW)%Z) (acceptedTimes ip st.2))
  ∧ (∀ lo,
       length (filter (λ t, (lo ≤ t < lo + RATE_LIMIT_WINDOW)%Z)
                 (acceptedTimes ip st.2))
       ≤ RATE_LIMIT_MAX).


(** ** The voice endpoints (server, lines 367-454; azureTTS, lines 37-47) *)

(** [a === 'literal'] and [[...].includes(a)] for an array of string
    literals. *)
Definition strictEqString (v : jsval) (s : jsstring) : bool :=
  match v with
  | VString n => bool_decide (n = s)
  | _ => false
  end.

Definition includes (xs : list jsstring) (v : jsval) : bool :=
  existsb (strictEqString v) xs.

(** [a || b] *)
Definition jsOr (a b : jsval) : jsval := if truthy a then a else b.

Record voiceConfig := VoiceConfig {
  vc_gender : gender;
  vc_name : jsstring;
  vc_style : jsstring;
  vc_performanceMode : performanceMode;
  vc_description : jsstring
}.

(** [getCurrentVoiceConfig] (azureTTS, lines 37-47) *)
Definition getCurrentVoiceConfig (s : ttsState) : voiceConfig :=
  VoiceConfig (currentVoiceGender s)
    (match currentVoiceGender s with
     | female => lit "en-US-AvaNeural"
     | male => lit "en-US-AndrewNeural"
     end)
    (match currentVoiceGender s with
     | female => lit "warm"
     | male => lit "friendly"
     end)
    (currentPerformanceMode s)
    (match currentVoiceGender s with
     | female => lit "Warm, empathetic female therapist with natural intonation"
     | male => lit "Warm, compassionate male therapist with conversational tone"
     end).

(** The [message] of a response: a literal, or one of the two templates
    with the values that fill it. *)
Inductive responseMessage :=
| Text (s : jsstring)
| VoiceSwitched (g m : jsval)   (* Voice switched to ${g} with ${m} performance mode *)
| ModeSwitched (m : jsval).     (* Performance mode switched to ${m} *)

(** The JSON of a response: [{success: false, message}],
    [{success: false, error: error.message}] (the text of the engine's
    error is not modelled), [{success: true, message, voiceConfig}]. *)
Inductive responseBody :=
| Failure (message : responseMessage)
| ServerError
| Success (message : responseMessage) (config : voiceConfig).

Record response := Response {
  status : nat;
  body : responseBody
}.

(** What the endpoints work on: the limiter's map and the speech module. *)
Record httpState := HttpState {
  requestCounts : gmap string (list Z);
  voice : ttsState
}.

Definition tooManyRequests : response :=
  Response 429 (Failure (Text (lit "Too many requests. Please wait a moment."))).

Definition invalidMode : response :=
  Response 400
    (Failure (Text (tpl "Invalid performance mode. Must be 'fast', 'balanced', or 'quality'"))).

Definition performanceModes : list jsstring :=
  [lit "fast"; lit "balanced"; lit "quality"].

(** [POST /api/voice/switch] (lines 367-416); [reqBody] is [req.body], [ip]
    the client address and [now] the time of the request. *)
Definition voiceSwitch (ip : string) (now : Z) (reqBody : jsval) (h : httpState)
    : response * httpState :=
  let '(ok, counts) := checkRateLimit ip now (requestCounts h) in
  let h := HttpState counts (voice h) in
  if negb ok then (tooManyRequests, h)
  else
    let attempt : completion (response * httpState) :=
      gender ← getProp reqBody (lit "gender");
      performanceMode ← getProp reqBody (lit "performanceMode");
      if truthy gender
         && (negb (strictEqString gender (lit "male"))
             && negb (strictEqString gender (lit "female")))
      then
        Return
          (Response 400
             (Failure (Text (tpl "Invalid gender. Must be 'male' or 'female'"))), h)
      else if truthy performanceMode && negb (includes performanceModes performanceMode)
      then Return (invalidMode, h)
      else
        let s := voice h in
        let s := if truthy gender then setVoiceGender gender s else s in
        let s := if truthy performanceMode then setPerformanceMode performanceMode s else s in
        let currentConfig := getCurrentVoiceConfig s in
        Return
          (Response 200
             (Success
                (VoiceSwitched (jsOr gender (VString (lit "current")))
                   (jsOr performanceMode (VString (lit "current"))))
                currentConfig),
           HttpState (requestCounts h) s) in
    match attempt with
    | Return r => r
    | Throw => (Response 500 ServerError, h)
    end.

(** [POST /api/voice/performance] (lines 419-454) *)
Definition voicePerformance (ip : string) (now : Z) (reqBody : jsval)
    (h : httpState) : response * httpState :=
  let '(ok, counts) := checkRateLimit ip now (requestCounts h) in
  let h := HttpState counts (voice h) in
  if negb ok then (tooManyRequests, h)
  else
    let attempt : completion (response * httpState) :=
      mode ← getProp reqBody (lit "mode");
      if negb (truthy mode) || negb (includes performanceModes mode)
      then Return (invalidMode, h)
      else
        let s := setPerformanceMode mode (voice h) in
        let currentConfig := getCurrentVoiceConfig s in
        Return
          (Response 200 (Success (ModeSwitched mode) currentConfig),
           HttpState (requestCounts h) s) in
    match attempt with
    | Return r => r
    | Throw => (Response 500 ServerError, h)
    end.

(** The values the module variables [currentVoiceGender] and
    [currentPerformanceMode] hold. *)
Definition genderName (g : gender) : jsstring :=
  match g with female => lit "female" | male => lit "male" end.

Definition modeName (m : performanceMode) : jsstring :=
  match m with
  | FAST => lit "fast"
  | BALANCED => lit "balanced"
  | QUALITY => lit "quality"
  end.

(** The module never waits for nothing: while it is busy the SDK owes it an
    answer; while a request is queued the module is busy or a timer is set;
    and every call the SDK owes an answer for has its closure. *)
Definition liveInv (s : ttsState) : Prop :=
  (isSynthesizerBusy s = true → outstanding s ≠ [])
  ∧ (requestQueue s ≠ [] → isSynthesizerBusy s = true ∨ 0 < timers s)
  ∧ (∀ k, k ∈ outstanding s → is_Some (closures s !! k)).

Local Open Scope N_scope.

(** The pause marker quality mode puts before a full stop, a comma or an
    exclamation mark, each followed by the character itself. *)
Definition pauseMark (x : N) : jsstring :=
  (if decide (x = 46) then tpl "<break time='150ms'/>"
   else if decide (x = 44) then tpl "<break time='100ms'/>"
   else if decide (x = 33) then tpl "<break time='150ms'/>"
   else []) ++ [x].

Local Open Scope nat_scope.

(* ===================================================================== *)
(** * Part II.  Properties                                                *)
(* ===================================================================== *)

Local Open Scope N_scope.

(** Literals and generated strings stay folded under [simpl]. *)
#[global] Arguments lit : simpl never.
#[global] Arguments tpl : simpl never.
#[global] Arguments base64 : simpl never.
#[global] Arguments generateOptimizedSSML : simpl never.
#[global] Arguments substring0 : simpl never.
#[global] Arguments trim : simpl never.
#[global] Arguments sliceLast : simpl never.

(** ** Markup escaping *)

Example escapeXml_example :
  escapeXml (lit "a<b & c>d") = lit "a&lt;b &amp; c&gt;d".
Proof. vm_compute. reflexivity. Qed.

Example processText_example :
  processText (lit "Hello, world! ok? ok?")
  = tpl "Hello<break time='100ms'/>, world<break time='150ms'/>! ok<break time='200ms'/>? ok?".
Proof. vm_compute. reflexivity. Qed.

Example generateOptimizedSSML_fast_example :
  generateOptimizedSSML female FAST (lit "1 < 2")
  = tpl "<speak version='1.0' xml:lang='en-US'><voice name='en-US-AvaNeural'>1 &lt; 2</voice></speak>".
Proof. vm_compute. reflexivity. Qed.

(** The structural check is not vacuous: text embedded without escaping,
    and a tag closed by another name, are both refused. *)
Example wellFormed_refuses_raw_text :
  wellFormed (ssmlPrefix female FAST ++ lit "a<b & c" ++ ssmlSuffix FAST) = false.
Proof. vm_compute. reflexivity. Qed.

Example wellFormed_refuses_mismatch : wellFormed (lit "<a>x</b>") = false.
Proof. vm_compute. reflexivity. Qed.

Example trim_example : trim (lit "  hi there ") = lit "hi there".
Proof. vm_compute. reflexivity. Qed.

Example base64_example :
  base64 [77; 97; 110] = lit "TWFu" ∧ base64 [77; 97] = lit "TWE="
  ∧ base64 [77] = lit "TQ==".
Proof. vm_compute. done. Qed.

Lemma replaceAll_nil c r : replaceAll c r [] = [].
Proof. reflexivity. Qed.

Lemma replaceAll_cons c r x s :
  replaceAll c r (x :: s) = (if decide (x = c) then r else [x]) ++ replaceAll c r s.
Proof. reflexivity. Qed.

Lemma replaceAll_app c r s1 s2 :
  replaceAll c r (s1 ++ s2) = replaceAll c r s1 ++ replaceAll c r s2.
Proof. unfold replaceAll. apply bind_app. Qed.

Lemma replaceAll_absent c r s : c ∉ s → replaceAll c r s = s.
Proof.
  induction s as [|x s IH]; intros Hc; [reflexivity|].
  rewrite replaceAll_cons, IH by set_solver.
  destruct (decide (x = c)) as [->|]; [set_solver | reflexivity].
Qed.

Lemma escapeXml_cons x text : escapeXml (x :: text) = escapeChar x ++ escapeXml text.
Proof.
  unfold escapeXml, escapeChar.
  rewrite (replaceAll_cons AMP), !replaceAll_app. f_equal.
  destruct (decide (x = AMP)) as [->|Hamp]; [reflexivity|].
  rewrite (replaceAll_cons LT), replaceAll_nil.
  destruct (decide (x = LT)) as [->|Hlt]; [reflexivity|].
  rewrite app_nil_r, (replaceAll_cons GT), replaceAll_nil.
  destruct (decide (x = GT)) as [->|Hgt]; reflexivity.
Qed.

(** The three chained replacements compute the per-character escape: the
    ampersands of the input are replaced before any entity is written, so no
    entity is escaped a second time. *)
Lemma escapeXml_per_char text : escapeXml text = text ≫= escapeChar.
Proof.
  induction text as [|x text IH]; [reflexivity|].
  rewrite escapeXml_cons, IH. reflexivity.
Qed.

Lemma escapeChar_no_angle x c : c ∈ escapeChar x → c ≠ LT ∧ c ≠ GT.
Proof.
  unfold escapeChar.
  destruct (decide (x = AMP)); [|destruct (decide (x = LT)); [|destruct (decide (x = GT))]];
    intros Hc.
  1-3: vm_compute in Hc; repeat (apply elem_of_cons in Hc as [->|Hc]; [split; discriminate|]);
       by apply elem_of_nil in Hc.
  apply list_elem_of_singleton in Hc as ->. done.
Qed.

Lemma escapeXml_no_angle text c : c ∈ escapeXml text → c ≠ LT ∧ c ≠ GT.
Proof.
  rewrite escapeXml_per_char. intros (x & Hc & _)%list_elem_of_bind.
  by eapply escapeChar_no_angle.
Qed.

Lemma charData_app s1 s2 : charData s1 → charData s2 → charData (s1 ++ s2).
Proof.
  induction 1 as [|c s ? ? ? _ IH|t s Ht _ IH]; intros H2; simpl.
  - done.
  - constructor; auto.
  - rewrite <- app_assoc. constructor; auto.
Qed.

Lemma charData_escapeChar x : charData (escapeChar x).
Proof.
  unfold escapeChar.
  destruct (decide (x = AMP)); [|destruct (decide (x = LT)); [|destruct (decide (x = GT))]].
  1-3: match goal with |- charData ?t => rewrite <- (app_nil_r t) end;
       apply charData_token; [|constructor]; vm_compute; set_solver.
  repeat constructor; done.
Qed.

Lemma charData_escapeXml text : charData (escapeXml text).
Proof.
  induction text as [|x text IH]; [constructor|].
  rewrite escapeXml_cons. apply charData_app; [apply charData_escapeChar | done].
Qed.

Lemma pauseChar_not_in_token c t :
  c ∈ pauseChars → t ∈ entityRefs ++ breakTags → c ∉ t.
Proof.
  intros Hc Ht.
  repeat (apply elem_of_cons in Hc as [->|Hc]); [..|by apply elem_of_nil in Hc];
    vm_compute in Ht;
    repeat (apply elem_of_cons in Ht as [->|Ht]); try (by apply elem_of_nil in Ht);
    intros Hin;
    repeat (apply elem_of_cons in Hin as [Hin|Hin]; [discriminate|]);
    by apply elem_of_nil in Hin.
Qed.

Lemma pauseChar_not_reserved c : c ∈ pauseChars → c ≠ LT ∧ c ≠ GT ∧ c ≠ AMP.
Proof.
  intros Hc.
  repeat (apply elem_of_cons in Hc as [->|Hc]); [..|by apply elem_of_nil in Hc]; done.
Qed.

Lemma charData_replaceAll c r s :
  c ∈ pauseChars → charData r → charData s → charData (replaceAll c r s).
Proof.
  intros Hc Hr. induction 1 as [|x s ? ? ? _ IH|t s Ht _ IH].
  - constructor.
  - rewrite replaceAll_cons. destruct (decide (x = c)).
    + by apply charData_app.
    + by constructor.
  - rewrite replaceAll_app, (replaceAll_absent c r t)
      by (by apply pauseChar_not_in_token).
    by constructor.
Qed.

Lemma replaceFirst_app_absent c r t s :
  c ∉ t → replaceFirst c r (t ++ s) = t ++ replaceFirst c r s.
Proof.
  induction t as [|x t IH]; intros Hc; [reflexivity|]. simpl.
  destruct (decide (x = c)) as [->|]; [set_solver|].
  rewrite IH by set_solver. reflexivity.
Qed.

Lemma charData_replaceFirst c r s :
  c ∈ pauseChars → charData r → charData s → charData (replaceFirst c r s).
Proof.
  intros Hc Hr. induction 1 as [|x s ? ? ? Hs IH|t s Ht Hs IH].
  - constructor.
  - simpl. destruct (decide (x = c)).
    + by apply charData_app.
    + by constructor.
  - rewrite replaceFirst_app_absent by (by apply pauseChar_not_in_token).
    by constructor.
Qed.

Lemma charData_pause_marker t c :
  t ∈ breakTags → c ∈ pauseChars → charData (t ++ [c]).
Proof.
  intros Ht Hc. apply charData_token; [apply elem_of_app; by right|].
  destruct (pauseChar_not_reserved c Hc) as (? & ? & ?). repeat constructor; done.
Qed.

Lemma charData_processText s : charData s → charData (processText s).
Proof.
  intros Hs. unfold processText.
  apply charData_replaceAll; [vm_compute; set_solver| |].
  { apply (charData_pause_marker (tpl "<break time='150ms'/>") 33); vm_compute; set_solver. }
  apply charData_replaceAll; [vm_compute; set_solver| |].
  { apply (charData_pause_marker (tpl "<break time='100ms'/>") 44); vm_compute; set_solver. }
  apply charData_replaceAll; [vm_compute; set_solver| |].
  { apply (charData_pause_marker (tpl "<break time='150ms'/>") 46); vm_compute; set_solver. }
  apply charData_replaceFirst; [vm_compute; set_solver| |done].
  apply (charData_pause_marker (tpl "<break time='200ms'/>") 63); vm_compute; set_solver.
Qed.

Lemma scanFrom_app o s1 s2 : scanFrom o (s1 ++ s2) = scanFrom (scanFrom o s1) s2.
Proof. apply foldl_app. Qed.

Lemma scan_token t top σ r :
  t ∈ entityRefs ++ breakTags →
  scanFrom (Some (ScanState (top :: σ) r InText)) t
  = Some (ScanState (top :: σ) r InText).
Proof.
  intros Ht. vm_compute in Ht.
  repeat (apply elem_of_cons in Ht as [->|Ht]); try (by apply elem_of_nil in Ht);
    reflexivity.
Qed.

(** Inside an element, the scanner crosses character data without changing
    its state. *)
Lemma scan_content s top σ r rest :
  charData s →
  scanFrom (Some (ScanState (top :: σ) r InText)) (s ++ rest)
  = scanFrom (Some (ScanState (top :: σ) r InText)) rest.
Proof.
  induction 1 as [|c s Hlt Hgt Hamp _ IH|t s Ht _ IH].
  - reflexivity.
  - simpl. rewrite <- IH. unfold scanFrom at 1. simpl. unfold scanStep. simpl.
    rewrite !decide_False by done. reflexivity.
  - rewrite <- app_assoc, scanFrom_app, scan_token by done. exact IH.
Qed.

Lemma scan_prefix g m :
  ∃ top σ,
    scanFrom (Some (ScanState [] 0 InText)) (ssmlPrefix g m)
    = Some (ScanState (top :: σ) 1 InText)
    ∧ scanFrom (Some (ScanState (top :: σ) 1 InText)) (ssmlSuffix m)
      = Some (ScanState [] 1 InText).
Proof. destruct g, m; eexists _, _; split; vm_compute; reflexivity. Qed.

Lemma wellFormed_around_charData g m body :
  charData body → wellFormed (ssmlPrefix g m ++ body ++ ssmlSuffix m) = true.
Proof.
  intros Hbody. destruct (scan_prefix g m) as (top & σ & Hpre & Hsuf).
  unfold wellFormed. rewrite scanFrom_app, Hpre, scan_content, Hsuf by done.
  reflexivity.
Qed.

(** C9.  For every input text, both voices and each of the three
    performance modes: the text is embedded in its escaped form, in which
    each character was replaced on its own ([&] by [&amp;], [<] by [&lt;],
    [>] by [&gt;], any other character kept), so that no angle bracket of
    the input reaches the markup; and the generated markup passes the
    structural check (tags nest and close, every ampersand starts an entity
    reference). *)
Theorem generateOptimizedSSML_escapes (g : gender) (m : performanceMode)
    (text : jsstring) :
  escapeXml text = text ≫= escapeChar
  ∧ (∀ c, c ∈ escapeXml text → c ≠ LT ∧ c ≠ GT)
  ∧ generateOptimizedSSML g m text
    = ssmlPrefix g m
      ++ (match m with
          | QUALITY => processText (escapeXml text)
          | _ => escapeXml text
          end)
      ++ ssmlSuffix m
  ∧ wellFormed (generateOptimizedSSML g m text) = true.
Proof.
  split; [apply escapeXml_per_char|].
  split; [apply escapeXml_no_angle|].
  split; [by destruct m|].
  destruct m; unfold generateOptimizedSSML; apply wellFormed_around_charData;
    auto using charData_escapeXml, charData_processText.
Qed.

(** ** The completion client *)

(** The double product is not the exact one: seven times the double below
    rounds up to 4, where the exact product is just under 4.  The largest
    value of [Math.random()] still gives the last index. *)
Example floorRandomTimes_rounds :
  floorRandomTimes 5146971002709138 7 = 4%nat
  ∧ N.to_nat (5146971002709138 * 7 / 2 ^ 53) = 3%nat
  ∧ floorRandomTimes (2 ^ 53 - 1) 7 = 6%nat
  ∧ floorRandomTimes (2 ^ 53 - 1) 8 = 7%nat
  ∧ floorRandomTimes 0 7 = 0%nat.
Proof. vm_compute. done. Qed.

Lemma roundToDouble_lt (k len : N) :
  k < 2 ^ 53 → 0 < len ≤ 8 → roundToDouble (k * len) < len * 2 ^ 53.
Proof.
  intros Hk Hlen. unfold roundToDouble.
  set (n := k * len).
  assert (n + len ≤ len * 2 ^ 53) as Hn by (subst n; nia).
  clearbody n.
  pose proof (N.size_gt n) as Hgt.
  pose proof (N.size_le n) as Hle. rewrite N.succ_double_spec in Hle.
  assert (N.size n ≤ 56) as Hsize.
  { apply N.lt_succ_r. apply (N.pow_lt_mono_r_iff 2); [lia|].
    eapply N.le_lt_trans; [exact Hle|].
    change (2 ^ N.succ 56) with 144115188075855872.
    change (2 ^ 53) with 9007199254740992 in *. lia. }
  change (2 ^ 53) with 9007199254740992 in *.
  destruct (N.eqb_spec (N.size n - 53) 0) as [E0|E0]; [lia|].
  assert (∀ e p h,
    N.size n - 53 = e → 2 ^ e = p → p / 2 = h → p = 2 * h → 0 < h →
    2 ^ N.size n = p * 9007199254740992 → h < len →
    (if (h <? n mod p) || ((n mod p =? h) && N.odd (n / p))
     then (n / p + 1) * p else n / p * p) < len * 9007199254740992) as Hcase.
  { intros e p h _ _ _ Hp Hh Hpow Hhl. rewrite Hpow in Hgt, Hle.
    pose proof (N.div_mod n p ltac:(lia)) as Hdm.
    pose proof (N.mod_lt n p ltac:(lia)) as Hr.
    set (q := n / p) in *. set (r := n mod p) in *. clearbody q r.
    destruct (N.ltb_spec h r); cbn [orb]; [nia|].
    destruct (N.eqb_spec r h); cbn [andb]; [|nia].
    destruct (N.odd q); nia. }
  assert (N.size n = 54 ∨ N.size n = 55 ∨ N.size n = 56) as [E|[E|E]] by lia;
    rewrite E in *.
  - change (2 ^ 54) with 18014398509481984 in *.
    apply (Hcase 1 2 1); try done; lia.
  - change (2 ^ 55) with 36028797018963968 in *.
    apply (Hcase 2 4 2); try done; lia.
  - change (2 ^ 56) with 72057594037927936 in *.
    apply (Hcase 3 8 4); try done; lia.
Qed.

(** For the array lengths of the code the index stays inside the array. *)
Lemma floorRandomTimes_lt random len :
  (0 < len ≤ 8)%nat → (floorRandomTimes random len < len)%nat.
Proof.
  intros Hlen. unfold floorRandomTimes.
  assert (random mod 2 ^ 53 < 2 ^ 53) as Hk by (apply N.mod_upper_bound; done).
  pose proof (roundToDouble_lt (random mod 2 ^ 53) (N.of_nat len) Hk ltac:(lia)) as Hr.
  assert (roundToDouble (random mod 2 ^ 53 * N.of_nat len) / 2 ^ 53 < N.of_nat len);
    [|lia].
  apply N.Div0.div_lt_upper_bound. lia.
Qed.

Lemma arrayAt_lt xs i :
  (i < length xs)%nat → ∃ s, xs !! i = Some s ∧ arrayAt xs i = VString s.
Proof.
  intros Hi. destruct (lookup_lt_is_Some_2 xs i Hi) as [s Hs].
  exists s. unfold arrayAt. by rewrite Hs.
Qed.

Lemma random_fallback random :
  ∃ s, fallbackResponses !! floorRandomTimes random (length fallbackResponses) = Some s
       ∧ arrayAt fallbackResponses (floorRandomTimes random (length fallbackResponses))
         = VString s.
Proof. apply arrayAt_lt, floorRandomTimes_lt. simpl. lia. Qed.

Lemma getProp_defined_inv v name w :
  getProp v name = Return w → w ≠ VUndefined → ∃ props, v = VObject props.
Proof. destruct v; simpl; intros [= <-] Hw; try done. eauto. Qed.

Lemma getIndex0_object_inv v props :
  getIndex0 v = Return (VObject props) → truthy v = true.
Proof. destruct v as [| | | | [|]| |]; simpl; intros [= E]; done. Qed.

Lemma therapistTry_wellShaped prompt u hist data c :
  contentOf data = Return (VString c) →
  therapistTry prompt (VString u) hist (RespondsOk (Some data))
  = Return (VString (trim c)).
Proof.
  unfold therapistTry, contentOf, requestMessages, mbind, completion_bind, andThen.
  simpl. intros H.
  destruct (getProp data (lit "choices")) as [choices|] eqn:E1; [|done].
  destruct (getIndex0 choices) as [first|] eqn:E2; [|done].
  destruct (getProp first (lit "message")) as [msg|] eqn:E3; [|done].
  destruct (getProp_defined_inv _ _ _ H) as [p2 ->]; [done|].
  destruct (getProp_defined_inv _ _ _ E3) as [p1 ->]; [done|].
  rewrite (getIndex0_object_inv _ _ E2), H. reflexivity.
Qed.

Lemma therapistTry_malformed prompt u hist data :
  (∀ c, contentOf data ≠ Return (VString c)) →
  therapistTry prompt (VString u) hist (RespondsOk (Some data))
    = Return (VString badShapeFallback)
  ∨ therapistTry prompt (VString u) hist (RespondsOk (Some data)) = Throw.
Proof.
  unfold therapistTry, contentOf, requestMessages, mbind, completion_bind, andThen.
  simpl. intros H.
  destruct (getProp data (lit "choices")) as [choices|]; [|by right].
  destruct (truthy choices); simpl; [|by left].
  destruct (getIndex0 choices) as [first|]; [|by right].
  destruct (truthy first); simpl; [|by left].
  destruct (getProp first (lit "message")) as [msg|]; [|by right].
  destruct (truthy msg); simpl; [|by left].
  destruct (getProp msg (lit "content")) as [[]|]; simpl; try by right.
  by destruct (H s).
Qed.

Lemma therapistTry_returns_string prompt input hist net v :
  therapistTry prompt input hist net = Return v → ∃ s, v = VString s.
Proof.
  unfold therapistTry, requestMessages, mbind, completion_bind, andThen.
  destruct input; simpl; try done.
  destruct net as [|[b|]|[data|]]; try done.
  - intros [= <-]. eauto.
  - destruct (getProp data (lit "choices")) as [choices|]; [|done].
    destruct (truthy choices); simpl; [|intros [= <-]; eauto].
    destruct (getIndex0 choices) as [first|]; [|done].
    destruct (truthy first); simpl; [|intros [= <-]; eauto].
    destruct (getProp first (lit "message")) as [msg|]; [|done].
    destruct (truthy msg); simpl; [|intros [= <-]; eauto].
    destruct (getProp msg (lit "content")) as [[]|]; simpl; try done.
    intros [= <-]. eauto.
Qed.

Lemma getTherapistResponse_string key prompt input hist net random :
  ∃ s, getTherapistResponse key prompt input hist net random = Return (VString s).
Proof.
  unfold getTherapistResponse. destruct (envTruthy key); cbn [negb]; [|eauto].
  destruct (therapistTry prompt input hist net) as [v|] eqn:Htry; cbn [tryCatch].
  - destruct (therapistTry_returns_string _ _ _ _ _ Htry) as [s ->]. eauto.
  - destruct (random_fallback random) as (f & _ & ->). eauto.
Qed.

(** X22.  Whenever the call settles, [getTherapistResponse] does not raise
    and returns a string: the fixed fallback when the key is missing; when
    the [try] body throws (a rejected or aborted fetch, an unreadable body,
    a reply whose shape makes a read throw), the entry of
    [fallbackResponses] that the rounded product of [Math.random()] and 7
    selects; for a response that is not ok, and for a reply whose
    [choices[0].message.content] is not a string, one of the predefined
    strings.  The only other result is the trimmed content of a well-shaped
    reply. *)
Theorem getTherapistResponse_never_raises (key : option jsstring)
    (prompt : jsstring) (input : jsval) (hist : list message)
    (net : fetchOutcome) (random : N) :
  ∃ s, getTherapistResponse key prompt input hist net random = Return (VString s)
    ∧ (envTruthy key = false → s = noKeyFallback)
    ∧ (envTruthy key = true → therapistTry prompt input hist net = Throw →
       fallbackResponses !! floorRandomTimes random (length fallbackResponses) = Some s)
    ∧ (envTruthy key = true → net = FetchRejects → s ∈ fallbackResponses)
    ∧ (envTruthy key = true → (∃ body, net = RespondsNotOk body) →
       s = notOkFallback ∨ s ∈ fallbackResponses)
    ∧ (envTruthy key = true → ∀ data, net = RespondsOk (Some data) →
       (∀ c, contentOf data ≠ Return (VString c)) →
       s = badShapeFallback ∨ s ∈ fallbackResponses)
    ∧ (s ∈ predefinedFallbacks
       ∨ ∃ data c, net = RespondsOk (Some data)
                   ∧ contentOf data = Return (VString c) ∧ s = trim c).
Proof.
  unfold getTherapistResponse.
  destruct (envTruthy key) eqn:Hkey; cbn [negb].
  2:{ exists noKeyFallback. repeat split; try done. left. set_solver. }
  destruct (random_fallback random) as (f & Hf & Harr).
  assert (f ∈ fallbackResponses) as Hfin by (by eapply list_elem_of_lookup_2).
  destruct (therapistTry prompt input hist net) as [v|] eqn:Htry; cbn [tryCatch].
  - destruct (therapistTry_returns_string _ _ _ _ _ Htry) as [s ->].
    exists s. split; [done|]. split; [done|]. split; [done|].
    split; [intros _ ->; revert Htry; unfold therapistTry, requestMessages;
            destruct input; done|].
    split.
    { intros _ [body ->]. left. revert Htry. unfold therapistTry, requestMessages.
      destruct input, body; simpl; congruence. }
    split.
    { intros _ data -> Hbad. left.
      assert (∃ u, input = VString u) as [u ->].
      { revert Htry. unfold therapistTry, requestMessages. destruct input; simpl; eauto; done. }
      destruct (therapistTry_malformed prompt u hist data Hbad); congruence. }
    destruct net as [|[b|]|[data|]].
    + revert Htry. unfold therapistTry, requestMessages. destruct input; done.
    + left. revert Htry. unfold therapistTry, requestMessages.
      destruct input; simpl; try done. intros [= <-]. set_solver.
    + revert Htry. unfold therapistTry, requestMessages. destruct input; done.
    + assert (∃ u, input = VString u) as [u ->].
      { revert Htry. unfold therapistTry, requestMessages. destruct input; simpl; eauto; done. }
      destruct (contentOf data) as [[| | | |c| |]|] eqn:Hc.
      5:{ right. exists data, c. rewrite (therapistTry_wellShaped _ _ _ _ _ Hc) in Htry.
          split; [done|]. split; [done|]. congruence. }
      all: left; destruct (therapistTry_malformed prompt u hist data) as [E|E];
        [intros c; rewrite Hc; done | rewrite E in Htry; injection Htry as <-; set_solver
        | congruence].
    + revert Htry. unfold therapistTry, requestMessages. destruct input; done.
  - exists f. rewrite Harr. split; [done|]. split; [done|]. split; [done|].
    split; [done|]. split; [by right|]. split; [by right|].
    left. unfold predefinedFallbacks. set_solver.
Qed.

(** C7 fails on the code: the client does not always return.  With a key
    configured and a string as input, when the API answers (with any
    status) and the body of the answer never ends, the promise of
    [getTherapistResponse] never settles: the abort timer was cleared when
    the headers arrived, so no string is returned and nothing is raised,
    whatever the history and the random number.  Without the stall the same
    call returns a string. *)
Theorem getTherapistResponse_never_settles (c : N) (key prompt u : jsstring)
    (hist : list message) (ok : bool) (random : N) :
  getTherapistResponsePromise (Some (c :: key)) prompt (VString u) hist
    (BodyNeverEnds ok) random
  = None
  ∧ ∀ net, ∃ s,
      getTherapistResponsePromise (Some (c :: key)) prompt (VString u) hist
        (Settles net) random
      = Some (Return (VString s)).
Proof.
  split; [reflexivity|].
  intros net. cbn [getTherapistResponsePromise].
  destruct (getTherapistResponse_string (Some (c :: key)) prompt (VString u)
              hist net random) as [s ->].
  eauto.
Qed.

(** ** The speech module: every event is one of the summarized steps *)

Local Open Scope nat_scope.

Lemma cleanup_frame k c s :
  closures (cleanup k c s) = closures s
  ∧ nextClosure (cleanup k c s) = nextClosure s
  ∧ requestQueue (cleanup k c s) = requestQueue s
  ∧ calls (cleanup k c s) = calls s ++ completeCall k c.
Proof. unfold cleanup, completeCall, invoke. destruct (onComplete c); simpl; rewrite ?app_nil_r; done. Qed.

(** Opens a state into its fields, so that every projection computes. *)
Ltac flat s := destruct s as [? ps0 ? ? ? ? ? ? ? ? ? ? ?].

Lemma textToSpeechInternal_core throws t c s :
  ∃ y, let s' := snd (textToSpeechInternal throws t c s) in
    closures s' = <[nextClosure s := Closure c y false]> (closures s)
    ∧ nextClosure s' = S (nextClosure s)
    ∧ requestQueue s' = requestQueue s
    ∧ calls s' = calls s ++ startCalls throws c (nextClosure s).
Proof.
  flat s. destruct c as [id [] [] []], throws, ps0; eexists; simpl;
    rewrite ?app_nil_r, <- ?app_assoc; repeat split; reflexivity.
Qed.

Lemma processQueue_core throws s :
  coreStep s (processQueue throws s) (TimerFires throws).
Proof.
  unfold processQueue.
  destruct (isProcessingQueue s || (length (requestQueue s) =? 0) || isSynthesizerBusy s);
    [by apply core_quiet|].
  destruct (requestQueue s) as [|q rest] eqn:Hq.
  - simpl. rewrite Hq. apply core_quiet; simpl; try done. 
  - cbn [requestQueue setProcessing]. rewrite Hq.
    destruct (textToSpeechInternal_core throws (text q) (cbs q)
                (setQueue rest (setProcessing true s))) as (y & H1 & H2 & H3 & H4).
    eapply core_promote; eauto.
Qed.

Lemma timerBody_core throws s n :
  timers s = S n →
  coreStep s (timerBody throws (setTimers n s)) (TimerFires throws).
Proof.
  intros _. unfold timerBody.
  pose proof (processQueue_core throws (setProcessing false (setTimers n s))) as H.
  inversion H; subst.
  - apply core_quiet; etrans; eauto.
  - eapply core_promote; eauto; etrans; eauto.
Qed.

Lemma stop_core h s : coreStep s (stop h s) (StopEv h).
Proof.
  destruct h as [|k]; [by apply core_quiet|]. simpl.
  destruct (closures s !! k) as [cl|] eqn:Hk; [|by apply core_quiet].
  destruct (isInterrupted cl) eqn:Hi; [by apply core_quiet|].
  eapply core_stop; eauto;
    flat s; destruct cl as [[id [] [] []] y i]; simpl; rewrite ?app_nil_r; reflexivity.
Qed.

Lemma onSpeakResult_core k r s o :
  coreStep s (onSpeakResult k r (setOutstanding o s)) (SdkResult k r).
Proof.
  unfold onSpeakResult. cbn [closures setOutstanding].
  destruct (closures s !! k) as [cl|] eqn:Hk; [|by apply core_quiet].
  eapply core_result; eauto;
    flat s; destruct cl as [[id [] [] []] y []], r as [[|p] [[|b bytes]|]];
    simpl; rewrite ?app_nil_r, <- ?app_assoc; reflexivity.
Qed.

Lemma onSpeakError_core k e s o :
  coreStep s (onSpeakError k e (setOutstanding o s)) (SdkError k e).
Proof.
  unfold onSpeakError. cbn [closures setOutstanding].
  destruct (closures s !! k) as [cl|] eqn:Hk; [|by apply core_quiet].
  eapply core_error; eauto;
    flat s; destruct cl as [[id [] [] []] y i]; simpl; rewrite ?app_nil_r, <- ?app_assoc; reflexivity.
Qed.

Lemma textToSpeech_core creds throws text c s :
  coreStep s (snd (textToSpeech creds throws text c s)) (Submit throws text c).
Proof.
  unfold textToSpeech.
  destruct text as [| | | |[|ch t]| |];
    try (destruct (onError c) eqn:He;
         [ eapply core_refuse; flat s; simpl; rewrite ?He; reflexivity
         | apply core_quiet; flat s; simpl; rewrite ?He; reflexivity ]).
  destruct creds; cbn [negb].
  2:{ destruct (onError c) eqn:He;
         [ eapply core_refuse; flat s; simpl; rewrite ?He; reflexivity
         | apply core_quiet; flat s; simpl; rewrite ?He; reflexivity ]. }
  destruct (isSynthesizerBusy s) eqn:Hb.
  - unfold queueRequest, processQueue. cbn [isSynthesizerBusy setQueue snd].
    rewrite Hb, orb_true_r. apply core_enqueue; reflexivity.
  - destruct (textToSpeechInternal_core throws (ch :: t) c s) as (y & H1 & H2 & H3 & H4).
    destruct (textToSpeechInternal throws (ch :: t) c s) as [h s'] eqn:E.
    eapply core_start; eauto.
Qed.

Lemma ttsStep_core creds s e : coreStep s (ttsStep creds s e) e.
Proof.
  destruct e as [throws text c|h|k r|k err|throws| |g|m]; cbn [ttsStep].
  - apply textToSpeech_core.
  - apply stop_core.
  - case_bool_decide; [apply onSpeakResult_core | by apply core_quiet].
  - case_bool_decide; [apply onSpeakError_core | by apply core_quiet].
  - destruct (timers s) eqn:Ht; [by apply core_quiet | by eapply timerBody_core].
  - apply core_clear; flat s; destruct ps0; reflexivity.
  - apply core_quiet; unfold setVoiceGender; repeat case_match; flat s; try reflexivity.
  - apply core_quiet; unfold setPerformanceMode; repeat case_match; flat s; reflexivity.
Qed.

(** ** Handles: stopping twice, and what follows a stop *)

Lemma stop_noop k s : stopped k s → stop (StopHandle k) s = s.
Proof. intros (cl & Hk & Hi). unfold stop. by rewrite Hk, Hi. Qed.

Lemma stop_stopped k s : is_Some (closures s !! k) → stopped k (stop (StopHandle k) s).
Proof.
  intros [cl Hk]. pose proof (stop_core (StopHandle k) s) as Hstep.
  destruct (isInterrupted cl) eqn:Hi.
  { rewrite stop_noop; by exists cl. }
  inversion Hstep as [e H1| | | | |k' cl' Hk' Hi' H1| | |]; subst.
  - exfalso. revert H1. unfold stop. rewrite Hk, Hi.
    match goal with |- context [cleanup ?k ?c ?s] =>
      destruct (cleanup_frame k c s) as (-> & _) end.
    cbn [closures sdk setClosures]. intros E.
    assert (<[k:=Closure (cl_cbs cl) (cl_synthesizer cl) true]> (closures s) !! k = Some cl)
      as E' by (by rewrite E).
    rewrite lookup_insert_eq in E'. injection E' as E'.
    apply (f_equal isInterrupted) in E'. simpl in E'. congruence.
  - eexists. rewrite H1, lookup_insert_eq. done.
Qed.

Lemma stop_stop h s : stop h (stop h s) = stop h s.
Proof.
  destruct h as [|k]; [reflexivity|].
  destruct (closures s !! k) as [cl|] eqn:Hk.
  - apply stop_noop, stop_stopped. eauto.
  - unfold stop. by rewrite Hk, Hk.
Qed.

Lemma coreStep_calls s s' e : coreStep s s' e → ∃ new, calls s' = calls s ++ new.
Proof.
  destruct 1; eauto;
    match goal with H : calls s' = calls s |- _ => exists []; by rewrite app_nil_r end.
Qed.

Lemma closuresFresh_core s s' e : closuresFresh s → coreStep s s' e → closuresFresh s'.
Proof.
  unfold closuresFresh. intros Hs Hstep k.
  destruct Hstep;
    repeat match goal with H : closures s' = _ |- _ => rewrite H; clear H end;
    repeat match goal with H : nextClosure s' = _ |- _ => rewrite H; clear H end;
    auto.
  - rewrite lookup_insert_is_Some. intros [<-|[_ Hk]]; [lia|]. apply Hs in Hk. lia.
  - rewrite lookup_insert_is_Some. intros [<-|[_ Hk]]; [lia|]. apply Hs in Hk. lia.
  - rewrite lookup_insert_is_Some. intros [<-|[_ Hk]]; auto.
Qed.

Lemma closuresFresh_run creds s es : closuresFresh s → closuresFresh (ttsRun creds s es).
Proof.
  revert s. induction es as [|e es IH]; intros s Hs; [done|].
  apply IH. eapply closuresFresh_core; [done|apply ttsStep_core].
Qed.

Lemma closuresFresh_initial : closuresFresh initialTts.
Proof. intros k [cl Hk]. simpl in Hk. by rewrite lookup_empty in Hk. Qed.

Lemma elem_startCalls x throws c k : x ∈ startCalls throws c k → x.1 = Some k.
Proof.
  unfold startCalls. destruct throws, (onError c), (onComplete c); simpl;
    intros H; repeat (apply elem_of_cons in H as [->|H]; [done|]);
    by apply elem_of_nil in H.
Qed.

Lemma elem_completeCall x k c :
  x ∈ completeCall k c → x = (Some k, Complete (cb_id c)).
Proof.
  unfold completeCall. destruct (onComplete c); intros H;
    [by apply list_elem_of_singleton in H | by apply elem_of_nil in H].
Qed.

(** One step after a stop: the closure stays stopped; whatever its callbacks
    receive is no audio chunk, and is an error only when the SDK reports a
    failure. *)
Lemma stopped_core k s s' e :
  closuresFresh s → stopped k s → coreStep s s' e →
  stopped k s'
  ∧ ∃ new, calls s' = calls s ++ new
      ∧ ∀ c, (Some k, c) ∈ new →
          isAudioChunk c = false ∧ (isError c = true → reportsFailure k e).
Proof.
  intros Hfresh (cl & Hk & Hi) Hstep.
  assert (k < nextClosure s) as Hlt by (apply Hfresh; eauto).
  unfold stopped.
  destruct Hstep as [e| | | | |k' cl'|k' cl' r|k' cl' err|];
    repeat match goal with H : closures s' = _ |- _ => rewrite H; clear H end.
  - split; [eauto|]. exists []. split; [by rewrite app_nil_r|]. intros c Hc. by apply elem_of_nil in Hc.
  - split; [eauto|]. eexists. split; [done|]. intros c' Hc.
    by apply list_elem_of_singleton in Hc.
  - split; [eauto|]. exists []. split; [by rewrite app_nil_r|]. intros c' Hc. by apply elem_of_nil in Hc.
  - split; [rewrite lookup_insert_ne by lia; eauto|]. eexists. split; [done|].
    intros c' Hc. apply elem_startCalls in Hc. simpl in Hc. injection Hc. lia.
  - split; [rewrite lookup_insert_ne by lia; eauto|]. eexists. split; [done|].
    intros c' Hc. apply elem_startCalls in Hc. simpl in Hc. injection Hc. lia.
  - assert (k' ≠ k) by (intros ->; congruence).
    split; [rewrite lookup_insert_ne by done; eauto|]. eexists. split; [done|].
    intros c' Hc. apply elem_completeCall in Hc. congruence.
  - split; [eauto|]. eexists. split; [done|]. intros c' Hc.
    apply elem_of_app in Hc as [Hc|Hc].
    + unfold resultCalls in Hc. destruct (decide (k' = k)) as [->|Hne].
      * assert (cl' = cl) as -> by congruence. rewrite Hi in Hc.
        destruct (reason r) eqn:Hr; [by apply elem_of_nil in Hc|].
        destruct (onError (cl_cbs cl)); [|by apply elem_of_nil in Hc].
        apply list_elem_of_singleton in Hc. injection Hc as ->.
        split; [done|]. intros _. simpl. rewrite Hr. done.
      * exfalso. repeat case_match; try (by apply elem_of_nil in Hc);
          apply list_elem_of_singleton in Hc; congruence.
    + apply elem_completeCall in Hc. injection Hc as -> ->. done.
  - split; [eauto|]. eexists. split; [done|]. intros c' Hc.
    apply elem_of_app in Hc as [Hc|Hc].
    + unfold errorCalls in Hc. destruct (onError (cl_cbs cl')); [|by apply elem_of_nil in Hc].
      apply list_elem_of_singleton in Hc. injection Hc as -> ->. done.
    + apply elem_completeCall in Hc. injection Hc as -> ->. done.
  - split; [eauto|]. exists []. split; [by rewrite app_nil_r|]. intros c' Hc. by apply elem_of_nil in Hc.
Qed.

Lemma calls_run_prefix creds s es : ∃ new, calls (ttsRun creds s es) = calls s ++ new.
Proof.
  revert s. induction es as [|e es IH]; intros s.
  - exists []. by rewrite app_nil_r.
  - destruct (coreStep_calls _ _ _ (ttsStep_core creds s e)) as [n1 H1].
    destruct (IH (ttsStep creds s e)) as [n2 H2].
    exists (n1 ++ n2).
    change (ttsRun creds s (e :: es)) with (ttsRun creds (ttsStep creds s e) es).
    rewrite H2, H1, app_assoc. done.
Qed.

Lemma after_stop creds k es s :
  closuresFresh s → stopped k s →
  ∀ c, (Some k, c) ∈ drop (length (calls s)) (calls (ttsRun creds s es)) →
    isAudioChunk c = false ∧ (isError c = true → Exists (reportsFailure k) es).
Proof.
  revert s. induction es as [|e es IH]; intros s Hfresh Hst c.
  - simpl. rewrite drop_all. intros Hc. by apply elem_of_nil in Hc.
  - destruct (stopped_core k s _ e Hfresh Hst (ttsStep_core creds s e))
      as (Hst' & new & Hnew & Hc1).
    pose proof (closuresFresh_core _ _ _ Hfresh (ttsStep_core creds s e)) as Hfresh'.
    destruct (calls_run_prefix creds (ttsStep creds s e) es) as [later Hlater].
    specialize (IH _ Hfresh' Hst' c).
    change (ttsRun creds s (e :: es)) with (ttsRun creds (ttsStep creds s e) es).
    rewrite Hlater in IH |- *. rewrite drop_app_length in IH.
    rewrite Hnew, <- app_assoc, drop_app_length.
    intros [Hc|Hc]%elem_of_app.
    + destruct (Hc1 c Hc) as [? Hf]. split; [done|]. intros He. left. auto.
    + destruct (IH Hc) as [? Hf]. split; [done|]. intros He. right. auto.
Qed.

Lemma stopped_run creds k es s :
  closuresFresh s → stopped k s → stopped k (ttsRun creds s es).
Proof.
  revert s. induction es as [|e es IH]; intros s Hfresh Hst; [done|].
  apply IH.
  - eapply closuresFresh_core; [done|apply ttsStep_core].
  - by destruct (stopped_core k s _ e Hfresh Hst (ttsStep_core creds s e)).
Qed.

(** C8.  [stop] is idempotent.  In every state of the module (before or
    after the request completed, queue busy or idle) and for every handle,
    calling [stop] any number of times in a row leaves exactly the state
    that one call leaves: the same callbacks invoked, the same queue, flags
    and timers.  And in every state the module can reach, once [stop] was
    called on the handle of a call, a later [stop] on it changes nothing,
    whatever happened in between. *)
Theorem stop_idempotent (creds : bool) (es0 : list ttsEvent) (h : handle) :
  (∀ s n, Nat.iter (S n) (stop h) s = stop h s)
  ∧ ∀ es,
      let s := ttsRun creds initialTts es0 in
      (h = NoopHandle ∨ ∃ k, h = StopHandle k ∧ is_Some (closures s !! k)) →
      stop h (ttsRun creds (stop h s) es) = ttsRun creds (stop h s) es.
Proof.
  split.
  - intros s n. induction n as [|n IH]; [reflexivity|].
    change (Nat.iter (S (S n)) (stop h) s) with (stop h (Nat.iter (S n) (stop h) s)).
    rewrite IH. apply stop_stop.
  - intros es s [->|(k & -> & Hk)]; [reflexivity|].
    assert (closuresFresh s) as Hfresh
      by (apply closuresFresh_run, closuresFresh_initial).
    apply stop_noop, stopped_run.
    + eapply closuresFresh_core; [done|apply stop_core].
    + by apply stop_stopped.
Qed.

(** C8 on a run: a request is started and stopped, the SDK answers and the
    timer runs; a second [stop] then changes nothing. *)
Lemma stop_idempotent_witness :
  let s := ttsRun true initialTts [Submit None (VString (lit "Hello")) (sampleCallbacks 7)] in
  let between := [SdkResult 0 completedWithAudio; TimerFires None] in
  stop (StopHandle 0) (ttsRun true (stop (StopHandle 0) s) between)
  = ttsRun true (stop (StopHandle 0) s) between.
Proof.
  apply (proj2 (stop_idempotent true
                  [Submit None (VString (lit "Hello")) (sampleCallbacks 7)]
                  (StopHandle 0))).
  right. exists 0. split; [reflexivity|]. vm_compute. eauto.
Defined.

(** C4 fails on the code: [onError] is invoked for a request after [stop]
    on its handle.  A request is started and stopped, which invokes its
    [onComplete]; when the SDK then answers the cancelled operation, with a
    result whose reason is [Canceled] or through its error callback, the
    request's [onError] is invoked (and [onComplete] once more).  The
    branch of the result callback that delivers a chunk tests
    [isInterrupted], and so does [stop]; the branch that reports a failure
    (line 248) and the error callback (line 253) do not. *)
Theorem onError_after_stop :
  let s1 :=
    ttsRun true initialTts
      [Submit None (VString (lit "Hello")) (sampleCallbacks 7);
       StopEv (StopHandle 0)] in
  calls s1 = [(Some 0, Complete 7)]
  ∧ drop (length (calls s1)) (calls (ttsStep true s1 (SdkResult 0 canceledResult)))
    = [(Some 0, Error 7 (lit "Speech synthesis failed: 1")); (Some 0, Complete 7)]
  ∧ drop (length (calls s1))
      (calls (ttsStep true s1 (SdkError 0 (lit "Connection closed"))))
    = [(Some 0, Error 7 (lit "TTS Error: Connection closed")); (Some 0, Complete 7)].
Proof. vm_compute. done. Qed.

(** X23.  What [stop] does keep from the caller.  In every state the
    module can reach, [stop] on the handle of call [k], when that call was
    not stopped before, invokes its [onComplete] and nothing else; and from
    that [stop] on, whatever else happens, the callbacks of call [k]
    receive no audio chunk.  They can still receive an error, but only
    when the SDK reports a failure for that call afterwards (its error
    callback, or a result whose reason is not SynthesizingAudioCompleted):
    the two paths that do not test [isInterrupted], and no other. *)
Theorem stop_suppresses_chunks (creds : bool) (es0 : list ttsEvent) (k : nat)
    (cl : closure) (es : list ttsEvent) :
  let s := ttsRun creds initialTts es0 in
  closures s !! k = Some cl →
  let s1 := stop (StopHandle k) s in
  (isInterrupted cl = false →
   calls s1
   = calls s ++ (if onComplete (cl_cbs cl)
                 then [(Some k, Complete (cb_id (cl_cbs cl)))] else []))
  ∧ ∀ c, (Some k, c) ∈ drop (length (calls s)) (calls (ttsRun creds s1 es)) →
      isAudioChunk c = false
      ∧ (isError c = true → Exists (reportsFailure k) es).
Proof.
  intros s Hk s1.
  assert (closuresFresh s) as Hfresh
    by (apply closuresFresh_run, closuresFresh_initial).
  pose proof (stop_core (StopHandle k) s) as Hstep. fold s1 in Hstep.
  assert (stopped k s1) as Hst by (apply stop_stopped; eauto).
  assert (closuresFresh s1) as Hfresh1 by (by eapply closuresFresh_core).
  assert (∃ new, calls s1 = calls s ++ new
                 ∧ (isInterrupted cl = false → new = completeCall k (cl_cbs cl))
                 ∧ ∀ x, x ∈ new → x = (Some k, Complete (cb_id (cl_cbs cl))))
    as (new & Hnew & Hnew1 & Hnew2).
  { inversion Hstep as [e H1 H2 H3 H4| | | | |k' cl' Hk' Hi' H1 H2 H3 H4| | |]; subst.
    - exists []. rewrite app_nil_r. split; [done|]. split.
      + intros Hi. exfalso. destruct Hst as (cl' & Hk' & Hi').
        rewrite H1 in Hk'. congruence.
      + intros x Hx. by apply elem_of_nil in Hx.
    - assert (cl' = cl) as -> by congruence.
      eexists. split; [done|]. split; [done|].
      intros x Hx. by apply elem_completeCall in Hx. }
  split; [intros Hi; by rewrite Hnew, Hnew1|].
  destruct (calls_run_prefix creds s1 es) as [later Hlater].
  intros c. pose proof (after_stop creds k es s1 Hfresh1 Hst c) as Hafter.
  rewrite Hlater in Hafter |- *. rewrite drop_app_length in Hafter.
  rewrite Hnew, <- app_assoc, drop_app_length.
  intros [Hc|Hc]%elem_of_app; [|auto].
  apply Hnew2 in Hc. injection Hc as ->. done.
Qed.

(** X23 on a run: the request is stopped and the SDK then answers with
    audio; the chunk is not delivered. *)
Lemma stop_suppresses_chunks_witness :
  let s := ttsRun true initialTts [Submit None (VString (lit "Hello")) (sampleCallbacks 7)] in
  let s1 := stop (StopHandle 0) s in
  closures s !! 0 = Some (Closure (sampleCallbacks 7) 0 false)
  ∧ ∀ c, (Some 0, c) ∈ drop (length (calls s))
                         (calls (ttsRun true s1 [SdkResult 0 completedWithAudio])) →
      isAudioChunk c = false
      ∧ (isError c = true → Exists (reportsFailure 0) [SdkResult 0 completedWithAudio]).
Proof.
  split; [vm_compute; reflexivity|].
  apply (stop_suppresses_chunks true
           [Submit None (VString (lit "Hello")) (sampleCallbacks 7)] 0
           (Closure (sampleCallbacks 7) 0 false) [SdkResult 0 completedWithAudio]).
  vm_compute. reflexivity.
Defined.

(** C3 fails on the code: a request is started, its handle is stopped
    before any chunk, and the SDK then answers the cancelled operation.
    [onComplete] has run twice ([stop] and the SDK's callback each run
    [cleanup]); [onAudioChunk] has not run. *)
Theorem onComplete_twice_after_stop :
  let s :=
    ttsRun true initialTts
      [Submit None (VString (lit "Hello")) (sampleCallbacks 7);
       StopEv (StopHandle 0);
       SdkResult 0 completedWithAudio] in
  calls s = [(Some 0, Complete 7); (Some 0, Complete 7)]
  ∧ length (filter (λ x, isComplete x.2 = true) (calls s)) = 2
  ∧ length (filter (λ x, isAudioChunk x.2 = true) (calls s)) = 0.
Proof. vm_compute. done. Qed.

(** C2 fails on the code: while the synthesizer is busy, [textToSpeech]
    appends the request to the queue and returns [undefined], not a
    handle. *)
Theorem textToSpeech_busy_returns_undefined :
  let busy :=
    snd (textToSpeech true None (VString (lit "first")) (sampleCallbacks 1) initialTts) in
  isSynthesizerBusy busy = true
  ∧ textToSpeech true None (VString (lit "second")) (sampleCallbacks 2) busy
    = (None, setQueue [Request (lit "second") (sampleCallbacks 2)] busy).
Proof. vm_compute. done. Qed.

(** The same in every busy state, for every text the module accepts. *)
Lemma textToSpeech_busy throws ch t c s :
  isSynthesizerBusy s = true →
  textToSpeech true throws (VString (ch :: t)) c s
  = (None, setQueue (requestQueue s ++ [Request (ch :: t) c]) s).
Proof.
  intros Hb. unfold textToSpeech, queueRequest, processQueue. simpl.
  rewrite Hb, orb_true_r. reflexivity.
Qed.

(** ** The socket handlers *)

(** C1 fails on the code.  Socket [a] starts a session (the greeting is
    call 0), speaks (the handler stops call 0), and the reply is synthesized
    as call 1.  The SDK then answers the stopped call 0: its callback runs
    [cleanup], which clears the busy flag while call 1 is in progress.
    Socket [b] starts a session and its greeting is started at once as call
    2: calls 1 and 2 are synthesized at the same time. *)
Theorem two_requests_synthesizing :
  let st :=
    serverRun true (Some (lit "key")) [] initialServer
      [Connection "a"; StartSession "a" 0%N None;
       UserSpeech "a" (VString (lit "I feel anxious today"));
       ReplySettles 0 (okReply "That sounds heavy.") 0%N None;
       SdkAnswers 0 completedWithAudio;
       Connection "b"] in
  synthesizing (tts st) = [1]
  ∧ isSynthesizerBusy (tts st) = false
  ∧ requestQueue (tts st) = []
  ∧ synthesizing (tts (startSession true "b" 0%N None st)) = [1; 2].
Proof. vm_compute. done. Qed.

(** C5 fails on the code: after seven exchanges the history holds 13
    entries.  The handler truncates after pushing the user's message and
    not after pushing the reply. *)
Theorem history_exceeds_cap :
  length <$> historyOf "a" (serverRun true (Some (lit "key")) [] initialServer sevenExchanges)
  = Some 13.
Proof. vm_compute. reflexivity. Qed.

Lemma length_trimStart s : length (trimStart s) ≤ length s.
Proof.
  induction s as [|c s IH]; simpl; [lia|]. destruct (isWhiteSpace c); simpl; lia.
Qed.

Lemma length_trim s : length (trim s) ≤ length s.
Proof.
  unfold trim. rewrite length_reverse.
  etrans; [apply length_trimStart|]. rewrite length_reverse. apply length_trimStart.
Qed.

Lemma deliver_clientCalls st x : clientCalls (deliver st x) = clientCalls st.
Proof. unfold deliver. repeat case_match; done. Qed.

Lemma stopCurrent_clientCalls id st :
  clientCalls (stopCurrent id st) = clientCalls st.
Proof.
  unfold stopCurrent, withTts. repeat case_match; try done. simpl.
  match goal with |- clientCalls (foldl deliver ?s0 ?l) = _ =>
    generalize l; intros l'; change (clientCalls st) with (clientCalls s0);
    generalize s0 end.
  induction l' as [|x l' IH]; intros s0; [done|]. simpl.
  rewrite IH. apply deliver_clientCalls.
Qed.

(** The path that does truncate: the history handed to the completion
    client never holds more than 12 entries. *)
Lemma userSpeech_call_capped id payload st c :
  c ∈ clientCalls (userSpeech id payload st) →
  c ∈ clientCalls st ∨ length c.2 ≤ 12.
Proof.
  unfold userSpeech.
  repeat case_match; simpl; rewrite ?stopCurrent_clientCalls; try tauto.
  all: intros [Hc|Hc]%elem_of_app; [by left|right].
  all: apply list_elem_of_singleton in Hc as ->; simpl.
  all: match goal with H : (12 <? _) = _ |- _ =>
         try apply Nat.ltb_ge in H; try apply Nat.ltb_lt in H end.
  all: unfold sliceLast; rewrite ?length_drop; lia.
Qed.

(** C6 as stated fails: socket [a] is connected and has not started a
    session, so its session is not active; its utterance still reaches the
    completion client and is pushed on the history. *)
Lemma userSpeech_inactive_session :
  let st := connection "a" initialServer in
  let st' := userSpeech "a" (VString (lit "I feel anxious today")) st in
  (isActive <$> (sessions st !! "a" ≫= λ o, sessionObjs st !! o)) = Some false
  ∧ clientCalls st'
    = [(VString (lit "I feel anxious today"),
        [Message user (VString (lit "I feel anxious today"))])]
  ∧ historyOf "a" st' = Some [Message user (VString (lit "I feel anxious today"))].
Proof. vm_compute. done. Qed.

(** C6, amended.  An utterance reaches the completion client, or changes a
    session history, only if the socket has a session (active or not) and
    the text is a string whose trimmed length is in [2,1000]; every utterance
    that fails this is dropped: no event is emitted, the completion client
    is not called, no history changes, and the speech module is not
    touched. *)
Theorem userSpeech_validation (id : string) (payload : jsval) (st : serverState) :
  let st' := userSpeech id payload st in
  let valid :=
    is_Some (sessions st !! id)
    ∧ ∃ t, payload = VString t ∧ 2 ≤ length (trim t) ≤ 1000 in
  (clientCalls st' ≠ clientCalls st ∨ sessionObjs st' ≠ sessionObjs st
   ∨ awaiting st' ≠ awaiting st → valid)
  ∧ (¬ valid →
     emittedLog st' = emittedLog st ∧ clientCalls st' = clientCalls st
     ∧ sessionObjs st' = sessionObjs st ∧ awaiting st' = awaiting st
     ∧ tts st' = tts st ∧ activeSynthesizers st' = activeSynthesizers st
     ∧ sessions st' = sessions st).
Proof.
  intros st' valid.
  assert (valid ∨ (emittedLog st' = emittedLog st ∧ clientCalls st' = clientCalls st
     ∧ sessionObjs st' = sessionObjs st ∧ awaiting st' = awaiting st
     ∧ tts st' = tts st ∧ activeSynthesizers st' = activeSynthesizers st
     ∧ sessions st' = sessions st)) as [Hv|Hsame].
  { subst st' valid. unfold userSpeech.
    destruct (userSpeechLogLine payload) eqn:Hlog; [|by right].
    destruct (sessions st !! id) as [o|] eqn:Hs; [|by right].
    destruct payload as [| | | |t| |]; try by right.
    destruct ((length (trim t) =? 0) || (1000 <? length t)) eqn:Hlen; [by right|].
    destruct (length (trim t) <? 2) eqn:Hshort; [by right|].
    left. split; [eauto|]. exists t. split; [done|].
    apply orb_false_iff in Hlen as [_ Hlong].
    apply Nat.ltb_ge in Hlong, Hshort. pose proof (length_trim t). lia. }
  - split; [done|]. intros Hnv. by destruct Hnv.
  - destruct Hsame as (? & ? & ? & ? & ? & ? & ?).
    split; [|done]. intros [Hd|[Hd|Hd]]; by destruct Hd.
Qed.

(** ** Abandoned requests *)

Lemma startCalls_id x throws c k : x ∈ startCalls throws c k → callId x.2 = cb_id c.
Proof.
  unfold startCalls. destruct throws, (onError c), (onComplete c); simpl;
    intros H; repeat (apply elem_of_cons in H as [->|H]; [done|]);
    by apply elem_of_nil in H.
Qed.

Lemma resultCalls_id x k cl r : x ∈ resultCalls k cl r → callId x.2 = cb_id (cl_cbs cl).
Proof.
  unfold resultCalls. intros H.
  repeat case_match; try (by apply elem_of_nil in H);
    apply list_elem_of_singleton in H as ->; done.
Qed.

Lemma errorCalls_id x k cl e : x ∈ errorCalls k cl e → callId x.2 = cb_id (cl_cbs cl).
Proof.
  unfold errorCalls. intros H.
  repeat case_match; try (by apply elem_of_nil in H);
    apply list_elem_of_singleton in H as ->; done.
Qed.

Lemma completeCall_id x k c : x ∈ completeCall k c → callId x.2 = cb_id c.
Proof. intros ->%elem_completeCall. done. Qed.

(** What a step adds: closures hold callbacks that were in a closure before,
    or come from the queue or the submission; the same for invocations. *)
Lemma coreStep_sources s s' e :
  coreStep s s' e →
  let known a :=
    (∃ k cl, closures s !! k = Some cl ∧ cb_id (cl_cbs cl) = a)
    ∨ (∃ q, q ∈ requestQueue s ∧ cb_id (cbs q) = a)
    ∨ (∃ throws text c, e = Submit throws text c ∧ cb_id c = a) in
  (∀ k cl, closures s' !! k = Some cl → known (cb_id (cl_cbs cl)))
  ∧ (∀ x, x ∈ calls s' → x ∈ calls s ∨ known (callId x.2))
  ∧ (∀ q, q ∈ requestQueue s' →
       q ∈ requestQueue s ∨ ∃ throws text c, e = Submit throws text c ∧ cbs q = c).
Proof.
  intros Hstep known.
  assert (∀ k cl, closures s !! k = Some cl → known (cb_id (cl_cbs cl))) as Hold
    by (intros k cl Hk; left; eauto).
  destruct Hstep as [e| | | | |k' cl'|k' cl' r|k' cl' err|];
    repeat match goal with H : closures s' = _ |- _ => rewrite H; clear H end;
    repeat match goal with H : calls s' = _ |- _ => rewrite H; clear H end;
    repeat match goal with H : requestQueue s' = _ |- _ => rewrite H; clear H end.
  - eauto.
  - split; [done|]. split; [|eauto].
    intros x [Hx|Hx]%elem_of_app; [eauto|]. apply list_elem_of_singleton in Hx as ->.
    right. right. right. eauto.
  - split; [done|]. split; [eauto|].
    intros q [Hq|Hq]%elem_of_app; [eauto|]. apply list_elem_of_singleton in Hq as ->.
    right. eauto.
  - split; [|split; [|eauto]].
    + intros k cl [[_ <-]|[_ Hk]]%lookup_insert_Some; [|eauto].
      right. right. simpl. eauto.
    + intros x [Hx|Hx]%elem_of_app; [eauto|]. apply startCalls_id in Hx as ->.
      right. right. right. eauto.
  - assert (q ∈ requestQueue s) as Hq by (rewrite H; left).
    split; [|split].
    + intros k cl [[_ <-]|[_ Hk]]%lookup_insert_Some; [|eauto].
      right. left. simpl. eauto.
    + intros x [Hx|Hx]%elem_of_app; [eauto|]. apply startCalls_id in Hx as ->.
      right. right. left. eauto.
    + intros q' Hq'. left. rewrite H. by right.
  - split; [|split; [|eauto]].
    + intros k cl [[_ <-]|[_ Hk]]%lookup_insert_Some; [|eauto]. simpl. eauto.
    + intros x [Hx|Hx]%elem_of_app; [eauto|]. apply completeCall_id in Hx as ->. eauto.
  - split; [done|]. split; [|eauto].
    intros x [Hx|[Hx|Hx]%elem_of_app]%elem_of_app; [eauto| |].
    + apply resultCalls_id in Hx as ->. eauto.
    + apply completeCall_id in Hx as ->. eauto.
  - split; [done|]. split; [|eauto].
    intros x [Hx|[Hx|Hx]%elem_of_app]%elem_of_app; [eauto| |].
    + apply errorCalls_id in Hx as ->. eauto.
    + apply completeCall_id in Hx as ->. eauto.
  - split; [done|]. split; [eauto|]. intros q Hq. by apply elem_of_nil in Hq.
Qed.

Lemma cbIdAbsent_core a s s' e :
  cbIdAbsent a s → coreStep s s' e → submitsOtherThan a e → cbIdAbsent a s'.
Proof.
  intros [[Hcl Hcalls] Hq] Hstep He.
  destruct (coreStep_sources _ _ _ Hstep) as (S1 & S2 & S3).
  assert (∀ b, (∃ k cl, closures s !! k = Some cl ∧ cb_id (cl_cbs cl) = b)
    ∨ (∃ q, q ∈ requestQueue s ∧ cb_id (cbs q) = b)
    ∨ (∃ throws text c, e = Submit throws text c ∧ cb_id c = b) → b ≠ a) as Hknown.
  { intros b [(k & cl & Hk & <-)|[(q & Hin & <-)|(throws & text & c & -> & <-)]]; eauto. }
  split; [split|].
  - intros k cl Hk. apply Hknown, (S1 k cl Hk).
  - intros x Hx. destruct (S2 x Hx); eauto.
  - intros q Hin. destruct (S3 q Hin) as [?|(throws & text & c & -> & ->)]; eauto.
Qed.

Lemma cbIdAbsent_run creds a es s :
  cbIdAbsent a s → Forall (submitsOtherThan a) es → cbIdAbsent a (ttsRun creds s es).
Proof.
  revert s. induction es as [|e es IH]; intros s Hs Hes; [done|].
  apply Forall_cons in Hes as [He Hes].
  apply IH; [|done]. eapply cbIdAbsent_core; [done|apply ttsStep_core|done].
Qed.

Ltac split_mem :=
  repeat match goal with
  | H : _ ∈ _ ++ _ |- _ => apply elem_of_app in H as [H|H]
  | H : _ ∈ [_] |- _ => apply list_elem_of_singleton in H; subst
  | H : _ ∈ [] |- _ => by apply elem_of_nil in H
  | H : <[_:=_]> _ !! _ = Some _ |- _ =>
      apply lookup_insert_Some in H as [[_ H]|[_ H]]; [subst|]
  | H : _ ∈ startCalls _ _ _ |- _ => apply startCalls_id in H
  | H : _ ∈ completeCall _ _ |- _ => apply completeCall_id in H
  | H : _ ∈ resultCalls _ _ _ |- _ => apply resultCalls_id in H
  | H : _ ∈ errorCalls _ _ _ |- _ => apply errorCalls_id in H
  end.

(** The invariant of the queue is kept by every step, as long as each
    submission brings callbacks with a new number. *)
Lemma queueInv_core n n' s s' e :
  queueInv n s → coreStep s s' e → n ≤ n' →
  (∀ throws text c, e = Submit throws text c → n ≤ cb_id c < n') →
  queueInv n' s'.
Proof.
  intros (Hcl & Hcalls & Hq & Hnd) Hstep Hn He.
  assert (∀ q, q ∈ requestQueue s → cb_id (cbs q) < n) as Hqb
    by (intros q Hin; apply (Hq q Hin)).
  assert (∀ q k cl, q ∈ requestQueue s → closures s !! k = Some cl →
                    cb_id (cl_cbs cl) ≠ cb_id (cbs q)) as Hqc
    by (intros q k cl Hin; apply (Hq q Hin)).
  assert (∀ q x, q ∈ requestQueue s → x ∈ calls s → callId x.2 ≠ cb_id (cbs q)) as Hqx
    by (intros q x Hin; apply (Hq q Hin)).
  clear Hq. unfold queueInv, unstarted.
  destruct Hstep as [e|throws text c msg|throws t c|throws text c y
                    |throws q0 rest y Hq0|k' cl' Hk' Hi'|k' cl' r Hk'|k' cl' err Hk'|];
    repeat match goal with H : closures s' = _ |- _ => rewrite H; clear H end;
    repeat match goal with H : calls s' = _ |- _ => rewrite H; clear H end;
    repeat match goal with H : requestQueue s' = _ |- _ => rewrite H; clear H end;
    try specialize (He _ _ _ eq_refl);
    (split; [intros k cl Hk
            |split; [intros x Hx
                    |split; [intros q Hin; split; [|split; [intros k cl Hk|intros x Hx]]|]]]);
    split_mem.
  (* nothing changes *)
  - specialize (Hcl _ _ Hk). lia.
  - specialize (Hcalls _ Hx). lia.
  - specialize (Hqb _ Hin). lia.
  - eauto.
  - eauto.
  - done.
  (* refused: one error reported *)
  - specialize (Hcl _ _ Hk). lia.
  - specialize (Hcalls _ Hx). lia.
  - simpl. lia.
  - specialize (Hqb _ Hin). lia.
  - eauto.
  - eauto.
  - specialize (Hqb _ Hin). simpl. lia.
  - done.
  (* queued *)
  - specialize (Hcl _ _ Hk). lia.
  - specialize (Hcalls _ Hx). lia.
  - specialize (Hqb _ Hin). lia.
  - simpl. lia.
  - eauto.
  - specialize (Hcl _ _ Hk). simpl. lia.
  - eauto.
  - specialize (Hcalls _ Hx). simpl. lia.
  - rewrite fmap_app. apply NoDup_app. split; [done|]. split; [|apply NoDup_singleton].
    intros a (q & Ha & Hin)%list_elem_of_fmap Ha'%list_elem_of_singleton.
    specialize (Hqb _ Hin). simpl in *. lia.
  (* started at once *)
  - simpl. lia.
  - specialize (Hcl _ _ Hk). lia.
  - specialize (Hcalls _ Hx). lia.
  - rewrite Hx. lia.
  - specialize (Hqb _ Hin). lia.
  - specialize (Hqb _ Hin). simpl. lia.
  - eauto.
  - eauto.
  - specialize (Hqb _ Hin). rewrite Hx. lia.
  - done.
  (* promoted from the queue *)
  - assert (q0 ∈ requestQueue s) as Hin0 by (rewrite Hq0; left).
    specialize (Hqb _ Hin0). simpl. lia.
  - specialize (Hcl _ _ Hk). lia.
  - specialize (Hcalls _ Hx). lia.
  - assert (q0 ∈ requestQueue s) as Hin0 by (rewrite Hq0; left).
    specialize (Hqb _ Hin0). rewrite Hx. lia.
  - assert (q ∈ requestQueue s) as Hin' by (rewrite Hq0; by right).
    specialize (Hqb _ Hin'). lia.
  - rewrite Hq0 in Hnd. simpl in Hnd. apply NoDup_cons in Hnd as [Hnotin _].
    simpl. intros E. apply Hnotin. rewrite E. apply list_elem_of_fmap. eauto.
  - eapply Hqc; [|done]. rewrite Hq0. by right.
  - apply Hqx; [|done]. rewrite Hq0. by right.
  - rewrite Hq0 in Hnd. simpl in Hnd. apply NoDup_cons in Hnd as [Hnotin _].
    rewrite Hx. intros E. apply Hnotin. rewrite E. apply list_elem_of_fmap. eauto.
  - rewrite Hq0 in Hnd. simpl in Hnd. by apply NoDup_cons in Hnd as [_ Hnd].
  (* stopped *)
  - specialize (Hcl _ _ Hk'). simpl. lia.
  - specialize (Hcl _ _ Hk). lia.
  - specialize (Hcalls _ Hx). lia.
  - specialize (Hcl _ _ Hk'). rewrite Hx. lia.
  - specialize (Hqb _ Hin). lia.
  - simpl. eauto.
  - eauto.
  - eauto.
  - rewrite Hx. eauto.
  - done.
  (* answered with a result *)
  - specialize (Hcl _ _ Hk). lia.
  - specialize (Hcalls _ Hx). lia.
  - specialize (Hcl _ _ Hk'). rewrite Hx. lia.
  - specialize (Hcl _ _ Hk'). rewrite Hx. lia.
  - specialize (Hqb _ Hin). lia.
  - eauto.
  - eauto.
  - rewrite Hx. eauto.
  - rewrite Hx. eauto.
  - done.
  (* answered with an error *)
  - specialize (Hcl _ _ Hk). lia.
  - specialize (Hcalls _ Hx). lia.
  - specialize (Hcl _ _ Hk'). rewrite Hx. lia.
  - specialize (Hcl _ _ Hk'). rewrite Hx. lia.
  - specialize (Hqb _ Hin). lia.
  - eauto.
  - eauto.
  - rewrite Hx. eauto.
  - rewrite Hx. eauto.
  - done.
  (* queue cleared *)
  - specialize (Hcl _ _ Hk). lia.
  - specialize (Hcalls _ Hx). lia.
  - constructor.
Qed.

Lemma queueInv_run creds n es s :
  queueInv n s → Forall notSubmit es → queueInv n (ttsRun creds s es).
Proof.
  revert s. induction es as [|e es IH]; intros s Hs Hes; [done|].
  apply Forall_cons in Hes as [He Hes]. apply IH; [|done].
  eapply queueInv_core; [done|apply ttsStep_core|done|].
  intros throws text c ->. done.
Qed.

Lemma queueInv_initial : queueInv 0 initialTts.
Proof.
  split; [|split; [|split]]; simpl.
  - intros k cl Hk. by rewrite lookup_empty in Hk.
  - intros x Hx. by apply elem_of_nil in Hx.
  - intros q Hq. by apply elem_of_nil in Hq.
  - constructor.
Qed.

(** *** The handlers reach the module through its operations only *)

Lemma deliver_frame st x :
  tts (deliver st x) = tts st ∧ nextCb (deliver st x) = nextCb st.
Proof. unfold deliver. repeat case_match; done. Qed.

Lemma foldl_deliver_frame l st :
  tts (foldl deliver st l) = tts st ∧ nextCb (foldl deliver st l) = nextCb st.
Proof.
  revert st. induction l as [|x l IH]; intros st; [done|]. simpl.
  destruct (IH (deliver st x)) as [-> ->]. apply deliver_frame.
Qed.

Lemma withTts_frame {A} (op : ttsState → A * ttsState) st :
  (withTts op st).1 = (op (tts st)).1
  ∧ tts (withTts op st).2 = (op (tts st)).2
  ∧ nextCb (withTts op st).2 = nextCb st.
Proof.
  unfold withTts. destruct (op (tts st)) as [a t]. simpl.
  destruct (foldl_deliver_frame (drop (length (calls (tts st))) (calls t)) (setTts t st))
    as [-> ->]. done.
Qed.

Lemma speak_module creds id site throws text st :
  tts (speak creds id site throws text st)
  = ttsStep creds (tts st) (Submit throws text (Callbacks (nextCb st) true true true))
  ∧ nextCb (speak creds id site throws text st) = S (nextCb st).
Proof.
  unfold speak.
  match goal with |- context [withTts ?op ?st0] =>
    destruct (withTts_frame op st0) as (_ & Ht & Hn);
    destruct (withTts op st0) as [h st1] end.
  simpl in *. rewrite Ht, Hn. done.
Qed.

Lemma stop_module h st :
  tts (withTts (λ t, (tt, stop h t)) st).2 = stop h (tts st)
  ∧ nextCb (withTts (λ t, (tt, stop h t)) st).2 = nextCb st.
Proof. destruct (withTts_frame (λ t, (tt, stop h t)) st) as (_ & -> & ->). done. Qed.

Lemma moduleTrace_same creds st st' :
  tts st' = tts st → nextCb st' = nextCb st → moduleTrace creds st st'.
Proof. intros Ht Hn. left. exists []. by rewrite Ht, Hn. Qed.

Lemma moduleTrace_speak creds id site throws text st0 st :
  tts st0 = tts st → nextCb st0 = nextCb st →
  moduleTrace creds st (speak creds id site throws text st0).
Proof.
  intros Ht Hn. right. exists throws, text.
  destruct (speak_module creds id site throws text st0) as [-> ->].
  by rewrite Ht, Hn.
Qed.

Lemma interruptAI_module id st :
  (tts (interruptAI id st) = tts st
   ∨ ∃ h, tts (interruptAI id st) = stop h (tts st))
  ∧ nextCb (interruptAI id st) = nextCb st.
Proof.
  unfold interruptAI. destruct (activeSynthesizers st !! id) as [[h|]|]; auto.
  destruct (stop_module h st) as [Ht Hn].
  cbn [tts nextCb setActiveSynthesizers]. rewrite Ht, Hn. eauto.
Qed.

Lemma stopCurrent_module id st :
  (tts (stopCurrent id st) = tts st
   ∨ ∃ h, tts (stopCurrent id st) = stop h (tts st))
  ∧ nextCb (stopCurrent id st) = nextCb st.
Proof.
  unfold stopCurrent. destruct (activeSynthesizers st !! id) as [[h|]|]; auto.
  destruct (stop_module h st) as [Ht Hn]. rewrite Ht, Hn. eauto.
Qed.

Lemma userSpeech_module id payload st :
  (tts (userSpeech id payload st) = tts st
   ∨ tts (userSpeech id payload st) = tts (stopCurrent id st))
  ∧ nextCb (userSpeech id payload st) = nextCb (stopCurrent id st).
Proof.
  destruct (stopCurrent_module id st) as [_ Hn]. rewrite Hn.
  unfold userSpeech. repeat case_match; cbn [tts nextCb reject setAwaiting logClientCall setSessionObjs]; auto.
Qed.

Lemma endSession_module id st :
  tts (endSession id st) = cleanupSynthesizer (tts (interruptAI id st))
  ∧ nextCb (endSession id st) = nextCb st.
Proof.
  unfold endSession.
  destruct (withTts_frame (λ t, (tt, cleanupSynthesizer t)) (interruptAI id st))
    as (_ & Ht & Hn).
  simpl in *. rewrite Ht, Hn. split; [done|]. apply interruptAI_module.
Qed.

Lemma serverStep_module creds key prompt st e :
  moduleTrace creds st (serverStep creds key prompt st e).
Proof.
  destruct e as [id|id random throws|id payload|n net random throws|id|id|id|id
                |k r|k err|throws]; cbn [serverStep].
  - by apply moduleTrace_same.
  - unfold startSession.
    destruct (sessions st !! id) as [o|]; simpl;
      repeat case_match; by apply moduleTrace_speak.
  - destruct (userSpeech_module id payload st) as [[Ht|Ht] Hn];
      destruct (stopCurrent_module id st) as [[Hs|[h Hs]] Hn'].
    + apply moduleTrace_same; congruence.
    + apply moduleTrace_same; congruence.
    + apply moduleTrace_same; congruence.
    + left. exists [StopEv h]. rewrite Ht, Hs, Hn, Hn'. repeat split; repeat constructor.
  - unfold userSpeechResume, userSpeechCatch.
    repeat case_match; try (by apply moduleTrace_same); by apply moduleTrace_speak.
  - destruct (interruptAI_module id st) as [[Ht|[h Ht]] Hn];
      [by apply moduleTrace_same|].
    left. exists [StopEv h]. rewrite Ht, Hn. repeat split; repeat constructor.
  - destruct (interruptAI_module id st) as [[Ht|[h Ht]] Hn];
      [by apply moduleTrace_same|].
    left. exists [StopEv h]. unfold speechDetected. rewrite Ht, Hn.
    repeat split; repeat constructor.
  - destruct (endSession_module id st) as [Ht Hn].
    destruct (interruptAI_module id st) as [[Hi|[h Hi]] _]; left.
    + exists [CleanupSynthesizer]. rewrite Ht, Hi, Hn. repeat split; repeat constructor.
    + exists [StopEv h; CleanupSynthesizer]. rewrite Ht, Hi, Hn.
      repeat split; repeat constructor.
  - unfold disconnect. destruct (endSession_module id st) as [Ht Hn].
    destruct (interruptAI_module id st) as [[Hi|[h Hi]] _]; left.
    + exists [CleanupSynthesizer]. rewrite Ht, Hi, Hn. repeat split; repeat constructor.
    + exists [StopEv h; CleanupSynthesizer]. rewrite Ht, Hi, Hn.
      repeat split; repeat constructor.
  - match goal with |- context [withTts ?op ?st0] =>
      destruct (withTts_frame op st0) as (_ & Ht & Hn) end.
    left. exists [SdkResult k r]. simpl in *. rewrite Ht, Hn. repeat split; repeat constructor.
  - match goal with |- context [withTts ?op ?st0] =>
      destruct (withTts_frame op st0) as (_ & Ht & Hn) end.
    left. exists [SdkError k err]. simpl in *. rewrite Ht, Hn. repeat split; repeat constructor.
  - match goal with |- context [withTts ?op ?st0] =>
      destruct (withTts_frame op st0) as (_ & Ht & Hn) end.
    left. exists [TimerFires throws]. simpl in *. rewrite Ht, Hn. repeat split; repeat constructor.
Qed.

Lemma serverInv_run creds key prompt es st :
  queueInv (nextCb st) (tts st) →
  queueInv (nextCb (serverRun creds key prompt st es))
           (tts (serverRun creds key prompt st es)).
Proof.
  revert st. induction es as [|e es IH]; intros st Hst; [done|].
  apply IH. destruct (serverStep_module creds key prompt st e)
    as [(es' & Hes & -> & ->)|(throws & text & -> & ->)].
  - by apply queueInv_run.
  - eapply queueInv_core; [done|apply ttsStep_core|lia|].
    intros ? ? ? [= _ _ <-]. simpl. lia.
Qed.

Lemma serverAbsent_run creds key prompt a es st :
  a < nextCb st → cbIdAbsent a (tts st) →
  cbIdAbsent a (tts (serverRun creds key prompt st es)).
Proof.
  revert st. induction es as [|e es IH]; intros st Ha Hst; [done|].
  destruct (serverStep_module creds key prompt st e)
    as [(es' & Hes & Ht & Hn)|(throws & text & Ht & Hn)];
    (apply IH; [rewrite Hn; lia|rewrite Ht]).
  - apply cbIdAbsent_run; [done|].
    eapply Forall_impl; [done|]. by intros [].
  - eapply cbIdAbsent_core; [done|apply ttsStep_core|]. simpl. lia.
Qed.

Lemma cleanupSynthesizer_state s :
  let s' := cleanupSynthesizer s in
  persistentSynthesizer s' = None
  ∧ (∀ y, persistentSynthesizer s = Some y → Close y ∈ sdkLog s')
  ∧ isSynthesizerBusy s' = false
  ∧ requestQueue s' = []
  ∧ isProcessingQueue s' = false
  ∧ closures s' = closures s
  ∧ calls s' = calls s.
Proof.
  flat s. destruct ps0 as [y|]; simpl; repeat split; try done.
  intros y' [= <-]. apply elem_of_app. right. by left.
Qed.

Lemma stop_persistentSynthesizer h s :
  persistentSynthesizer (stop h s) = persistentSynthesizer s
  ∧ ∀ c, c ∈ sdkLog s → c ∈ sdkLog (stop h s).
Proof.
  destruct h as [|k]; [done|]. unfold stop.
  destruct (closures s !! k) as [[[id [] [] []] y []]|]; try done;
    flat s; simpl; (split; [done|]); intros c Hc; apply elem_of_app; by left.
Qed.

(** C10.  In every state the server can reach, [endSession] on any socket
    (and [disconnect], which does the same) leaves the speech module with
    its synthesizer closed and discarded, the busy flag and the processing
    flag cleared, and the queue empty; and for every request that was in the
    queue, whichever socket it came from, none of its three callbacks has
    been invoked, nor is one invoked in anything that happens later. *)
Theorem endSession_abandons_queue (creds : bool) (key : option jsstring)
    (prompt : jsstring) (es0 : list serverEvent) (id : string) :
  let st := serverRun creds key prompt initialServer es0 in
  let st' := endSession id st in
  disconnect id st = st'
  ∧ persistentSynthesizer (tts st') = None
  ∧ (∀ y, persistentSynthesizer (tts st) = Some y → Close y ∈ sdkLog (tts st'))
  ∧ isSynthesizerBusy (tts st') = false
  ∧ requestQueue (tts st') = []
  ∧ isProcessingQueue (tts st') = false
  ∧ ∀ q es x,
      q ∈ requestQueue (tts st) →
      x ∈ calls (tts (serverRun creds key prompt st' es)) →
      callId x.2 ≠ cb_id (cbs q).
Proof.
  intros st st'.
  destruct (endSession_module id st) as [Ht Hn]. fold st' in Ht, Hn.
  destruct (cleanupSynthesizer_state (tts (interruptAI id st)))
    as (H1 & H2 & H3 & H4 & H5 & H6 & H7).
  rewrite <- Ht in H1, H2, H3, H4, H5, H6, H7.
  split; [done|]. split; [done|]. split.
  { intros y Hy. apply H2.
    destruct (interruptAI_module id st) as [[->|[h ->]] _]; [done|].
    by rewrite (proj1 (stop_persistentSynthesizer h (tts st))). }
  split; [done|]. split; [done|]. split; [done|].
  intros q es x Hq.
  assert (queueInv (nextCb st) (tts st)) as Hinv
    by (apply serverInv_run, queueInv_initial).
  assert (queueInv (nextCb st) (tts (interruptAI id st))
          ∧ requestQueue (tts (interruptAI id st)) = requestQueue (tts st))
    as [Hinv' Hqueue].
  { destruct (interruptAI_module id st) as [[->|[h ->]] _]; [done|].
    pose proof (stop_core h (tts st)) as Hstep. split.
    - eapply queueInv_core; [done|done|lia|]. intros ? ? ? [=].
    - inversion Hstep; done. }
  destruct Hinv' as (_ & _ & Hq' & _).
  rewrite <- Hqueue in Hq. destruct (Hq' q Hq) as [Hlt [Hcl Hcalls]].
  assert (cbIdAbsent (cb_id (cbs q)) (tts st')) as Habs.
  { split; [split|].
    - by rewrite H6.
    - by rewrite H7.
    - rewrite H4. intros q' Hin. by apply elem_of_nil in Hin. }
  destruct (serverAbsent_run creds key prompt (cb_id (cbs q)) es st') as [[_ Hfinal] _];
    [by rewrite Hn|done|].
  apply Hfinal.
Qed.

(** C10 on a run: the greeting of socket [b] is queued behind the greeting
    of socket [a]; socket [a] ends its session; whatever follows, the
    callbacks of socket [b] are not invoked. *)
Lemma endSession_abandons_queue_witness :
  let es0 :=
    [Connection "a"; StartSession "a" 0%N None;
     Connection "b"; StartSession "b" 0%N None] in
  let st := serverRun true (Some (lit "key")) [] initialServer es0 in
  let queued := Request (default [] (head starters)) (sampleCallbacks 1) in
  let later := [Timer None; SdkAnswers 0 completedWithAudio; Timer None] in
  requestQueue (tts st) = [queued]
  ∧ Forall (λ x, callId x.2 ≠ 1)
      (calls (tts (serverRun true (Some (lit "key")) [] (endSession "a" st) later))).
Proof.
  split; [vm_compute; reflexivity|].
  apply Forall_forall. intros x Hx.
  pose proof (endSession_abandons_queue true (Some (lit "key")) []
                [Connection "a"; StartSession "a" 0%N None;
                 Connection "b"; StartSession "b" 0%N None] "a")
    as (_ & _ & _ & _ & _ & _ & H).
  refine (H (Request (default [] (head starters)) (sampleCallbacks 1)) _ x _ Hx).
  vm_compute. left.
Defined.

(** ** Further properties of the markup generator *)

Lemma unescapeXml_escapeXml text : unescapeXml (escapeXml text) = text.
Proof.
  induction text as [|x text IH]; [reflexivity|].
  rewrite escapeXml_cons. unfold escapeChar.
  destruct (decide (x = AMP)) as [->|Ha]; [simpl; by rewrite IH|].
  destruct (decide (x = LT)) as [->|Hl]; [simpl; by rewrite IH|].
  destruct (decide (x = GT)) as [->|Hg]; [simpl; by rewrite IH|].
  change ([x] ++ escapeXml text) with (x :: escapeXml text).
  assert (∀ s, unescapeXml (x :: s) = x :: unescapeXml s) as ->; [|by rewrite IH].
  intros s. unfold AMP in Ha. simpl.
  repeat (case_match; try done).
Qed.

(** X1.  Escaping loses nothing and changes only what it must: two texts
    with the same escaped form are the same text, and a text is left as it
    is exactly when it holds none of [&], [<], [>]. *)
Theorem escapeXml_injective (t1 t2 : jsstring) :
  (escapeXml t1 = escapeXml t2 → t1 = t2)
  ∧ (escapeXml t1 = t1 ↔ AMP ∉ t1 ∧ LT ∉ t1 ∧ GT ∉ t1).
Proof.
  split.
  - intros E. rewrite <- (unescapeXml_escapeXml t1), <- (unescapeXml_escapeXml t2).
    by rewrite E.
  - split.
    + intros E.
      assert (LT ∉ t1 ∧ GT ∉ t1) as [Hl Hg].
      { split; intros Hin; rewrite <- E in Hin;
          by destruct (escapeXml_no_angle _ _ Hin). }
      split; [|done]. intros Ha.
      assert (length (escapeXml t1) = length t1) as Hlen by (by rewrite E).
      clear E Hl Hg. revert Hlen.
      assert (∀ t, length t ≤ length (escapeXml t)) as Hle.
      { induction t as [|x t IH]; [done|]. rewrite escapeXml_cons, length_app.
        unfold escapeChar. repeat case_decide; simpl; lia. }
      induction t1 as [|x t IH]; [by apply elem_of_nil in Ha|].
      rewrite escapeXml_cons, length_app. unfold escapeChar.
      apply elem_of_cons in Ha as [<-|Ha].
      * rewrite decide_True by done. pose proof (Hle t). simpl. lia.
      * pose proof (Hle t). repeat case_decide; simpl; try lia.
        intros Hlen. apply IH; [done|lia].
    + intros (Ha & Hl & Hg). unfold escapeXml.
      rewrite (replaceAll_absent AMP) by done.
      rewrite (replaceAll_absent LT) by done.
      by rewrite (replaceAll_absent GT).
Qed.

(** ** Further properties of the completion client *)

(** X2.  With a key configured and a string as input, a well-shaped reply
    of the completion API (one whose [choices[0].message.content] is a
    string) is returned trimmed, whatever the history and the random
    number; the result may be the empty string when the content is blank. *)
Theorem getTherapistResponse_reply (key : option jsstring) (prompt u : jsstring)
    (hist : list message) (data : jsval) (c : jsstring) (random : N) :
  envTruthy key = true →
  contentOf data = Return (VString c) →
  getTherapistResponse key prompt (VString u) hist (RespondsOk (Some data)) random
  = Return (VString (trim c)).
Proof.
  intros Hkey Hc. unfold getTherapistResponse. rewrite Hkey. cbn [negb].
  by rewrite (therapistTry_wellShaped _ _ _ _ _ Hc).
Qed.

Lemma getTherapistResponse_reply_witness :
  getTherapistResponse (Some (lit "key")) [] (VString (lit "hello")) []
    (okReply "  I hear you.  ") 0%N
  = Return (VString (trim (lit "  I hear you.  "))).
Proof.
  apply (getTherapistResponse_reply (Some (lit "key")) [] (lit "hello") []
           _ (lit "  I hear you.  ") 0%N); reflexivity.
Defined.

(** X3.  [getRandomConversationStarter] returns one of the eight starters,
    never [undefined], whatever [Math.random] gives. *)
Theorem getRandomConversationStarter_in_starters (random : N) :
  ∃ g, getRandomConversationStarter random = VString g ∧ g ∈ starters.
Proof.
  unfold getRandomConversationStarter.
  destruct (arrayAt_lt starters (floorRandomTimes random (length starters)))
    as (g & Hg & ->).
  - apply floorRandomTimes_lt. simpl. lia.
  - exists g. split; [done|]. by eapply list_elem_of_lookup_2.
Qed.

(** ** Further properties of the speech module *)

(** X4.  A valid submission (non-empty string, credentials set) that the SDK
    accepts.  While the busy flag is set it is appended to the end of the
    queue, [undefined] is returned, and nothing else changes: no closure, no
    SDK call, no callback.  While the flag is clear it is started at once,
    even when requests are waiting in the queue, which it overtakes: the
    queue is left as it is, the flag is set, the markup of the text under the
    current voice and mode is handed to the SDK, no callback is invoked yet,
    and the handle of the new call is returned. *)
Theorem textToSpeech_valid (ch : N) (t : jsstring) (c : callbacks) (s : ttsState) :
  let text := ch :: t in
  let r := textToSpeech true None (VString text) c s in
  if isSynthesizerBusy s then
    r = (None, setQueue (requestQueue s ++ [Request text c]) s)
  else
    r.1 = Some (StopHandle (nextClosure s))
    ∧ requestQueue r.2 = requestQueue s
    ∧ isSynthesizerBusy r.2 = true
    ∧ closures r.2
      = <[nextClosure s := Closure c (synthesizerFor s) false]> (closures s)
    ∧ outstanding r.2 = outstanding s ++ [nextClosure s]
    ∧ calls r.2 = calls s
    ∧ timers r.2 = timers s
    ∧ ∃ before,
        sdkLog r.2
        = before
          ++ [SpeakSsmlAsync (synthesizerFor s)
                (generateOptimizedSSML (currentVoiceGender s)
                   (currentPerformanceMode s) text)
                (nextClosure s)].
Proof.
  intros text r. destruct (isSynthesizerBusy s) eqn:Hb.
  - by apply textToSpeech_busy.
  - subst r. unfold textToSpeech. cbn [negb]. rewrite Hb.
    flat s. simpl in Hb. subst. destruct ps0 as [y|]; simpl;
      repeat split; eauto.
Qed.

(** X5.  A valid submission on which [speakSsmlAsync] throws, the busy flag
    being clear: [onError] is invoked with the exception's message, then
    [onComplete]; the busy flag is clear again, one timer is set so that the
    queue goes on, the queue is left as it is, and the handle returned does
    nothing. *)
Theorem textToSpeech_exception (ch : N) (t m : jsstring) (id : nat) (s : ttsState) :
  isSynthesizerBusy s = false →
  let c := Callbacks id true true true in
  let r := textToSpeech true (Some m) (VString (ch :: t)) c s in
  r.1 = Some NoopHandle
  ∧ calls r.2
    = calls s ++ [(Some (nextClosure s), Error id (lit "Exception: " ++ m));
                  (Some (nextClosure s), Complete id)]
  ∧ isSynthesizerBusy r.2 = false
  ∧ timers r.2 = S (timers s)
  ∧ requestQueue r.2 = requestQueue s
  ∧ outstanding r.2 = outstanding s
  ∧ ∀ s', stop NoopHandle s' = s'.
Proof.
  intros Hb c r. subst r c. unfold textToSpeech. cbn [negb]. rewrite Hb.
  flat s. simpl in Hb. subst. destruct ps0 as [y|]; simpl;
    rewrite <- ?app_assoc; repeat split; eauto.
Qed.

Lemma textToSpeech_exception_witness :
  let r := textToSpeech true (Some (lit "disposed")) (VString (lit "Hello"))
             (Callbacks 7 true true true) initialTts in
  r.1 = Some NoopHandle
  ∧ calls r.2
    = [(Some 0, Error 7 (lit "Exception: " ++ lit "disposed")); (Some 0, Complete 7)].
Proof.
  pose proof (textToSpeech_exception 72%N (lit "ello") (lit "disposed") 7 initialTts
                eq_refl) as (H1 & H2 & _).
  split; [exact H1|exact H2].
Defined.

(** X6.  A submission that is refused: the text is not a string, or is the
    empty string, or the credentials are missing.  [onError] is invoked once
    with the reason, and nothing else happens: the queue, the flags, the
    closures, the timers and the SDK are not touched, [onComplete] is not
    invoked, and the handle returned does nothing. *)
Theorem textToSpeech_refused (creds : bool) (throws : option jsstring)
    (text : jsval) (id : nat) (s : ttsState) :
  creds = false ∨ (∀ ch t, text ≠ VString (ch :: t)) →
  let c := Callbacks id true true true in
  let r := textToSpeech creds throws text c s in
  ∃ msg,
    r = (Some NoopHandle, invoke None true (Error id msg) s)
    ∧ calls r.2 = calls s ++ [(None, Error id msg)]
    ∧ requestQueue r.2 = requestQueue s
    ∧ isSynthesizerBusy r.2 = isSynthesizerBusy s
    ∧ isProcessingQueue r.2 = isProcessingQueue s
    ∧ closures r.2 = closures s
    ∧ timers r.2 = timers s
    ∧ sdkLog r.2 = sdkLog s
    ∧ outstanding r.2 = outstanding s
    ∧ persistentSynthesizer r.2 = persistentSynthesizer s
    ∧ (msg = lit "Invalid text input"
       ∨ msg = lit "Azure credentials not configured"
         ∧ ∃ ch t, text = VString (ch :: t)).
Proof.
  intros Hrefused c r. subst r c. unfold textToSpeech.
  destruct text as [| | | |[|ch t]| |];
    try (eexists; repeat split; [by left]).
  destruct Hrefused as [->|Hno]; [|by destruct (Hno ch t)].
  cbn [negb]. eexists. repeat split. right. eauto.
Qed.

Lemma textToSpeech_refused_witness :
  let r := textToSpeech true None (VString []) (Callbacks 7 true true true) initialTts in
  ∃ msg, r = (Some NoopHandle, invoke None true (Error 7 msg) initialTts)
         ∧ calls r.2 = [(None, Error 7 msg)].
Proof.
  assert (∀ (ch : N) (t : jsstring), VString [] ≠ VString (ch :: t)) as Hne
    by (intros ch t; discriminate).
  destruct (textToSpeech_refused true None (VString []) 7 initialTts
              (or_intror Hne))
    as (msg & H1 & H2 & _).
  exists msg. split; [exact H1|exact H2].
Defined.

Lemma coreStep_queue s s' e :
  coreStep s s' e →
  requestQueue s' = requestQueue s
  ∨ (∃ throws t c, e = Submit throws (VString t) c
                   ∧ requestQueue s' = requestQueue s ++ [Request t c])
  ∨ (∃ throws q, e = TimerFires throws
                 ∧ requestQueue s = q :: requestQueue s'
                 ∧ ∃ cl, closures s' !! nextClosure s = Some cl ∧ cl_cbs cl = cbs q)
  ∨ (e = CleanupSynthesizer ∧ requestQueue s' = []).
Proof.
  destruct 1 as [e| | | |throws q rest y Hq Hcl Hn Hq'| | | |].
  - by left.
  - by left.
  - right. left. eauto.
  - by left.
  - right. right. left. exists throws, q. split; [done|]. split; [congruence|].
    eexists. rewrite Hcl, lookup_insert_eq. done.
  - by left.
  - by left.
  - by left.
  - right. right. right. done.
Qed.

(** X7.  The queue is first in, first out: an event leaves it as it is,
    or appends one request at its end (a submission), or removes its first
    request (a timer, which starts it), or empties it (the forced cleanup).
    No event reorders it or removes a request from the middle. *)
Theorem requestQueue_fifo (creds : bool) (s : ttsState) (e : ttsEvent) :
  let s' := ttsStep creds s e in
  requestQueue s' = requestQueue s
  ∨ (∃ throws t c, e = Submit throws (VString t) c
                   ∧ requestQueue s' = requestQueue s ++ [Request t c])
  ∨ (∃ throws q, e = TimerFires throws
                 ∧ requestQueue s = q :: requestQueue s'
                 ∧ ∃ cl, closures s' !! nextClosure s = Some cl ∧ cl_cbs cl = cbs q)
  ∨ (e = CleanupSynthesizer ∧ requestQueue s' = []).
Proof. apply coreStep_queue, ttsStep_core. Qed.

(** X8.  The timer set by [cleanup].  When it runs with the busy flag clear
    and a request waiting, the first request of the queue is started: it
    leaves the queue, the processing flag is set, its markup goes to the SDK,
    and the busy flag is set when the SDK accepts it.  When the SDK throws
    instead, the request's [onError] and [onComplete] are invoked and a new
    timer is set, so the queue goes on with the next request.  When the
    timer runs with the busy flag set, the queue is left alone and the
    processing flag is cleared. *)
Theorem timer_drains_queue (creds : bool) (throws : option jsstring)
    (s : ttsState) (n : nat) :
  timers s = S n →
  let s' := ttsStep creds s (TimerFires throws) in
  match isSynthesizerBusy s, requestQueue s with
  | false, q :: rest =>
      requestQueue s' = rest
      ∧ isProcessingQueue s' = true
      ∧ closures s'
        = <[nextClosure s := Closure (cbs q) (synthesizerFor s) false]> (closures s)
      ∧ (∃ before,
           sdkLog s'
           = before
             ++ [SpeakSsmlAsync (synthesizerFor s)
                   (generateOptimizedSSML (currentVoiceGender s)
                      (currentPerformanceMode s) (text q))
                   (nextClosure s)])
      ∧ match throws with
        | None =>
            isSynthesizerBusy s' = true ∧ timers s' = n
            ∧ outstanding s' = outstanding s ++ [nextClosure s]
            ∧ calls s' = calls s
        | Some m =>
            isSynthesizerBusy s' = false ∧ timers s' = S n
            ∧ outstanding s' = outstanding s
            ∧ calls s'
              = calls s
                ++ (if onError (cbs q)
                    then [(Some (nextClosure s),
                           Error (cb_id (cbs q)) (lit "Exception: " ++ m))]
                    else [])
                ++ (if onComplete (cbs q)
                    then [(Some (nextClosure s), Complete (cb_id (cbs q)))]
                    else [])
        end
  | _, _ =>
      requestQueue s' = requestQueue s ∧ isProcessingQueue s' = false
      ∧ isSynthesizerBusy s' = isSynthesizerBusy s ∧ timers s' = n
      ∧ closures s' = closures s ∧ calls s' = calls s ∧ sdkLog s' = sdkLog s
  end.
Proof.
  intros Ht s'. subst s'. cbn [ttsStep]. rewrite Ht.
  unfold timerBody, processQueue.
  destruct s as [g ps b q p md cl nc ns tm o l c]. simpl in Ht. subst tm.
  destruct b.
  { cbn [isSynthesizerBusy requestQueue isProcessingQueue setProcessing setTimers].
    rewrite orb_true_r. destruct q; done. }
  destruct q as [|[qt [qid qa qe qc]] rest]; [done|].
  destruct ps as [y|], throws as [m|], qe, qc; simpl;
    repeat split; rewrite ?app_nil_r;
    try (by rewrite <- ?app_assoc); eexists; reflexivity.
Qed.

Lemma timer_drains_queue_witness :
  let s :=
    ttsRun true initialTts
      [Submit None (VString (lit "first")) (sampleCallbacks 1);
       Submit None (VString (lit "second")) (sampleCallbacks 2);
       SdkResult 0 completedWithAudio] in
  let s' := ttsStep true s (TimerFires None) in
  requestQueue s = [Request (lit "second") (sampleCallbacks 2)]
  ∧ requestQueue s' = [] ∧ isSynthesizerBusy s' = true
  ∧ closures s' !! 1 = Some (Closure (sampleCallbacks 2) 0 false).
Proof.
  pose proof (timer_drains_queue true None
    (ttsRun true initialTts
      [Submit None (VString (lit "first")) (sampleCallbacks 1);
       Submit None (VString (lit "second")) (sampleCallbacks 2);
       SdkResult 0 completedWithAudio]) 0 eq_refl) as H.
  vm_compute in H. destruct H as (H1 & _ & H3 & _ & H5 & _).
  split; [vm_compute; reflexivity|]. split; [exact H1|]. split; [exact H5|].
  vm_compute. reflexivity.
Defined.

Lemma textToSpeechInternal_sdk throws t c s :
  sdkStep s (textToSpeechInternal throws t c s).2.
Proof.
  destruct s as [g ps b q p md cl nc ns tm o l cs].
  destruct ps as [y|].
  - eapply (sdk_speak_reused _ _ y md t nc); destruct throws, c as [id [] [] []];
      try reflexivity.
  - eapply (sdk_speak_new _ _ md t nc); destruct throws, c as [id [] [] []];
      simpl; rewrite <- ?app_assoc; try reflexivity.
Qed.

Lemma processQueue_sdk throws s : sdkStep s (processQueue throws s).
Proof.
  unfold processQueue.
  destruct (isProcessingQueue s || (length (requestQueue s) =? 0) || isSynthesizerBusy s);
    [by apply sdk_quiet|].
  destruct (requestQueue s) as [|q rest] eqn:Hq.
  - cbn [requestQueue setProcessing]. rewrite Hq. by apply sdk_quiet.
  - cbn [requestQueue setProcessing]. rewrite Hq.
    pose proof (textToSpeechInternal_sdk throws (text q) (cbs q)
                  (setQueue rest (setProcessing true s))) as H.
    destruct H; [by apply sdk_quiet|by eapply sdk_stopSpeaking
                |by eapply sdk_speak_reused|by eapply sdk_speak_new
                |by eapply sdk_discard|by eapply sdk_revoice].
Qed.

Lemma cleanup_sdk k c s :
  sdkLog (cleanup k c s) = sdkLog s
  ∧ persistentSynthesizer (cleanup k c s) = persistentSynthesizer s
  ∧ currentVoiceGender (cleanup k c s) = currentVoiceGender s
  ∧ nextSynthesizer (cleanup k c s) = nextSynthesizer s.
Proof. flat s. destruct c as [id [] [] []]; done. Qed.

Lemma ttsStep_sdk creds s e : sdkStep s (ttsStep creds s e).
Proof.
  destruct e as [throws text c|h|k r|k err|throws| |g|m]; cbn [ttsStep].
  - unfold textToSpeech.
    destruct text as [| | | |[|ch t]| |];
      try (apply sdk_quiet; flat s; destruct c as [id [] [] []]; reflexivity).
    destruct creds; cbn [negb];
      [|apply sdk_quiet; flat s; destruct c as [id [] [] []]; reflexivity].
    destruct (isSynthesizerBusy s) eqn:Hb.
    + unfold queueRequest, processQueue. cbn [isSynthesizerBusy setQueue snd].
      rewrite Hb, orb_true_r. by apply sdk_quiet.
    + pose proof (textToSpeechInternal_sdk throws (ch :: t) c s) as H.
      by destruct (textToSpeechInternal throws (ch :: t) c s).
  - destruct h as [|k]; [by apply sdk_quiet|]. simpl.
    destruct (closures s !! k) as [cl|]; [|by apply sdk_quiet].
    destruct (isInterrupted cl); [by apply sdk_quiet|].
    apply (sdk_stopSpeaking _ _ (cl_synthesizer cl));
      flat s; destruct cl as [[id [] [] []] y i]; reflexivity.
  - case_bool_decide; [|by apply sdk_quiet]. unfold onSpeakResult.
    cbn [closures setOutstanding].
    destruct (closures s !! k) as [cl|]; [|by apply sdk_quiet].
    apply sdk_quiet; flat s;
      destruct cl as [[id [] [] []] y []], r as [[|p] [[|b bytes]|]]; reflexivity.
  - case_bool_decide; [|by apply sdk_quiet]. unfold onSpeakError.
    cbn [closures setOutstanding].
    destruct (closures s !! k) as [cl|]; [|by apply sdk_quiet].
    apply sdk_quiet; flat s; destruct cl as [[id [] [] []] y i]; reflexivity.
  - destruct (timers s) as [|n]; [by apply sdk_quiet|]. unfold timerBody.
    pose proof (processQueue_sdk throws (setProcessing false (setTimers n s))) as H.
    destruct H; [by apply sdk_quiet|by eapply sdk_stopSpeaking
                |by eapply sdk_speak_reused|by eapply sdk_speak_new
                |by eapply sdk_discard|by eapply sdk_revoice].
  - destruct (persistentSynthesizer s) as [y|] eqn:Hy.
    + apply (sdk_discard _ _ y); [done|..]; flat s; simpl in Hy; subst; reflexivity.
    + apply sdk_quiet; flat s; simpl in Hy; subst; reflexivity.
  - unfold setVoiceGender.
    destruct (match g with VString n => _ | _ => None end) as [g'|];
      [|by apply sdk_quiet].
    destruct (persistentSynthesizer s) as [y|] eqn:Hy.
    + apply (sdk_discard _ _ y); [done|..]; flat s; simpl in Hy; subst; reflexivity.
    + apply sdk_revoice; [done|..]; flat s; simpl in Hy; subst; reflexivity.
  - apply sdk_quiet; unfold setPerformanceMode; repeat case_match; flat s; reflexivity.
Qed.

Lemma speaksMatchVoice_snoc log c :
  speaksMatchVoice log →
  (∀ y ssml k, c = SpeakSsmlAsync y ssml k →
     ∃ g m text, ssml = generateOptimizedSSML g m text
                 ∧ NewSynthesizer y (voiceNameOf g) ∈ log ∧ Close y ∉ log) →
  speaksMatchVoice (log ++ [c]).
Proof.
  intros Hlog Hc before y ssml k after E.
  destruct after as [|a after _] using rev_ind.
  - apply app_inj_tail in E as [-> ->]. eauto.
  - rewrite app_comm_cons, app_assoc in E. apply app_inj_tail in E as [E _].
    eauto.
Qed.

Lemma voiceInv_snoc s c n g ps :
  voiceInv s →
  (∀ y v, c = NewSynthesizer y v →
     y = nextSynthesizer s ∧ n = S y) →
  (∀ y, c = Close y → persistentSynthesizer s = Some y ∧ ps = None) →
  (∀ y ssml k, c = SpeakSsmlAsync y ssml k →
     persistentSynthesizer s = Some y
     ∧ ∃ m text, ssml = generateOptimizedSSML (currentVoiceGender s) m text) →
  nextSynthesizer s ≤ n →
  (∀ y, ps = Some y →
     (persistentSynthesizer s = Some y ∧ g = currentVoiceGender s)
     ∨ c = NewSynthesizer y (voiceNameOf g)) →
  ∀ s', sdkLog s' = sdkLog s ++ [c] → nextSynthesizer s' = n →
        currentVoiceGender s' = g → persistentSynthesizer s' = ps →
        voiceInv s'.
Proof.
  intros (Hnew & Hclose & Hps & Hsp & Huniq) Hc_new Hc_close Hc_speak Hn Hps'
         s' Hl Hn' Hg' Hp'.
  unfold voiceInv. rewrite Hl, Hn', Hg', Hp'.
  split; [|split; [|split; [|split]]].
  - intros y v [Hin|E%list_elem_of_singleton]%elem_of_app.
    + specialize (Hnew _ _ Hin). lia.
    + destruct (Hc_new _ _ (eq_sym E)). lia.
  - intros y [Hin|E%list_elem_of_singleton]%elem_of_app.
    + specialize (Hclose _ Hin). lia.
    + destruct (Hc_close _ (eq_sym E)) as [Hy _].
      destruct (Hps _ Hy) as [Hin _]. specialize (Hnew _ _ Hin). lia.
  - intros y Hy. destruct (Hps' _ Hy) as [[Hy' Eg]|Ec].
    + rewrite Eg. destruct (Hps _ Hy') as [Hin Hnot]. split; [apply elem_of_app; by left|].
      intros [Hin'|E%list_elem_of_singleton]%elem_of_app; [done|].
      destruct (Hc_close _ (eq_sym E)). congruence.
    + split; [apply elem_of_app; right; rewrite Ec; by left|].
      destruct (Hc_new _ _ Ec) as [Ey _].
      intros [Hin'|E%list_elem_of_singleton]%elem_of_app; [|congruence].
      specialize (Hclose _ Hin'). lia.
  - apply speaksMatchVoice_snoc; [done|]. intros y ssml k Ec.
    destruct (Hc_speak _ _ _ Ec) as (Hy & m & text & ->).
    destruct (Hps _ Hy). eauto 6.
  - intros y v v' [Hin|E%list_elem_of_singleton]%elem_of_app
                  [Hin'|E'%list_elem_of_singleton]%elem_of_app.
    + eauto.
    + destruct (Hc_new _ _ (eq_sym E')) as [Ey _].
      specialize (Hnew _ _ Hin). lia.
    + destruct (Hc_new _ _ (eq_sym E)) as [Ey _].
      specialize (Hnew _ _ Hin'). lia.
    + congruence.
Qed.

Lemma voiceInv_same s s' :
  voiceInv s → sdkLog s' = sdkLog s → nextSynthesizer s' = nextSynthesizer s →
  (persistentSynthesizer s' = None
   ∨ persistentSynthesizer s' = persistentSynthesizer s
     ∧ currentVoiceGender s' = currentVoiceGender s) →
  voiceInv s'.
Proof.
  intros (Hnew & Hclose & Hps & Hsp & Huniq) Hl Hn Hp.
  unfold voiceInv. rewrite Hl, Hn.
  split; [done|]. split; [done|]. split; [|done].
  intros y Hy. destruct Hp as [Hp|[Hp Hg]]; [congruence|].
  rewrite Hg. apply Hps. congruence.
Qed.

Lemma voiceInv_step s s' : voiceInv s → sdkStep s s' → voiceInv s'.
Proof.
  intros Hinv Hstep.
  destruct Hstep as [Hl Hp Hg Hn|y Hl Hp Hg Hn|y m text k Hy Hl Hp Hg Hn
                    |m text k Hy Hl Hp Hg Hn|y Hy Hl Hp Hn|Hy Hl Hp Hn].
  - apply (voiceInv_same s); auto.
  - apply (voiceInv_snoc s (StopSpeakingAsync y) (nextSynthesizer s)
             (currentVoiceGender s) (persistentSynthesizer s) Hinv);
      try done.
    intros y' Hy'. by left.
  - apply (voiceInv_snoc s
             (SpeakSsmlAsync y (generateOptimizedSSML (currentVoiceGender s) m text) k)
             (nextSynthesizer s) (currentVoiceGender s) (Some y) Hinv);
      try done.
    + intros ? ? ? [= <- <- <-]. eauto.
    + intros y' [= <-]. by left.
  - (* a new synthesizer, then the speak operation on it *)
    set (s1 := setSynthesizer (Some (nextSynthesizer s))
                 (setNextSynthesizer (S (nextSynthesizer s))
                    (sdk (NewSynthesizer (nextSynthesizer s)
                            (voiceNameOf (currentVoiceGender s))) s))).
    assert (voiceInv s1) as Hinv1.
    { apply (voiceInv_snoc s
               (NewSynthesizer (nextSynthesizer s) (voiceNameOf (currentVoiceGender s)))
               (S (nextSynthesizer s)) (currentVoiceGender s)
               (Some (nextSynthesizer s)) Hinv); try done.
      - intros ? ? [= <- _]. done.
      - lia.
      - intros y' [= <-]. by right. }
    apply (voiceInv_snoc s1
             (SpeakSsmlAsync (nextSynthesizer s)
                (generateOptimizedSSML (currentVoiceGender s) m text) k)
             (S (nextSynthesizer s)) (currentVoiceGender s)
             (Some (nextSynthesizer s)) Hinv1); try done.
    + intros ? ? ? [= <- <- <-]. split; [done|]. exists m, text. done.
    + intros y' [= <-]. by left.
    + rewrite Hl. subst s1. simpl. by rewrite <- app_assoc.
  - apply (voiceInv_snoc s (Close y) (nextSynthesizer s)
             (currentVoiceGender s') None Hinv); try done.
    intros ? [= <-]. done.
  - apply (voiceInv_same s); auto.
Qed.

Lemma voiceInv_initial : voiceInv initialTts.
Proof.
  split; [|split; [|split; [|split]]]; simpl; try done.
  - intros y v Hin. by apply elem_of_nil in Hin.
  - intros y Hin. by apply elem_of_nil in Hin.
  - intros [|? before] y ssml k after E; discriminate.
  - intros y v v' Hin. by apply elem_of_nil in Hin.
Qed.

Lemma voiceInv_run creds es s : voiceInv s → voiceInv (ttsRun creds s es).
Proof.
  revert s. induction es as [|e es IH]; intros s Hs; [done|].
  apply IH. eapply voiceInv_step; [done|apply ttsStep_sdk].
Qed.

(** X9.  In every run of the module, whatever the order of submissions,
    stops, voice changes and forced cleanups: each speak operation was
    handed to a synthesizer that had been made with the very voice the
    markup names and that had not been closed; and each synthesizer object
    is made once. *)
Theorem speak_uses_matching_voice (creds : bool) (es : list ttsEvent) :
  let log := sdkLog (ttsRun creds initialTts es) in
  (∀ before y ssml k after,
     log = before ++ SpeakSsmlAsync y ssml k :: after →
     ∃ g m text,
       ssml = generateOptimizedSSML g m text
       ∧ NewSynthesizer y (voiceNameOf g) ∈ before
       ∧ Close y ∉ before)
  ∧ (∀ y v v', NewSynthesizer y v ∈ log → NewSynthesizer y v' ∈ log → v = v').
Proof.
  destruct (voiceInv_run creds es initialTts voiceInv_initial)
    as (_ & _ & _ & Hsp & Huniq).
  split; [exact Hsp|exact Huniq].
Qed.

(** X10.  The forced cleanup.  Doing it twice is doing it once.  It does
    not touch the request in progress: its closure, its pending SDK answer,
    the timers and the callbacks invoked so far are as before (the request
    is neither stopped nor notified).  And it leaves the module ready: the
    next valid submission is started at once, on a synthesizer made anew
    with the current voice. *)
Theorem cleanupSynthesizer_ready (s : ttsState) (ch : N) (t : jsstring)
    (c : callbacks) :
  let s1 := cleanupSynthesizer s in
  let r := textToSpeech true None (VString (ch :: t)) c s1 in
  cleanupSynthesizer s1 = s1
  ∧ closures s1 = closures s ∧ outstanding s1 = outstanding s
  ∧ timers s1 = timers s ∧ calls s1 = calls s
  ∧ r.1 = Some (StopHandle (nextClosure s))
  ∧ isSynthesizerBusy r.2 = true
  ∧ requestQueue r.2 = []
  ∧ sdkLog r.2
    = sdkLog s1
      ++ [NewSynthesizer (nextSynthesizer s) (voiceNameOf (currentVoiceGender s));
          SpeakSsmlAsync (nextSynthesizer s)
            (generateOptimizedSSML (currentVoiceGender s)
               (currentPerformanceMode s) (ch :: t))
            (nextClosure s)].
Proof.
  destruct s as [g [y|] b q p md cl nc ns tm o l cs]; simpl;
    rewrite <- ?app_assoc; repeat split.
Qed.

(** X11.  A change of voice takes effect with the next request that is
    started: after [setVoiceGender] with one of the two accepted names, the
    synthesizer in use (if any) is closed and discarded, and a valid
    submission made while the busy flag is clear is spoken on a synthesizer
    made anew with the new voice, with markup that names the new voice.  Any
    other argument leaves the module as it is.  In both cases the busy flag,
    the queue, the closures and the timers are not touched. *)
Theorem setVoiceGender_next_request (v : jsval) (s : ttsState) (ch : N)
    (t : jsstring) (c : callbacks) :
  let s1 := setVoiceGender v s in
  let chosen :=
    match v with
    | VString n =>
        if decide (n = lit "male") then Some male
        else if decide (n = lit "female") then Some female
        else None
    | _ => None
    end in
  isSynthesizerBusy s1 = isSynthesizerBusy s
  ∧ requestQueue s1 = requestQueue s ∧ closures s1 = closures s
  ∧ timers s1 = timers s ∧ calls s1 = calls s ∧ outstanding s1 = outstanding s
  ∧ match chosen with
    | None => s1 = s
    | Some g =>
        currentVoiceGender s1 = g
        ∧ persistentSynthesizer s1 = None
        ∧ sdkLog s1
          = sdkLog s ++ match persistentSynthesizer s with
                        | Some y => [Close y]
                        | None => []
                        end
        ∧ (isSynthesizerBusy s = false →
           sdkLog (textToSpeech true None (VString (ch :: t)) c s1).2
           = sdkLog s1
             ++ [NewSynthesizer (nextSynthesizer s) (voiceNameOf g);
                 SpeakSsmlAsync (nextSynthesizer s)
                   (generateOptimizedSSML g (currentPerformanceMode s) (ch :: t))
                   (nextClosure s)])
    end.
Proof.
  intros s1 chosen. subst s1 chosen. unfold setVoiceGender.
  destruct v as [| | | |n| |]; try done.
  destruct (decide (n = lit "male")) as [->|Hm];
    [|destruct (decide (n = lit "female")) as [->|Hf]; [|done]].
  all: destruct s as [g [y|] b q p md cl nc ns tm o l cs]; simpl;
      repeat split; rewrite ?app_nil_r; try done;
      intros ->; simpl; by rewrite <- ?app_assoc.
Qed.

(** ** Further properties of the socket handlers *)

Lemma deliver_registry st x :
  registry (deliver st x) = registry st
  ∧ ∃ more, emittedLog (deliver st x) = emittedLog st ++ more.
Proof.
  unfold deliver. repeat case_match; simpl;
    (split; [done|]); try (by exists []; rewrite app_nil_r); eauto.
Qed.

Lemma foldl_deliver_registry l st :
  registry (foldl deliver st l) = registry st
  ∧ ∃ more, emittedLog (foldl deliver st l) = emittedLog st ++ more.
Proof.
  revert st. induction l as [|x l IH]; intros st; simpl.
  - split; [done|]. exists []. by rewrite app_nil_r.
  - destruct (IH (deliver st x)) as [-> [m1 ->]].
    destruct (deliver_registry st x) as [-> [m2 ->]].
    split; [done|]. exists (m2 ++ m1). by rewrite app_assoc.
Qed.

Lemma withTts_registry {A} (op : ttsState → A * ttsState) st :
  registry (withTts op st).2 = registry st
  ∧ ∃ more, emittedLog (withTts op st).2 = emittedLog st ++ more.
Proof.
  unfold withTts. destruct (op (tts st)) as [a t]. simpl.
  apply (foldl_deliver_registry _ (setTts t st)).
Qed.

Lemma speak_registry creds id site throws text st :
  registry (speak creds id site throws text st) = registry st
  ∧ ∃ more, emittedLog (speak creds id site throws text st) = emittedLog st ++ more.
Proof.
  unfold speak.
  match goal with |- context [withTts ?op ?st0] =>
    destruct (withTts_registry op st0) as [Hr Hm];
    destruct (withTts op st0) as [h st1] end.
  simpl in *. done.
Qed.

Lemma stopCurrent_registry id st :
  registry (stopCurrent id st) = registry st
  ∧ ∃ more, emittedLog (stopCurrent id st) = emittedLog st ++ more.
Proof.
  unfold stopCurrent. repeat case_match;
    try (split; [done|]; exists []; by rewrite app_nil_r).
  apply withTts_registry.
Qed.

Lemma registry_fields st st' :
  registry st' = registry st →
  sessions st' = sessions st ∧ sessionObjs st' = sessionObjs st
  ∧ nextObj st' = nextObj st ∧ awaiting st' = awaiting st
  ∧ nextAwait st' = nextAwait st ∧ clientCalls st' = clientCalls st
  ∧ unhandledRejections st' = unhandledRejections st.
Proof. unfold registry. intros [= -> -> -> -> -> -> ->]. done. Qed.

(** X12.  Barge-in without a handle is a no-op, and barge-in is idempotent:
    a second [interruptAI] (or [speechDetected]) right after the first
    changes nothing, and after either the socket has no handle that could be
    stopped. *)
Theorem interruptAI_idempotent (id : string) (st : serverState) :
  let st' := interruptAI id st in
  interruptAI id st' = st'
  ∧ speechDetected id st = st'
  ∧ (activeSynthesizers st !! id = None → st' = st)
  ∧ (∀ h, activeSynthesizers st' !! id ≠ Some (Some h))
  ∧ registry st' = registry st.
Proof.
  intros st'. subst st'. unfold speechDetected, interruptAI.
  destruct (activeSynthesizers st !! id) as [[h|]|] eqn:Hh.
  - cbn [activeSynthesizers setActiveSynthesizers].
    rewrite lookup_delete_eq.
    destruct (withTts_registry (λ t, (tt, stop h t)) st) as [Hr _].
    repeat split; try done.
  - rewrite Hh. repeat split; try done.
  - rewrite Hh. repeat split; try done.
Qed.

Lemma sliceLast_suffix {A} n (l : list A) : suffix (sliceLast n l) l.
Proof. unfold sliceLast. apply suffix_drop. Qed.

Lemma length_sliceLast {A} n (l : list A) : length (sliceLast n l) = min n (length l).
Proof. unfold sliceLast. rewrite length_drop. lia. Qed.

Lemma sliceLast_snoc {A} n (l : list A) x :
  ∃ front, sliceLast (S n) (l ++ [x]) = front ++ [x] ∧ length front ≤ n.
Proof.
  unfold sliceLast. rewrite length_app. simpl.
  replace (length l + 1 - S n) with (length l - n) by lia.
  rewrite drop_app_le by lia. exists (drop (length l - n) l).
  split; [done|]. rewrite length_drop. lia.
Qed.

Lemma sliceLast_all {A} n (l : list A) : length l ≤ n → sliceLast n l = l.
Proof. intros H. unfold sliceLast. by replace (length l - n) with 0 by lia. Qed.

(** X13.  An accepted utterance (the socket has a session, the text is a
    string of at most 1000 code units whose trimmed form has at least 2).
    The user's message, its trimmed text cut to 500 code units, is put on
    the session's history, which is then cut to its last 12 entries, so the
    oldest entries go first.  The completion client is called once, with
    the cut text and that history; since the history already ends with the
    user's message and the client appends the input again, the request it
    builds ends with the same user message twice, after the system prompt
    and at most 9 earlier entries. *)
Theorem userSpeech_accepted (prompt : jsstring) (id : string) (t : jsstring)
    (st : serverState) (o : nat) (ses : session) :
  sessions st !! id = Some o →
  sessionObjs st !! o = Some ses →
  2 ≤ length (trim t) →
  length t ≤ 1000 →
  let st' := userSpeech id (VString t) st in
  let m := Message user (VString (substring0 500 (trim t))) in
  let history := sliceLast 12 (conversationHistory ses ++ [m]) in
  sessionObjs st' = <[o := Session history (isActive ses)]> (sessionObjs st)
  ∧ length history ≤ 12
  ∧ suffix history (conversationHistory ses ++ [m])
  ∧ clientCalls st' = clientCalls st ++ [(VString (substring0 500 (trim t)), history)]
  ∧ awaiting st'
    = <[nextAwait st :=
          AwaitingReply id o (VString (substring0 500 (trim t))) history]>
        (awaiting st)
  ∧ sessions st' = sessions st
  ∧ ∃ earlier,
      requestMessages prompt (VString (substring0 500 (trim t))) history
      = Return (Message system (VString prompt) :: earlier ++ [m; m])
      ∧ length earlier ≤ 9
      ∧ suffix (earlier ++ [m]) (conversationHistory ses ++ [m]).
Proof.
  intros Hs Ho Hmin Hmax st' m history.
  destruct (stopCurrent_registry id st) as [Hreg _].
  apply registry_fields in Hreg as (Hr1 & Hr2 & Hr3 & Hr4 & Hr5 & Hr6 & Hr7).
  assert (st' = setAwaiting
            (<[nextAwait st := AwaitingReply id o (VString (substring0 500 (trim t))) history]>
               (awaiting st))
            (S (nextAwait st))
            (logClientCall (VString (substring0 500 (trim t)), history)
               (setSessionObjs (<[o := Session history (isActive ses)]> (sessionObjs st))
                  (nextObj st) (stopCurrent id st)))) as ->.
  { subst st'. unfold userSpeech. cbn [userSpeechLogLine]. rewrite Hs.
    replace (length (trim t) =? 0) with false by (symmetry; apply Nat.eqb_neq; lia).
    replace (1000 <? length t) with false by (symmetry; apply Nat.ltb_ge; lia).
    cbn [orb].
    replace (length (trim t) <? 2) with false by (symmetry; apply Nat.ltb_ge; lia).
    rewrite Hr2, Ho. cbn [conversationHistory isActive].
    fold m.
    assert ((if 12 <? length (conversationHistory ses ++ [m])
             then sliceLast 12 (conversationHistory ses ++ [m])
             else conversationHistory ses ++ [m]) = history) as ->.
    { subst history. destruct (12 <? length _) eqn:E; [done|].
      apply Nat.ltb_ge in E. by rewrite sliceLast_all. }
    cbn [nextAwait awaiting logClientCall setSessionObjs nextObj].
    by rewrite Hr3, Hr4, Hr5. }
  cbn [sessionObjs clientCalls awaiting sessions setAwaiting logClientCall setSessionObjs].
  rewrite ?Hr2, ?Hr6, ?Hr1.
  split; [done|]. split; [subst history; rewrite length_sliceLast; lia|].
  split; [apply sliceLast_suffix|]. split; [done|]. split; [done|]. split; [done|].
  destruct (sliceLast_snoc 11 (conversationHistory ses) m) as (front & Hfront & Hlen).
  fold history in Hfront.
  destruct (sliceLast_snoc 9 front m) as (earlier & Hearlier & Hlen').
  exists earlier. split; [|split; [done|]].
  - unfold requestMessages. cbn [callSubstring0].
    change (VString (substring0 500 (substring0 500 (trim t)))) with
      (VString (take 500 (take 500 (trim t)))).
    rewrite take_take, Nat.min_id. fold (substring0 500 (trim t)). fold m.
    rewrite Hfront, Hearlier.
    change (earlier ++ [m; m]) with (earlier ++ [m] ++ [m]). rewrite app_assoc.
    reflexivity.
  - etrans; [|apply (sliceLast_suffix 12)]. fold history. rewrite Hfront.
    rewrite <- Hearlier. apply sliceLast_suffix.
Qed.

Lemma userSpeech_accepted_witness :
  let st := connection "a" initialServer in
  let m := Message user (VString (lit "I feel anxious today")) in
  clientCalls (userSpeech "a" (VString (lit " I feel anxious today ")) st)
  = [(VString (lit "I feel anxious today"), [m])]
  ∧ requestMessages (lit "prompt") (VString (lit "I feel anxious today")) [m]
    = Return [Message system (VString (lit "prompt")); m; m].
Proof.
  pose proof (userSpeech_accepted (lit "prompt") "a" (lit " I feel anxious today ")
                (connection "a" initialServer) 0 (Session [] false)
                eq_refl eq_refl) as H.
  assert (2 ≤ length (trim (lit " I feel anxious today "))) as H2 by (vm_compute; lia).
  assert (length (lit " I feel anxious today ") ≤ 1000) as H3 by (vm_compute; lia).
  destruct (H H2 H3) as (_ & _ & _ & Hc & _).
  split; [exact Hc|]. vm_compute. reflexivity.
Defined.

(** X14.  When the awaited completion call of an utterance settles, the
    client always gets an answer, whatever the network did and whether or not
    the session still exists: the pending entry is consumed; one [aiResponse]
    event with a non-empty text is emitted to the socket before anything
    else; and that same text is submitted to the speech module, with new
    callbacks.  The text is the reply of the completion client, which is then
    also put on the history held by the handler, without truncation; or, when
    that reply is the empty string, the local fallback, and no history
    changes. *)
Theorem userSpeechResume_answers (creds : bool) (key : option jsstring)
    (prompt : jsstring) (n : nat) (net : fetchOutcome) (random : N)
    (throws : option jsstring) (st : serverState) (a : awaitingReply) :
  awaiting st !! n = Some a →
  let st' := userSpeechResume creds key prompt n net random throws st in
  ∃ reply more,
    reply ≠ []
    ∧ awaiting st' = delete n (awaiting st)
    ∧ emittedLog st'
      = emittedLog st ++ (aw_socket a, AiResponse (VString reply)) :: more
    ∧ tts st'
      = ttsStep creds (tts st)
          (Submit throws (VString reply) (Callbacks (nextCb st) true true true))
    ∧ clientCalls st' = clientCalls st
    ∧ sessions st' = sessions st
    ∧ (getTherapistResponse key prompt (aw_input a) (aw_history a) net random
       = Return (VString reply)
       ∧ sessionObjs st'
         = match sessionObjs st !! aw_session a with
           | Some ses =>
               <[aw_session a :=
                   Session (conversationHistory ses ++ [Message assistant (VString reply)])
                     (isActive ses)]> (sessionObjs st)
           | None => sessionObjs st
           end
       ∨ getTherapistResponse key prompt (aw_input a) (aw_history a) net random
         = Return (VString [])
         ∧ reply = localFallback
         ∧ sessionObjs st' = sessionObjs st).
Proof.
  intros Ha st'. subst st'. unfold userSpeechResume. rewrite Ha.
  destruct (getTherapistResponse_string key prompt (aw_input a) (aw_history a)
              net random) as [s Hs].
  rewrite Hs. cbn [truthy].
  destruct s as [|ch s];
    [rewrite (bool_decide_eq_true_2 _ (eq_refl (@nil N)))
    |rewrite (bool_decide_eq_false_2 (ch :: s = [])) by done];
    cbn [negb]; cbv zeta.
  - (* the empty reply: the catch block *)
    unfold userSpeechCatch; cbv zeta.
    match goal with |- context [speak creds ?id ?site ?th ?tx ?st0] =>
      destruct (speak_registry creds id site th tx st0) as [Hreg [more Hmore]];
      destruct (speak_module creds id site th tx st0) as [Htts _];
      apply registry_fields in Hreg as (Hr1 & Hr2 & _ & Hr4 & _ & Hr6 & _) end.
    exists localFallback, more. rewrite Hr1, Hr2, Hr4, Hr6, Hmore, Htts.
    split; [done|]. repeat split; try done.
    + simpl. by rewrite <- app_assoc.
    + right. done.
  - match goal with |- context [speak creds ?id ?site ?th ?tx ?st0] =>
      destruct (speak_registry creds id site th tx st0) as [Hreg [more Hmore]];
      destruct (speak_module creds id site th tx st0) as [Htts _];
      apply registry_fields in Hreg as (Hr1 & Hr2 & _ & Hr4 & _ & Hr6 & _) end.
    exists (ch :: s), more. rewrite Hr1, Hr2, Hr4, Hr6, Hmore, Htts.
    split; [done|].
    destruct (sessionObjs st !! aw_session a) as [ses|] eqn:Hses;
      cbn [sessionObjs setAwaiting emit setSessionObjs]; rewrite Hses;
      repeat split; try done; try (simpl; by rewrite <- app_assoc);
      left; done.
Qed.

Lemma userSpeechResume_answers_witness :
  let st := userSpeech "a" (VString (lit "I feel anxious today"))
              (connection "a" initialServer) in
  let st' := userSpeechResume true (Some (lit "key")) [] 0 FetchRejects 0%N None
               (endSession "a" st) in
  ∃ reply more,
    reply ≠ []
    ∧ emittedLog st' = ("a", AiResponse (VString reply)) :: more
    ∧ sessions st' = ∅.
Proof.
  destruct (userSpeechResume_answers true (Some (lit "key")) [] 0 FetchRejects 0%N None
              (endSession "a"
                 (userSpeech "a" (VString (lit "I feel anxious today"))
                    (connection "a" initialServer)))
              (AwaitingReply "a" 0 (VString (lit "I feel anxious today"))
                 [Message user (VString (lit "I feel anxious today"))]))
    as (reply & more & Hne & _ & Hlog & _ & _ & Hs & _).
  { vm_compute. reflexivity. }
  exists reply, more. split; [exact Hne|]. split; [exact Hlog|].
  rewrite Hs. vm_compute. reflexivity.
Defined.

Lemma interruptAI_registry id st : registry (interruptAI id st) = registry st.
Proof.
  unfold interruptAI. repeat case_match; try done.
  match goal with |- context [withTts ?op ?st0] =>
    destruct (withTts_registry op st0) as [Hr _] end.
  done.
Qed.

Lemma registry_frame st st' w : registry st' = registry st → regStep st st' w.
Proof.
  intros (H1 & H2 & H3 & H4 & _)%registry_fields. by apply reg_frame.
Qed.

Lemma connection_reg id st : regStep st (connection id st) (Some id).
Proof.
  apply reg_create; try done. intros o Ho. simpl. by rewrite lookup_insert_ne.
Qed.

Lemma startSession_reg creds id random throws st :
  regStep st (startSession creds id random throws st) (Some id).
Proof.
  unfold startSession.
  destruct (sessions st !! id) as [o|] eqn:Ho; cbv zeta.
  - match goal with |- context [speak creds id ?site ?th ?tx ?st0] =>
      destruct (registry_fields _ _ (proj1 (speak_registry creds id site th tx st0)))
        as (H1 & H2 & H3 & H4 & _) end.
    destruct (sessionObjs st !! o) as [ses|] eqn:Hses.
    + apply (reg_update _ _ id o); rewrite ?H1, ?H2, ?H3, ?H4; try done.
      * intros o' Hne. simpl. by rewrite lookup_insert_ne.
      * by left.
    + by apply reg_frame.
  - match goal with |- context [speak creds id ?site ?th ?tx ?st0] =>
      destruct (registry_fields _ _ (proj1 (speak_registry creds id site th tx st0)))
        as (H1 & H2 & H3 & H4 & _) end.
    apply reg_create; rewrite ?H1, ?H2, ?H3, ?H4; try done.
    + simpl. rewrite lookup_insert_eq. done.
    + intros o Hne. simpl. rewrite lookup_insert_eq. simpl.
      by rewrite !lookup_insert_ne.
    + simpl. by rewrite lookup_insert_eq.
    + simpl. by rewrite lookup_insert_eq.
Qed.

Lemma userSpeech_reg id payload st : regStep st (userSpeech id payload st) (Some id).
Proof.
  unfold userSpeech.
  destruct (userSpeechLogLine payload); [|by apply reg_frame].
  destruct (sessions st !! id) as [o|] eqn:Ho; [|by apply reg_frame].
  destruct payload as [| | | |t| |]; try by apply reg_frame.
  destruct (_ || _); [by apply reg_frame|].
  destruct (_ <? 2); [by apply reg_frame|]. cbv zeta.
  destruct (registry_fields _ _ (proj1 (stopCurrent_registry id st)))
    as (H1 & H2 & H3 & H4 & _).
  destruct (sessionObjs (stopCurrent id st) !! o) as [ses|] eqn:Hses.
  - apply (reg_update _ _ id o); simpl; rewrite ?H1, ?H2, ?H3, ?H4; try done.
    + intros o' Hne. by rewrite lookup_insert_ne.
    + right. eauto.
  - by apply reg_frame.
Qed.

Lemma userSpeechResume_reg creds key prompt n net random throws st :
  regStep st (userSpeechResume creds key prompt n net random throws st)
    (eventSocket st (ReplySettles n net random throws)).
Proof.
  unfold userSpeechResume, eventSocket.
  destruct (awaiting st !! n) as [a|] eqn:Ha; [|by apply reg_frame].
  cbv zeta. simpl.
  assert (∀ site tx st0,
    sessions st0 = sessions st →
    (∀ o', o' ≠ aw_session a → sessionObjs st0 !! o' = sessionObjs st !! o') →
    nextObj st0 = nextObj st → awaiting st0 = delete n (awaiting st) →
    regStep st (speak creds (aw_socket a) site throws tx st0) (Some (aw_socket a)))
    as Hspeak.
  { intros site tx st0 E1 E2 E3 E4.
    destruct (registry_fields _ _ (proj1 (speak_registry creds (aw_socket a) site throws tx st0)))
      as (H1 & H2 & H3 & H4 & _).
    apply (reg_settle _ _ n a); rewrite ?H1, ?H3, ?H4; try done.
    intros o' Hne. rewrite H2. auto. }
  destruct (getTherapistResponse _ _ _ _ _ _) as [v|];
    [destruct (negb (truthy v))|]; try (by apply Hspeak).
  apply Hspeak; simpl.
  - by destruct (sessionObjs st !! aw_session a).
  - intros o' Hne. destruct (sessionObjs st !! aw_session a); simpl; [|done].
    by rewrite lookup_insert_ne.
  - by destruct (sessionObjs st !! aw_session a).
  - by destruct (sessionObjs st !! aw_session a).
Qed.

Lemma endSession_reg id st : regStep st (endSession id st) (Some id).
Proof.
  unfold endSession. cbv zeta.
  match goal with |- context [withTts ?op ?st0] =>
    destruct (registry_fields _ _ (proj1 (withTts_registry op st0)))
      as (H1 & H2 & H3 & H4 & _) end.
  destruct (registry_fields _ _ (interruptAI_registry id st))
    as (G1 & G2 & G3 & G4 & _).
  apply reg_remove; cbn [sessions sessionObjs nextObj awaiting setSessions];
    rewrite ?H1, ?H2, ?H3, ?H4; congruence.
Qed.

Lemma serverStep_reg creds key prompt st e :
  regStep st (serverStep creds key prompt st e) (eventSocket st e).
Proof.
  destruct e; cbn [serverStep].
  - apply connection_reg.
  - apply startSession_reg.
  - apply userSpeech_reg.
  - apply userSpeechResume_reg.
  - apply registry_frame, interruptAI_registry.
  - apply registry_frame, interruptAI_registry.
  - apply endSession_reg.
  - apply endSession_reg.
  - apply registry_frame, withTts_registry.
  - apply registry_frame, withTts_registry.
  - apply registry_frame, withTts_registry.
Qed.

Lemma regStep_inv st st' w : sessionsInv st → regStep st st' w → sessionsInv st'.
Proof.
  intros (I1 & I2 & I3 & I4) Hstep. unfold sessionsInv.
  destruct Hstep as [w E1 E2 E3 E4|id E1 E2 E3 E4|id o Ho E1 E2 E3 E4
                    |n a Ha E1 E2 E3 E4|id E1 E2 E3 E4];
    rewrite ?E1, ?E3.
  - rewrite E4. done.
  - rewrite E4. repeat split.
    + intros i o [[_ <-]|[_ Hi]]%lookup_insert_Some; [lia|].
      apply I1 in Hi. lia.
    + intros i i' o [[<- <-]|[Hne Hi]]%lookup_insert_Some
        [[<- Ho]|[Hne' Hi']]%lookup_insert_Some; try done.
      * apply I1 in Hi'. lia.
      * apply I1 in Hi. lia.
      * eauto.
    + intros n a Ha. apply I3 in Ha. lia.
    + intros n a i Ha [[<- Ho]|[Hne Hi]]%lookup_insert_Some.
      * apply I3 in Ha. lia.
      * eauto.
  - destruct E4 as [->|(k & input & hist & ->)]; [done|].
    repeat split; try done.
    + intros n a [[_ <-]|[_ Ha]]%lookup_insert_Some; simpl; eauto.
    + intros n a i [[_ <-]|[_ Ha]]%lookup_insert_Some Hi; simpl in *; eauto.
  - rewrite E4. repeat split; try done.
    + intros k b [_ Hb]%lookup_delete_Some. eauto.
    + intros k b i [_ Hb]%lookup_delete_Some. eauto.
  - rewrite E4. repeat split.
    + intros i o [_ Hi]%lookup_delete_Some. eauto.
    + intros i i' o [_ Hi]%lookup_delete_Some [_ Hi']%lookup_delete_Some. eauto.
    + done.
    + intros n a i Ha [_ Hi]%lookup_delete_Some. eauto.
Qed.

Lemma sessionsInv_initial : sessionsInv initialServer.
Proof. repeat split; intros *; simpl; by rewrite ?lookup_empty. Qed.

Lemma sessionsInv_run creds key prompt es st :
  sessionsInv st → sessionsInv (serverRun creds key prompt st es).
Proof.
  revert st. induction es as [|e es IH]; intros st Hinv; [done|].
  simpl. apply IH. eapply regStep_inv; [done|]. apply serverStep_reg.
Qed.

Lemma regStep_history st st' w b :
  sessionsInv st → regStep st st' w → w ≠ Some b →
  historyOf b st' = historyOf b st.
Proof.
  intros (I1 & I2 & I3 & I4) Hstep Hw. unfold historyOf.
  destruct Hstep as [w E1 E2 E3 E4|id E1 E2 E3 E4|id o Ho E1 E2 E3 E4
                    |n a Ha E1 E2 E3 E4|id E1 E2 E3 E4];
    rewrite ?E1.
  - by rewrite E2.
  - rewrite lookup_insert_ne by congruence.
    destruct (sessions st !! b) as [o|] eqn:Hb; [|done]. simpl.
    rewrite E2; [done|]. apply I1 in Hb. lia.
  - destruct (sessions st !! b) as [o'|] eqn:Hb; [|done]. simpl.
    rewrite E2; [done|]. intros ->. apply Hw. f_equal. eauto.
  - destruct (sessions st !! b) as [o'|] eqn:Hb; [|done]. simpl.
    rewrite E2; [done|]. intros ->. apply Hw. f_equal. symmetry. eauto.
  - rewrite lookup_delete_ne by congruence. by rewrite E2.
Qed.

(** X15.  Sessions are isolated.  In every state the server can reach, an
    event that does not belong to socket [b] (a handler of another socket,
    the settling of a completion call awaited by another socket's handler,
    an answer of the SDK, a timer) leaves the conversation history of [b]
    as it was; and no two sockets are registered with the same session
    object. *)
Theorem session_isolation (creds : bool) (key : option jsstring)
    (prompt : jsstring) (es : list serverEvent) (e : serverEvent) (b : string) :
  let st := serverRun creds key prompt initialServer es in
  (eventSocket st e ≠ Some b →
   historyOf b (serverStep creds key prompt st e) = historyOf b st)
  ∧ (∀ id id' o,
       sessions st !! id = Some o → sessions st !! id' = Some o → id = id').
Proof.
  intros st.
  assert (sessionsInv st) as Hinv
    by apply sessionsInv_run, sessionsInv_initial.
  split.
  - intros Hw. eapply regStep_history; [done| |done]. apply serverStep_reg.
  - apply Hinv.
Qed.


(** ** The rate limiter *)

Lemma filter_filter_impl {A} (P Q : A → Prop) `{∀ x, Decision (P x)}
    `{∀ x, Decision (Q x)} (l : list A) :
  (∀ x, P x → Q x) → filter P (filter Q l) = filter P l.
Proof.
  intros HPQ. induction l as [|x l IH]; [done|].
  rewrite !filter_cons. destruct (decide (Q x)) as [HQ|HQ].
  - rewrite filter_cons. destruct (decide (P x)); by rewrite IH.
  - rewrite IH. destruct (decide (P x)) as [HP|]; [|done].
    by apply HPQ in HP.
Qed.

Lemma length_filter_impl {A} (P Q : A → Prop) `{∀ x, Decision (P x)}
    `{∀ x, Decision (Q x)} (l : list A) :
  (∀ x, P x → Q x) → length (filter P l) ≤ length (filter Q l).
Proof.
  intros HPQ. induction l as [|x l IH]; [done|].
  rewrite !filter_cons. destruct (decide (P x)) as [HP|HP].
  - rewrite decide_True by auto. simpl. lia.
  - destruct (decide (Q x)); simpl; lia.
Qed.

Lemma acceptedTimes_snoc ip log ip' now :
  acceptedTimes ip (log ++ [(ip', now)])
  = acceptedTimes ip log ++ (if decide (ip' = ip) then [now] else []).
Proof.
  unfold acceptedTimes. rewrite filter_app, fmap_app. f_equal.
  rewrite filter_cons. simpl. by destruct (decide (ip' = ip)).
Qed.

Lemma checkRateLimit_verdict ip c now st :
  rateInv ip c st → (c ≤ now)%Z →
  (checkRateLimit ip now st.1).1
  = bool_decide
      (length (filter (λ t, (now - t < RATE_LIMIT_WINDOW)%Z) (acceptedTimes ip st.2))
       < RATE_LIMIT_MAX).
Proof.
  intros [Hi _] Hc. unfold checkRateLimit. cbv zeta. rewrite (Hi now Hc).
  destruct (RATE_LIMIT_MAX <=? _) eqn:E; cbn [fst snd].
  - apply Nat.leb_le in E. rewrite bool_decide_eq_false_2; [done|lia].
  - apply Nat.leb_gt in E. by rewrite bool_decide_eq_true_2.
Qed.

Lemma rateStep_inv ip c st ip' now :
  rateInv ip c st → (c ≤ now)%Z → rateInv ip now (rateStep st (ip', now)).
Proof.
  intros [Hi Hw] Hc. unfold rateStep, checkRateLimit. cbv zeta. cbn [fst snd].
  destruct (RATE_LIMIT_MAX <=? _) eqn:E; unfold rateInv; cbn [fst snd].
  - split; [|done]. intros now' Hn. apply Hi. lia.
  - apply Nat.leb_gt in E.
    destruct (decide (ip' = ip)) as [->|Hne].
    + rewrite (Hi now Hc) in E. split.
      * intros now' Hn. rewrite lookup_insert_eq. simpl.
        rewrite acceptedTimes_snoc, decide_True by done.
        rewrite !filter_app. f_equal.
        rewrite filter_filter_impl by (intros; lia). apply Hi. lia.
      * intros lo. rewrite acceptedTimes_snoc, decide_True by done.
        rewrite filter_app, length_app, filter_cons, filter_nil.
        destruct (decide (lo ≤ now < lo + RATE_LIMIT_WINDOW)%Z) as [Hin|Hout].
        -- simpl.
           pose proof (length_filter_impl
                         (λ t, (lo ≤ t < lo + RATE_LIMIT_WINDOW)%Z)
                         (λ t, (now - t < RATE_LIMIT_WINDOW)%Z)
                         (acceptedTimes ip st.2)) as Hle.
           unfold RATE_LIMIT_MAX in *. 
           assert (∀ x : Z, (lo ≤ x < lo + RATE_LIMIT_WINDOW)%Z
                            → (now - x < RATE_LIMIT_WINDOW)%Z) as Himp
             by (intros; lia).
           specialize (Hle Himp). lia.
        -- simpl. rewrite Nat.add_0_r. apply Hw.
    + split.
      * intros now' Hn. rewrite lookup_insert_ne by done.
        rewrite acceptedTimes_snoc, decide_False, app_nil_r by done.
        apply Hi. lia.
      * intros lo.
        rewrite acceptedTimes_snoc, decide_False, app_nil_r by done.
        apply Hw.
Qed.

Lemma Sorted_snoc_inv (l : list Z) (x : Z) :
  Sorted Z.le (l ++ [x]) → Sorted Z.le l.
Proof.
  induction l as [|y l IH]; simpl; intros Hs; [constructor|].
  apply Sorted_inv in Hs as [Hs Hhd]. constructor; [by apply IH|].
  destruct l; simpl in *; [constructor|]. inversion Hhd. by constructor.
Qed.

Lemma rateInv_run ip reqs c st :
  rateInv ip c st → Sorted Z.le (c :: reqs.*2) →
  ∃ c', rateInv ip c' (foldl rateStep st reqs)
        ∧ (∀ now, Sorted Z.le (c :: reqs.*2 ++ [now]) → (c' ≤ now)%Z).
Proof.
  revert c st. induction reqs as [|[ip' t] reqs IH]; intros c st Hinv Hs.
  - exists c. split; [done|]. simpl. intros now Hn.
    apply Sorted_inv in Hn as [_ Hhd]. by inversion Hhd.
  - simpl in *. apply Sorted_inv in Hs as [Hs Hhd].
    assert (c ≤ t)%Z as Hct by (by inversion Hhd).
    destruct (IH t (rateStep st (ip', t))) as (c' & Hinv' & Hnext).
    + by apply rateStep_inv with c.
    + done.
    + exists c'. split; [done|]. intros now Hn. apply Hnext.
      by apply Sorted_inv in Hn as [Hn _].
Qed.

(** X17.  The rate limiter, when the clock never goes backwards.  After any
    run of requests, a request of address [ip] at time [now] is accepted
    exactly when fewer than [RATE_LIMIT_MAX] requests of that address were
    accepted during the [RATE_LIMIT_WINDOW] milliseconds that end at [now];
    no interval of that length holds more than [RATE_LIMIT_MAX] accepted
    requests of one address; and a request that is turned down leaves the
    limiter as it was, so it does not prolong the wait. *)
Theorem checkRateLimit_window (reqs : list (string * Z)) (ip : string)
    (now lo : Z) :
  Sorted Z.le (reqs.*2 ++ [now]) →
  let st := rateRun reqs in
  let verdict := checkRateLimit ip now st.1 in
  verdict.1
  = bool_decide
      (length (filter (λ t, (now - t < RATE_LIMIT_WINDOW)%Z)
                 (acceptedTimes ip st.2))
       < RATE_LIMIT_MAX)
  ∧ length (filter (λ t, (lo ≤ t < lo + RATE_LIMIT_WINDOW)%Z)
              (acceptedTimes ip st.2))
    ≤ RATE_LIMIT_MAX
  ∧ (verdict.1 = false → verdict.2 = st.1).
Proof.
  intros Hs st verdict.
  set (c := default now (head (reqs.*2))).
  assert (Sorted Z.le (c :: reqs.*2 ++ [now])) as Hs'.
  { subst c. destruct reqs as [|[ip' t] reqs]; simpl in *.
    - repeat constructor. lia.
    - constructor; [done|]. constructor. lia. }
  assert (Sorted Z.le (c :: reqs.*2)) as Hs''
    by apply (Sorted_snoc_inv (c :: reqs.*2) now Hs').
  destruct (rateInv_run ip reqs c (∅, [])) as (c' & Hinv & Hnext); [|done|].
  { split; [done|]. intros. simpl. unfold RATE_LIMIT_MAX. lia. }
  fold (rateRun reqs) in Hinv. fold st in Hinv.
  split; [|split].
  - apply (checkRateLimit_verdict ip c'); auto.
  - apply Hinv.
  - subst verdict. unfold checkRateLimit. cbv zeta.
    by destruct (RATE_LIMIT_MAX <=? _).
Qed.

Lemma checkRateLimit_window_witness :
  let reqs := (λ i, ("10.0.0.1", 1000 * i)%Z) <$> [0; 1; 2; 3; 4; 5; 6; 7; 8; 9]%Z in
  (checkRateLimit "10.0.0.1" 59999 (rateRun reqs).1).1 = false
  ∧ (checkRateLimit "10.0.0.1" 60000 (rateRun reqs).1).1 = true.
Proof.
  intros reqs. split.
  - destruct (checkRateLimit_window reqs "10.0.0.1" 59999 0) as (Hv & _).
    + subst reqs. simpl. repeat constructor; lia.
    + rewrite Hv. vm_compute. reflexivity.
  - destruct (checkRateLimit_window reqs "10.0.0.1" 60000 0) as (Hv & _).
    + subst reqs. simpl. repeat constructor; lia.
    + rewrite Hv. vm_compute. reflexivity.
Defined.


(** ** The voice endpoints *)

Lemma getCurrentVoiceConfig_name s :
  vc_name (getCurrentVoiceConfig s) = voiceNameOf (currentVoiceGender s).
Proof. unfold getCurrentVoiceConfig. cbn [vc_name]. by destruct (currentVoiceGender s). Qed.

Lemma strictEqString_true v s : strictEqString v s = true → v = VString s.
Proof.
  destruct v; simpl; try done. by intros ->%bool_decide_eq_true.
Qed.

Lemma includes_modes v :
  includes performanceModes v = true → ∃ m, v = VString (modeName m).
Proof.
  unfold includes, performanceModes. cbn [existsb].
  rewrite !orb_true_iff.
  intros [E|[E|[E|E]]]; try done; apply strictEqString_true in E.
  - by exists FAST.
  - by exists BALANCED.
  - by exists QUALITY.
Qed.

Lemma setPerformanceMode_modeName m s :
  setPerformanceMode (VString (modeName m)) s = setMode m s.
Proof. destruct m; unfold setPerformanceMode; by repeat case_decide. Qed.

Lemma setVoiceGender_genderName g s :
  currentVoiceGender (setVoiceGender (VString (genderName g)) s) = g
  ∧ currentPerformanceMode (setVoiceGender (VString (genderName g)) s)
    = currentPerformanceMode s.
Proof.
  destruct g; unfold setVoiceGender; repeat case_decide; try done;
    cbn [persistentSynthesizer setGender]; by destruct (persistentSynthesizer s).
Qed.

(** X18.  [POST /api/voice/switch].  Every request that reaches the endpoint
    is put through the limiter, and is counted when the limiter lets it
    pass, whatever the answer then is.  The answer is 429 exactly when the
    limiter turns the request down, and 500 exactly when it passes and the
    body is [undefined] or [null].  A request that is not answered 200
    leaves the speech module as it was: a valid gender sent together with
    an invalid performance mode is not applied.  A request answered 200
    carries the module's configuration after the change; that
    configuration has the gender and the performance mode the request
    named, each left as it was (for the gender, with the synthesizer) when
    the request gave none, and the voice name it reports is the one the
    module synthesizes with. *)
Theorem voiceSwitch_response (ip : string) (now : Z) (reqBody : jsval)
    (h : httpState) :
  let verdict := checkRateLimit ip now (requestCounts h) in
  let r := (voiceSwitch ip now reqBody h).1 in
  let h' := (voiceSwitch ip now reqBody h).2 in
  requestCounts h' = verdict.2
  ∧ (status r = 429 ↔ verdict.1 = false)
  ∧ (verdict.1 = true →
       (status r = 500 ↔ getProp reqBody (lit "gender") = Throw))
  ∧ status r ∈ [200; 400; 429; 500]
  ∧ (status r ≠ 200 → voice h' = voice h)
  ∧ (status r = 200 →
       ∃ g m,
         getProp reqBody (lit "gender") = Return g
         ∧ getProp reqBody (lit "performanceMode") = Return m
         ∧ body r
           = Success
               (VoiceSwitched (jsOr g (VString (lit "current")))
                  (jsOr m (VString (lit "current"))))
               (getCurrentVoiceConfig (voice h'))
         ∧ (if truthy g
            then g = VString (genderName (currentVoiceGender (voice h')))
            else currentVoiceGender (voice h') = currentVoiceGender (voice h)
                 ∧ persistentSynthesizer (voice h')
                   = persistentSynthesizer (voice h))
         ∧ (if truthy m
            then m = VString (modeName (currentPerformanceMode (voice h')))
            else currentPerformanceMode (voice h')
                 = currentPerformanceMode (voice h))
         ∧ vc_name (getCurrentVoiceConfig (voice h'))
           = voiceNameOf (currentVoiceGender (voice h'))).
Proof.
  intros verdict r h'. subst verdict r h'. unfold voiceSwitch.
  destruct (checkRateLimit ip now (requestCounts h)) as [[|] counts];
    cbn [negb fst snd].
  2:{ unfold tooManyRequests; cbn [status requestCounts voice].
      repeat split; try done. repeat constructor. }
  assert (∀ g, getProp reqBody (lit "gender") = Return g
          → ∃ m, getProp reqBody (lit "performanceMode") = Return m) as Hret.
  { unfold getProp. destruct reqBody; try done; eauto. }
  destruct (getProp reqBody (lit "gender")) as [g|] eqn:Hg; unfold mbind, completion_bind; cbn [andThen].
  2:{ cbn [status requestCounts voice fst snd]. repeat split; try done.
      repeat constructor. }
  destruct (Hret g eq_refl) as [m Hm]. rewrite Hm. unfold mbind, completion_bind; cbn [andThen].
  (* the gender, when one is given and valid *)
  assert (truthy g && (negb (strictEqString g (lit "male"))
                       && negb (strictEqString g (lit "female"))) = false
          → if truthy g
            then ∃ gd, g = VString (genderName gd)
            else True) as Hgender.
  { destruct (truthy g); [|done]. cbn [andb].
    destruct (strictEqString g (lit "male")) eqn:E1;
      [apply strictEqString_true in E1 as ->; by exists male|].
    destruct (strictEqString g (lit "female")) eqn:E2;
      [apply strictEqString_true in E2 as ->; by exists female|].
    done. }
  destruct (truthy g && _) eqn:Cg.
  { cbn [status requestCounts voice fst snd]. repeat split; try done.
    repeat constructor. }
  specialize (Hgender eq_refl).
  destruct (truthy m) eqn:Tm; cbn [andb].
  - destruct (includes performanceModes m) eqn:Im; cbn [negb].
    2:{ unfold invalidMode. cbn [status requestCounts voice fst snd].
        repeat split; try done. repeat constructor. }
    apply includes_modes in Im as [md ->].
    cbn [status requestCounts voice fst snd body].
    rewrite setPerformanceMode_modeName.
    repeat split; try done; [repeat constructor|].
    intros _. exists g, (VString (modeName md)). rewrite Tm.
    destruct (truthy g) eqn:Tg.
    + destruct Hgender as [gd ->].
      destruct (setVoiceGender_genderName gd (voice h)) as [Eg Ep].
      rewrite getCurrentVoiceConfig_name.
      cbn [currentVoiceGender currentPerformanceMode setMode]. rewrite Eg.
      repeat split; done.
    + rewrite getCurrentVoiceConfig_name. repeat split; done.
  - cbn [status requestCounts voice fst snd body].
    repeat split; try done; [repeat constructor|].
    intros _. exists g, m. rewrite Tm.
    destruct (truthy g) eqn:Tg.
    + destruct Hgender as [gd ->].
      destruct (setVoiceGender_genderName gd (voice h)) as [Eg Ep].
      rewrite getCurrentVoiceConfig_name, Eg, Ep. repeat split; done.
    + rewrite getCurrentVoiceConfig_name. repeat split; done.
Qed.

(** X19.  [POST /api/voice/performance].  The request is put through the
    limiter first and counted when it passes.  The answer is 429 exactly
    when the limiter turns it down; otherwise 500 when the body is
    [undefined] or [null], 200 when the body's [mode] is one of the three
    mode names, and 400 in every other case (no mode, or anything else).
    Only a request answered 200 changes the speech module, and it changes
    the performance mode alone: voice, synthesizer, queue and requests in
    progress stay as they are, and the configuration sent back is the
    module's with the mode asked for. *)
Theorem voicePerformance_response (ip : string) (now : Z) (reqBody : jsval)
    (h : httpState) :
  let verdict := checkRateLimit ip now (requestCounts h) in
  let r := (voicePerformance ip now reqBody h).1 in
  let h' := (voicePerformance ip now reqBody h).2 in
  requestCounts h' = verdict.2
  ∧ (status r = 429 ↔ verdict.1 = false)
  ∧ (verdict.1 = true →
       (status r = 500 ↔ getProp reqBody (lit "mode") = Throw)
       ∧ (status r = 200 ↔
          ∃ md, getProp reqBody (lit "mode") = Return (VString (modeName md))))
  ∧ status r ∈ [200; 400; 429; 500]
  ∧ (status r ≠ 200 → voice h' = voice h)
  ∧ (∀ md, getProp reqBody (lit "mode") = Return (VString (modeName md)) →
       status r = 200 →
       voice h' = setMode md (voice h)
       ∧ body r
         = Success (ModeSwitched (VString (modeName md)))
             (VoiceConfig (currentVoiceGender (voice h))
                (voiceNameOf (currentVoiceGender (voice h)))
                (vc_style (getCurrentVoiceConfig (voice h)))
                md
                (vc_description (getCurrentVoiceConfig (voice h))))).
Proof.
  intros verdict r h'. subst verdict r h'. unfold voicePerformance.
  destruct (checkRateLimit ip now (requestCounts h)) as [[|] counts];
    cbn [negb fst snd].
  2:{ unfold tooManyRequests; cbn [status requestCounts voice].
      repeat split; try done. repeat constructor. }
  destruct (getProp reqBody (lit "mode")) as [m|] eqn:Hm;
    unfold mbind, completion_bind; cbn [andThen].
  2:{ cbn [status requestCounts voice fst snd]. repeat split; try done.
      - by intros [md Hmd].
      - repeat constructor. }
  assert (truthy m = true ∧ includes performanceModes m = true
          ↔ ∃ md, m = VString (modeName md)) as Hvalid.
  { split.
    - intros [_ Hi]. by apply includes_modes.
    - intros [md ->]. by destruct md. }
  destruct (negb (truthy m) || negb (includes performanceModes m)) eqn:C.
  - unfold invalidMode. cbn [status requestCounts voice fst snd].
    repeat split; try done.
    + intros [md [= Hmd]].
      assert (truthy m = true ∧ includes performanceModes m = true) as [T I]
        by (apply Hvalid; eauto).
      by rewrite T, I in C.
    + repeat constructor.
  - apply orb_false_iff in C as [T I].
    apply negb_false_iff in T, I.
    destruct (proj1 Hvalid (conj T I)) as [md ->].
    cbn [status requestCounts voice fst snd body].
    rewrite setPerformanceMode_modeName.
    repeat split; try done.
    + intros _. eauto.
    + repeat constructor.
    + match goal with
      | H : Return (VString (modeName _)) = Return (VString (modeName ?x)) |- _ =>
          assert (md = x) as -> by (injection H; by destruct md, x)
      end.
      done.
    + match goal with
      | H : Return (VString (modeName _)) = Return (VString (modeName ?x)) |- _ =>
          assert (md = x) as -> by (injection H; by destruct md, x)
      end.
      unfold getCurrentVoiceConfig.
      cbn [currentVoiceGender currentPerformanceMode setMode vc_style vc_description].
      by destruct (currentVoiceGender (voice h)).
Qed.

(** ** The queue never stalls *)

Lemma cleanup_live k c s :
  (∀ j, j ∈ outstanding s → is_Some (closures s !! j)) →
  liveInv (cleanup k c s)
  ∧ isSynthesizerBusy (cleanup k c s) = false
  ∧ timers (cleanup k c s) = S (timers s)
  ∧ outstanding (cleanup k c s) = outstanding s
  ∧ requestQueue (cleanup k c s) = requestQueue s.
Proof.
  intros H3. destruct s as [g ps b q p md cl nc ns tm o l cs].
  destruct c as [id a e []]; unfold liveInv, cleanup, invoke; simpl in *;
    repeat split; try done; auto; intros _; right; lia.
Qed.

Lemma invoke_fields by_ p c s :
  isSynthesizerBusy (invoke by_ p c s) = isSynthesizerBusy s
  ∧ timers (invoke by_ p c s) = timers s
  ∧ outstanding (invoke by_ p c s) = outstanding s
  ∧ requestQueue (invoke by_ p c s) = requestQueue s
  ∧ closures (invoke by_ p c s) = closures s.
Proof. by destruct p. Qed.

Lemma textToSpeechInternal_live throws t c s :
  (∀ j, j ∈ outstanding s → is_Some (closures s !! j)) →
  liveInv (textToSpeechInternal throws t c s).2.
Proof.
  intros H3. destruct s as [g ps b q p md cl nc ns tm o l cs].
  destruct ps as [y|], throws as [m|], c as [id a [] []];
    unfold liveInv, textToSpeechInternal, cleanup, invoke;
    simpl in *; repeat split; try done;
    try (intros _; right; lia); try (intros _; by left);
    try (intros _ E; by apply app_nil in E as [_ ?]);
    intros j Hj.
  all: try (apply elem_of_app in Hj as [Hj| ->%list_elem_of_singleton];
            [|rewrite lookup_insert_eq; eauto]).
  all: destruct (decide (j = nc)) as [->|Hne];
       [rewrite lookup_insert_eq; eauto|rewrite lookup_insert_ne by done; auto].
Qed.

Lemma processQueue_live throws s :
  (isSynthesizerBusy s = true → outstanding s ≠ []) →
  (∀ j, j ∈ outstanding s → is_Some (closures s !! j)) →
  liveInv (processQueue throws (setProcessing false s)).
Proof.
  intros H1 H3. unfold processQueue. cbn [isProcessingQueue setProcessing
    requestQueue isSynthesizerBusy orb].
  destruct (requestQueue s) as [|q rest] eqn:Hq; cbn [length Nat.eqb orb].
  - repeat split; cbn [setProcessing isSynthesizerBusy outstanding requestQueue closures];
      try done.
  - destruct (isSynthesizerBusy s) eqn:Hb.
    + repeat split; cbn [setProcessing isSynthesizerBusy outstanding requestQueue closures];
        rewrite ?Hb; auto.
    + cbn [requestQueue setProcessing]. rewrite ?Hq.
      apply textToSpeechInternal_live. done.
Qed.

Lemma ttsStep_live creds s e : liveInv s → liveInv (ttsStep creds s e).
Proof.
  intros Hinv. pose proof Hinv as (H1 & H2 & H3).
  destruct e as [throws text c|h|k r|k err|throws| |g|m]; cbn [ttsStep].
  - unfold textToSpeech.
    assert (∀ x, liveInv (invoke None (onError c) x s)) as Hinvoke.
    { intros x. destruct (invoke_fields None (onError c) x s)
        as (E1 & E2 & E3 & E4 & E5).
      unfold liveInv. rewrite E1, E2, E3, E4, E5. done. }
    destruct text as [| | | |[|ch t]| |]; try apply Hinvoke.
    destruct creds; cbn [negb]; [|apply Hinvoke].
    destruct (isSynthesizerBusy s) eqn:Hb.
    + unfold queueRequest, processQueue. cbn [isSynthesizerBusy setQueue snd].
      rewrite Hb, orb_true_r. repeat split;
        cbn [isSynthesizerBusy outstanding requestQueue closures timers];
        auto.
    + pose proof (textToSpeechInternal_live throws (ch :: t) c s H3) as H.
      by destruct (textToSpeechInternal throws (ch :: t) c s).
  - destruct h as [|k]; [done|]. cbn [stop].
    destruct (closures s !! k) as [cl|] eqn:Hk; [|done].
    destruct (isInterrupted cl); [done|].
    apply cleanup_live. cbn [outstanding closures sdk setClosures].
    intros j Hj. destruct (decide (j = k)) as [->|Hne];
      [rewrite lookup_insert_eq; eauto|rewrite lookup_insert_ne by done; auto].
  - case_bool_decide as Hk; [|done]. unfold onSpeakResult.
    cbn [closures setOutstanding].
    destruct (H3 k Hk) as [cl ->].
    match goal with |- liveInv (cleanup k _ ?s0) =>
      assert (outstanding s0 = answered k (outstanding s) ∧ closures s0 = closures s)
        as [Eo Ec]
    end.
    { repeat case_match;
        rewrite ?(proj1 (proj2 (proj2 (invoke_fields _ _ _ _)))),
                ?(proj2 (proj2 (proj2 (proj2 (invoke_fields _ _ _ _)))));
        done. }
    apply cleanup_live. rewrite Eo, Ec. intros j Hj.
    apply H3. unfold answered in Hj. by apply list_elem_of_filter in Hj as [_ ?].
  - case_bool_decide as Hk; [|done]. unfold onSpeakError.
    cbn [closures setOutstanding].
    destruct (H3 k Hk) as [cl ->].
    apply cleanup_live.
    rewrite (proj1 (proj2 (proj2 (invoke_fields _ _ _ _)))),
            (proj2 (proj2 (proj2 (proj2 (invoke_fields _ _ _ _))))).
    cbn [outstanding closures]. intros j Hj.
    apply H3. unfold answered in Hj. by apply list_elem_of_filter in Hj as [_ ?].
  - destruct (timers s) as [|n]; [done|]. unfold timerBody.
    apply processQueue_live; done.
  - unfold cleanupSynthesizer.
    destruct (persistentSynthesizer s);
      repeat split; cbn [isSynthesizerBusy outstanding requestQueue closures
                         timers setProcessing setQueue setBusy setSynthesizer sdk];
      try done.
  - unfold setVoiceGender.
    destruct (match g with VString n => _ | _ => None end) as [g'|]; [|done].
    cbn [persistentSynthesizer setGender].
    destruct (persistentSynthesizer s); done.
  - unfold setPerformanceMode. repeat case_match; done.
Qed.

Lemma liveInv_run creds es s : liveInv s → liveInv (ttsRun creds s es).
Proof.
  revert s. induction es as [|e es IH]; intros s H; [done|].
  simpl. apply IH. by apply ttsStep_live.
Qed.

Lemma liveInv_initial : liveInv initialTts.
Proof. repeat split; simpl; try done. intros k Hk. by apply elem_of_nil in Hk. Qed.

(** X20.  The queue never stalls.  In every state the module can reach:
    while it is busy, the SDK still owes it an answer; while a request is
    queued, the module is busy or a timer of [cleanup] is set; and every
    answer of the SDK that is still owed, a result or an error, clears the
    busy flag and sets a timer, leaving the queue as it is for that timer.
    So a queued request always has an event to wait for. *)
Theorem queue_never_stalls (creds : bool) (es : list ttsEvent) :
  let s := ttsRun creds initialTts es in
  (isSynthesizerBusy s = true → outstanding s ≠ [])
  ∧ (requestQueue s ≠ [] → isSynthesizerBusy s = true ∨ 0 < timers s)
  ∧ (∀ k e, k ∈ outstanding s →
       (∃ r, e = SdkResult k r) ∨ (∃ err, e = SdkError k err) →
       let s' := ttsStep creds s e in
       isSynthesizerBusy s' = false
       ∧ timers s' = S (timers s)
       ∧ requestQueue s' = requestQueue s
       ∧ outstanding s' = answered k (outstanding s)).
Proof.
  intros s.
  destruct (liveInv_run creds es initialTts liveInv_initial) as (H1 & H2 & H3).
  fold s in H1, H2, H3.
  split; [done|]. split; [done|].
  intros k e Hk He s'. subst s'.
  destruct (H3 k Hk) as [cl Hcl].
  assert (∀ j, j ∈ answered k (outstanding s) → is_Some (closures s !! j)) as H3'.
  { intros j Hj. apply H3. unfold answered in Hj.
    by apply list_elem_of_filter in Hj as [_ ?]. }
  destruct He as [[r ->]|[err ->]]; cbn [ttsStep];
    rewrite bool_decide_eq_true_2 by done.
  - unfold onSpeakResult. cbn [closures setOutstanding]. rewrite Hcl.
    match goal with |- context [cleanup k ?c ?s0] =>
      assert (outstanding s0 = answered k (outstanding s)
              ∧ requestQueue s0 = requestQueue s ∧ timers s0 = timers s
              ∧ closures s0 = closures s)
        as (Eo & Eq & Et & Ec);
      [|destruct (cleanup_live k c s0) as (_ & -> & -> & -> & ->);
        [by rewrite Eo, Ec|by rewrite Eo, Eq, Et]]
    end.
    repeat case_match;
      rewrite ?(proj1 (proj2 (proj2 (invoke_fields _ _ _ _)))),
              ?(proj1 (proj2 (invoke_fields _ _ _ _))),
              ?(proj1 (proj2 (proj2 (proj2 (invoke_fields _ _ _ _))))),
              ?(proj2 (proj2 (proj2 (proj2 (invoke_fields _ _ _ _)))));
      done.
  - unfold onSpeakError. cbn [closures setOutstanding]. rewrite Hcl.
    match goal with |- context [cleanup k ?c ?s0] =>
      assert (outstanding s0 = answered k (outstanding s)
              ∧ requestQueue s0 = requestQueue s ∧ timers s0 = timers s
              ∧ closures s0 = closures s)
        as (Eo & Eq & Et & Ec);
      [|destruct (cleanup_live k c s0) as (_ & -> & -> & -> & ->);
        [by rewrite Eo, Ec|by rewrite Eo, Eq, Et]]
    end.
    rewrite ?(proj1 (proj2 (proj2 (invoke_fields _ _ _ _)))),
            ?(proj1 (proj2 (invoke_fields _ _ _ _))),
            ?(proj1 (proj2 (proj2 (proj2 (invoke_fields _ _ _ _))))),
            ?(proj2 (proj2 (proj2 (proj2 (invoke_fields _ _ _ _)))));
      done.
Qed.

(** ** The pause markers of quality mode *)

Local Open Scope N_scope.

Lemma replaceAll_pauses s :
  replaceAll 33 (tpl "<break time='150ms'/>!")
    (replaceAll 44 (tpl "<break time='100ms'/>,")
       (replaceAll 46 (tpl "<break time='150ms'/>.") s))
  = s ≫= pauseMark.
Proof.
  induction s as [|x s IH]; [done|].
  rewrite (replaceAll_cons 46), (replaceAll_app 44), (replaceAll_app 33), IH.
  change ((x :: s) ≫= pauseMark) with (pauseMark x ++ (s ≫= pauseMark)).
  f_equal. unfold pauseMark.
  destruct (decide (x = 46)) as [->|H1]; [by vm_compute|].
  destruct (decide (x = 44)) as [->|H2]; [by vm_compute|].
  destruct (decide (x = 33)) as [->|H3]; [by vm_compute|].
  rewrite (replaceAll_absent 44), (replaceAll_absent 33); [done|intros E%list_elem_of_singleton; congruence..].
Qed.

(** X21.  The pause markers of quality mode.  The four replacements of
    [generateOptimizedSSML] do not interfere with each other: their result
    is the text with one marker put before every full stop, comma and
    exclamation mark, and the 200 ms marker put before the first question
    mark only; question marks after the first get no marker. *)
Theorem processText_single_pass (before after : jsstring) :
  (63 ∉ before → processText before = before ≫= pauseMark)
  ∧ (63 ∉ before →
     processText (before ++ 63 :: after)
     = (before ≫= pauseMark) ++ tpl "<break time='200ms'/>" ++ [63]
       ++ (after ≫= pauseMark)).
Proof.
  unfold processText. split; intros Hq.
  - assert (replaceFirst 63 (tpl "<break time='200ms'/>?") before = before) as ->.
    { induction before as [|x s IH]; [done|]. simpl.
      rewrite decide_False by set_solver. f_equal. apply IH. set_solver. }
    apply replaceAll_pauses.
  - rewrite replaceFirst_app_absent by done. cbn [replaceFirst].
    rewrite decide_True by done.
    rewrite (replaceAll_app 46), (replaceAll_app 44), (replaceAll_app 33).
    rewrite replaceAll_pauses. f_equal.
    rewrite (replaceAll_app 46), (replaceAll_app 44), (replaceAll_app 33).
    rewrite replaceAll_pauses.
    rewrite (app_assoc _ [63]). f_equal. apply replaceAll_pauses.
Qed.

Local Open Scope nat_scope.
